(** * gtreap: a treap with recycled nodes

    Verification development for [treap.go] (package [gtreap]).

    The file has two embeddings of the source.

    - [Go] is the program as it runs: nodes live in a store and are reached
      through pointers, [newNode] takes its storage from [nodePool], and
      [union] and [Delete] hand nodes back to that pool.
    - [Tree] is the same code read over immutable trees: a [*node] is a
      finite tree and [newNode] builds a node that nothing else refers to.

    [TreeFacts] has the properties of the algorithms over trees.  [ReadOnly]
    and [Refine] relate the two embeddings: the queries always compute what
    they compute over trees, the operations that build nodes do so as long
    as the pool holds unused nodes only ([Stored.sound]).  [Claims] has the
    statements about the package, made on the program as it runs, and
    [Properties] has what else the code guarantees: the allocator, the
    operations on a sound store, how they compose, and when an old version
    survives an [Upsert]. *)

From stdpp Require Import base option list sorting gmap.
From Stdlib Require Import ZArith Lia.
From Equations Require Import Equations.

Local Open Scope Z_scope.
#[local] Set Warnings "-clear-no-such-hyp".

(** ** Items and comparison *)

(** [type Compare func(a, b interface{}) int]: negative, zero or positive. *)
Definition Compare (Item : Type) : Type := Item → Item → Z.

(** What the package expects of a comparison function: a total preorder
    read off the sign of the result. *)
Class TotalOrder {Item : Type} (cmp : Compare Item) : Prop := {
  cmp_flip : ∀ a b, cmp a b < 0 ↔ 0 < cmp b a;
  cmp_le_trans : ∀ a b c, cmp a b <= 0 → cmp b c <= 0 → cmp a c <= 0
}.

(** ** The program over a store of nodes *)

Module Go.

(** A [*node] is an address or the nil pointer. *)
Definition addr : Type := positive.
Definition ptr : Type := option addr.

Section Program.
Context {Item : Type}.
(** The nil value of [interface{}], returned by [Min], [Max] and [Get] for
    "absent" and held by a node just made with [&node{}]. *)
Context (nil : Item).

Record node : Type := mkNode {
  item : Item;
  priority : Z;
  left : ptr;
  right : ptr
}.

(** [sync.Pool] as one processor sees it between two collections: [Put]
    fills the private slot when it is empty and pushes on the shared stack
    otherwise, [Get] empties the private slot or else pops the stack.  The
    pool holds [interface{}] values, so a nil [*node] is stored like any
    other pointer. *)
Record Pool : Type := mkPool {
  private : option ptr;
  shared : list ptr
}.

Record state : Type := mkState {
  heap : gmap addr node;
  next : addr;
  nodePool : Pool
}.

(** Computations on the state; [None] is a nil dereference or the end of
    the fuel. *)
Definition M (A : Type) : Type := state → option (A * state).

Definition ret {A} (a : A) : M A := λ s, Some (a, s).
Definition bind {A B} (m : M A) (k : A → M B) : M B :=
  λ s, match m s with
       | Some (a, s') => k a s'
       | None => None
       end.
Definition panic {A} : M A := λ _, None.

#[global] Instance M_ret : MRet M := @ret.
#[global] Instance M_bind : MBind M := λ A B k m, bind m k.

(** [&node{item: i, priority: p, left: l, right: r}] *)
Definition alloc (n : node) : M ptr := λ s,
  Some (Some (next s),
        mkState (<[next s := n]> (heap s)) (Pos.succ (next s)) (nodePool s)).

(** Reading the fields of [*n]. *)
Definition load (n : ptr) : M node := λ s,
  match n with
  | Some a => match heap s !! a with
              | Some nd => Some (nd, s)
              | None => None
              end
  | None => None
  end.

(** Assigning the four fields of [*n]. *)
Definition assign (n : ptr) (nd : node) : M unit := λ s,
  match n with
  | Some a => Some (tt, mkState (<[a := nd]> (heap s)) (next s) (nodePool s))
  | None => None
  end.

Definition pool_Put (x : ptr) : M unit := λ s,
  let p := nodePool s in
  let p' := match private p with
            | None => mkPool (Some x) (shared p)
            | Some _ => mkPool (private p) (x :: shared p)
            end in
  Some (tt, mkState (heap s) (next s) p').

(** [New: func() interface{} { return &node{} }] when the pool is empty. *)
Definition pool_Get : M ptr := λ s,
  let p := nodePool s in
  match private p with
  | Some x => Some (x, mkState (heap s) (next s) (mkPool None (shared p)))
  | None =>
      match shared p with
      | x :: rest => Some (x, mkState (heap s) (next s) (mkPool None rest))
      | [] => alloc (mkNode nil 0 None None) s
      end
  end.

(** [init]: the pool starts with 10000 empty nodes. *)
Definition init_step (s : state) : state :=
  match (x ← alloc (mkNode nil 0 None None); pool_Put x) s with
  | Some (_, s') => s'
  | None => s
  end.

Definition init : state :=
  N.iter 10000 init_step (mkState ∅ 1%positive (mkPool None [])).

Record Treap : Type := mkTreap {
  compare : Compare Item;
  root : ptr
}.

Definition NewTreap (c : Compare Item) : Treap := mkTreap c None.

Definition newNode (i : Item) (p : Z) (l r : ptr) : M ptr :=
  n ← pool_Get;
  n ← (match n with
       | None => alloc (mkNode nil 0 None None)
       | Some _ => ret n
       end);
  assign n (mkNode i p l r);;
  ret n.

(** [func (n *node) reuseWith(...)]: the four fields of [*n] are assigned
    in place and [n] is returned. *)
Definition reuseWith (n : ptr) (i : Item) (p : Z) (l r : ptr) : M ptr :=
  assign n (mkNode i p l r);;
  ret n.

Fixpoint min_loop (fuel : nat) (n : node) : M Item :=
  match fuel with
  | O => panic
  | S fuel =>
      match left n with
      | None => ret (item n)
      | Some _ => n' ← load (left n); min_loop fuel n'
      end
  end.

Definition Min (fuel : nat) (t : Treap) : M Item :=
  match root t with
  | None => ret nil
  | Some _ => n ← load (root t); min_loop fuel n
  end.

Fixpoint max_loop (fuel : nat) (n : node) : M Item :=
  match fuel with
  | O => panic
  | S fuel =>
      match right n with
      | None => ret (item n)
      | Some _ => n' ← load (right n); max_loop fuel n'
      end
  end.

Definition Max (fuel : nat) (t : Treap) : M Item :=
  match root t with
  | None => ret nil
  | Some _ => n ← load (root t); max_loop fuel n
  end.

Fixpoint get_loop (fuel : nat) (t : Treap) (n : ptr) (target : Item) : M Item :=
  match fuel with
  | O => panic
  | S fuel =>
      match n with
      | None => ret nil
      | Some _ =>
          nd ← load n;
          let c := compare t target (item nd) in
          if c <? 0 then get_loop fuel t (left nd) target
          else if 0 <? c then get_loop fuel t (right nd) target
          else ret (item nd)
      end
  end.

Definition Get (fuel : nat) (t : Treap) (target : Item) : M Item :=
  get_loop fuel t (root t) target.

Fixpoint split (fuel : nat) (t : Treap) (n : ptr) (s : Item)
  : M (ptr * ptr * ptr) :=
  match fuel with
  | O => panic
  | S fuel =>
      match n with
      | None => ret (None, None, None)
      | Some _ =>
          nd ← load n;
          let c := compare t s (item nd) in
          if c =? 0 then ret (left nd, n, right nd)
          else if c <? 0 then
            '(l, middle, r) ← split fuel t (left nd) s;
            nd' ← load n;
            x ← newNode (item nd') (priority nd') r (right nd');
            ret (l, middle, x)
          else
            '(l, middle, r) ← split fuel t (right nd) s;
            nd' ← load n;
            x ← newNode (item nd') (priority nd') (left nd') l;
            ret (x, middle, r)
      end
  end.

Fixpoint union (fuel : nat) (t : Treap) (this that : ptr) : M ptr :=
  match fuel with
  | O => panic
  | S fuel =>
      match this, that with
      | None, _ => ret that
      | _, None => ret this
      | Some _, Some _ =>
          a ← load this;
          b ← load that;
          if priority b <? priority a then
            '(l, middle, r) ← split fuel t that (item a);
            match middle with
            | None =>
                x ← union fuel t (left a) l;
                y ← union fuel t (right a) r;
                newNode (item a) (priority a) x y
            | Some _ =>
                m ← load middle;
                x ← union fuel t (left a) l;
                y ← union fuel t (right a) r;
                newNode (item m) (priority a) x y
            end
          else
            '(l, middle, r) ← split fuel t this (item b);
            (match middle with
             | None => ret tt
             | Some _ => pool_Put middle
             end);;
            x ← union fuel t l (left b);
            y ← union fuel t r (right b);
            newNode (item b) (priority b) x y
      end
  end.

Definition Upsert (fuel : nat) (t : Treap) (i : Item) (itemPriority : Z)
  : M Treap :=
  that ← newNode i itemPriority None None;
  r ← union fuel t (root t) that;
  ret (mkTreap (compare t) r).

Fixpoint join (fuel : nat) (this that : ptr) : M ptr :=
  match fuel with
  | O => panic
  | S fuel =>
      match this, that with
      | None, _ => ret that
      | _, None => ret this
      | Some _, Some _ =>
          a ← load this;
          b ← load that;
          if priority b <? priority a then
            r ← join fuel (right a) that;
            alloc (mkNode (item a) (priority a) (left a) r)
          else
            l ← join fuel this (left b);
            alloc (mkNode (item b) (priority b) l (right b))
      end
  end.

(** The two deferred [Put]s run after [join], last deferred first. *)
Definition Delete (fuel : nat) (t : Treap) (target : Item) : M Treap :=
  '(l, middle, r) ← split fuel t (root t) target;
  x ← join fuel l r;
  pool_Put (root t);;
  pool_Put middle;;
  ret (mkTreap (compare t) x).

(** [type ItemVisitor func(i Item) bool]; a visitor is a closure: it
    carries a state of its own, [V], and it runs in the program, so it can
    read and change the store, for instance by a call of [Upsert]. *)
Definition ItemVisitor (V : Type) : Type := Item → V → M (bool * V).

(** A visitor that keeps to its own state. *)
Definition quiet {V} (f : Item → V → bool * V) : ItemVisitor V :=
  λ i v, ret (f i v).

Fixpoint visitAscend {V} (fuel : nat) (t : Treap) (n : ptr) (pivot : Item)
    (visitor : ItemVisitor V) (v : V) : M (bool * V) :=
  match fuel with
  | O => panic
  | S fuel =>
      match n with
      | None => ret (true, v)
      | Some _ =>
          nd ← load n;
          if compare t pivot (item nd) <=? 0 then
            '(go, v) ← visitAscend fuel t (left nd) pivot visitor v;
            if negb go then ret (false, v)
            else
              nd1 ← load n;
              '(go, v) ← visitor (item nd1) v;
              if negb go then ret (false, v)
              else
                nd2 ← load n;
                visitAscend fuel t (right nd2) pivot visitor v
          else visitAscend fuel t (right nd) pivot visitor v
      end
  end.

Definition VisitAscend {V} (fuel : nat) (t : Treap) (pivot : Item)
    (visitor : ItemVisitor V) (v : V) : M V :=
  '(_, v) ← visitAscend fuel t (root t) pivot visitor v;
  ret v.

End Program.

Arguments mkNode {Item}.
Arguments item {Item}.
Arguments priority {Item}.
Arguments left {Item}.
Arguments right {Item}.
Arguments mkTreap {Item}.
Arguments compare {Item}.
Arguments root {Item}.
Arguments NewTreap {Item}.
Arguments heap {Item}.
Arguments nodePool {Item}.

End Go.

(** ** The program over immutable trees *)

Module Tree.

Section Program.
Context {Item : Type}.
Context (nil : Item).

(** A [*node]: the nil pointer or a node with its two subtrees. *)
Inductive node : Type :=
| null : node
| Node (item : Item) (priority : Z) (left right : node) : node.

Record Treap : Type := mkTreap {
  compare : Compare Item;
  root : node
}.

Definition NewTreap (c : Compare Item) : Treap := mkTreap c null.

Definition newNode (i : Item) (p : Z) (l r : node) : node := Node i p l r.

Fixpoint min_loop (i : Item) (l : node) : Item :=
  match l with
  | null => i
  | Node i' _ l' _ => min_loop i' l'
  end.

Definition Min (t : Treap) : Item :=
  match root t with
  | null => nil
  | Node i _ l _ => min_loop i l
  end.

Fixpoint max_loop (i : Item) (r : node) : Item :=
  match r with
  | null => i
  | Node i' _ _ r' => max_loop i' r'
  end.

Definition Max (t : Treap) : Item :=
  match root t with
  | null => nil
  | Node i _ _ r => max_loop i r
  end.

Fixpoint get_loop (t : Treap) (n : node) (target : Item) : Item :=
  match n with
  | null => nil
  | Node i _ l r =>
      let c := compare t target i in
      if c <? 0 then get_loop t l target
      else if 0 <? c then get_loop t r target
      else i
  end.

Definition Get (t : Treap) (target : Item) : Item :=
  get_loop t (root t) target.

Fixpoint split (t : Treap) (n : node) (s : Item) : node * node * node :=
  match n with
  | null => (null, null, null)
  | Node i p l r =>
      let c := compare t s i in
      if c =? 0 then (l, n, r)
      else if c <? 0 then
        let '(l', middle, r') := split t l s in
        (l', middle, newNode i p r' r)
      else
        let '(l', middle, r') := split t r s in
        (newNode i p l l', middle, r')
  end.

Fixpoint size (n : node) : nat :=
  match n with
  | null => 0
  | Node _ _ l r => S (size l + size r)
  end.

Lemma split_size (t : Treap) (n : node) (s : Item) :
  (size (split t n s).1.1 <= size n)%nat ∧
  (size (split t n s).2 <= size n)%nat.
Proof.
  induction n as [|i p l IHl r IHr]; simpl; [lia|].
  destruct (compare t s i =? 0); simpl; [lia|].
  destruct (compare t s i <? 0).
  - destruct (split t l s) as [[a b] c]; simpl in *; lia.
  - destruct (split t r s) as [[a b] c]; simpl in *; lia.
Qed.

(** Matching on a value while keeping the equation that names it. *)
Definition inspect {A : Type} (x : A) : {y : A | x = y} := exist _ x eq_refl.

Equations? union (t : Treap) (this that : node) : node
  by wf (size this + size that)%nat lt :=
  union t null that := that;
  union t this null := this;
  union t (Node ia pa la ra) (Node ib pb lb rb) with (pb <? pa) => {
    | true with inspect (split t (Node ib pb lb rb) ia) => {
        | exist _ (l, null, r) _ :=
            newNode ia pa (union t la l) (union t ra r);
        | exist _ (l, Node im _ _ _, r) _ :=
            newNode im pa (union t la l) (union t ra r) };
    | false with inspect (split t (Node ia pa la ra) ib) => {
        | exist _ (l, _, r) _ :=
            newNode ib pb (union t l lb) (union t r rb) } }.
Proof.
  all: first
    [ pose proof (split_size t (Node ib pb lb rb) ia) as Hs;
      simpl in Hs;
      match goal with H : _ = (_, _, _) |- _ => rewrite H in Hs end;
      simpl in Hs; lia
    | pose proof (split_size t (Node ia pa la ra) ib) as Hs;
      simpl in Hs;
      match goal with H : _ = (_, _, _) |- _ => rewrite H in Hs end;
      simpl in Hs; lia ].
Qed.

Definition Upsert (t : Treap) (i : Item) (itemPriority : Z) : Treap :=
  mkTreap (compare t) (union t (root t) (newNode i itemPriority null null)).

Equations? join (this that : node) : node
  by wf (size this + size that)%nat lt :=
  join null that := that;
  join this null := this;
  join (Node ia pa la ra) (Node ib pb lb rb) with (pb <? pa) => {
    | true := Node ia pa la (join ra (Node ib pb lb rb));
    | false := Node ib pb (join (Node ia pa la ra) lb) rb }.
Proof. all: simpl; lia. Qed.

Definition Delete (t : Treap) (target : Item) : Treap :=
  let '(l, _, r) := split t (root t) target in
  mkTreap (compare t) (join l r).

Definition ItemVisitor (V : Type) : Type := Item → V → bool * V.

Fixpoint visitAscend {V} (t : Treap) (n : node) (pivot : Item)
    (visitor : ItemVisitor V) (v : V) : bool * V :=
  match n with
  | null => (true, v)
  | Node i _ l r =>
      if compare t pivot i <=? 0 then
        let '(go, v) := visitAscend t l pivot visitor v in
        if negb go then (false, v)
        else
          let '(go, v) := visitor i v in
          if negb go then (false, v)
          else visitAscend t r pivot visitor v
      else visitAscend t r pivot visitor v
  end.

Definition VisitAscend {V} (t : Treap) (pivot : Item)
    (visitor : ItemVisitor V) (v : V) : V :=
  (visitAscend t (root t) pivot visitor v).2.

End Program.

Arguments null {Item}.
Arguments Node {Item}.
Arguments mkTreap {Item}.
Arguments compare {Item}.
Arguments root {Item}.
Arguments NewTreap {Item}.

End Tree.

(** ** Specification vocabulary *)

Module Spec.
Import Tree.

Section Defs.
Context {Item : Type}.

(** The items of a tree, left to right. *)
Fixpoint items (n : node (Item:=Item)) : list Item :=
  match n with
  | null => []
  | Node i _ l r => items l ++ i :: items r
  end.

(** Search-tree order at every node: the left subtree holds smaller items,
    the right subtree greater ones. *)
Fixpoint bst (cmp : Compare Item) (n : node) : Prop :=
  match n with
  | null => True
  | Node i _ l r =>
      bst cmp l ∧ bst cmp r ∧
      Forall (λ x, cmp x i < 0) (items l) ∧
      Forall (λ x, 0 < cmp x i) (items r)
  end.

(** [prio_le n p]: the root of [n], if there is one, has priority at most
    [p]. *)
Definition prio_le (n : node (Item:=Item)) (p : Z) : Prop :=
  match n with
  | null => True
  | Node _ q _ _ => q <= p
  end.

(** Heap order at every node: no child has a greater priority. *)
Fixpoint heap_ordered (n : node (Item:=Item)) : Prop :=
  match n with
  | null => True
  | Node _ p l r =>
      heap_ordered l ∧ heap_ordered r ∧ prio_le l p ∧ prio_le r p
  end.

Definition treap (cmp : Compare Item) (n : node) : Prop :=
  bst cmp n ∧ heap_ordered n.

(** [has cmp l k]: some item of [l] has the key of [k]. *)
Definition has (cmp : Compare Item) (l : list Item) (k : Item) : Prop :=
  Exists (λ x, cmp k x = 0) l.

(** [m] is one of the nodes of [n]. *)
Fixpoint node_of (m n : node (Item:=Item)) : Prop :=
  match n with
  | null => False
  | Node _ _ l r => m = n ∨ node_of m l ∨ node_of m r
  end.

(** The versions a caller can hold: the empty treap and whatever [Upsert]
    and [Delete] return. *)
Inductive version (c : Compare Item) : Treap → Prop :=
| version_new : version c (NewTreap c)
| version_upsert t i p : version c t → version c (Upsert t i p)
| version_delete t k : version c t → version c (Delete t k).

(** Calling a visitor on the items of a list, in order, until it answers
    [false]. *)
Fixpoint visit_list {V} (visitor : ItemVisitor (Item:=Item) V)
    (l : list Item) (v : V) : bool * V :=
  match l with
  | [] => (true, v)
  | x :: l' =>
      let '(go, v') := visitor x v in
      if negb go then (false, v') else visit_list visitor l' v'
  end.

End Defs.
End Spec.

(** ** Trees in the store *)

Module Stored.
Section Defs.
Context {Item : Type}.

(** [repr h p T]: in the store [h], the pointer [p] leads to the tree [T]. *)
Fixpoint repr (h : gmap Go.addr (Go.node (Item:=Item))) (p : Go.ptr)
    (T : Tree.node (Item:=Item)) : Prop :=
  match T with
  | Tree.null => p = None
  | Tree.Node i q l r =>
      ∃ a nd, p = Some a ∧ h !! a = Some nd ∧
              Go.item nd = i ∧ Go.priority nd = q ∧
              repr h (Go.left nd) l ∧ repr h (Go.right nd) r
  end.

(** The version [t] read as a treap over trees. *)
Definition as_tree (t : Go.Treap (Item:=Item)) (T : Tree.node) : Tree.Treap :=
  Tree.mkTreap (Go.compare t) T.

(** What [Get] will hand out, in order: the private slot, then the shared
    stack. *)
Definition entries (p : Go.Pool) : list Go.ptr :=
  match Go.private p with
  | Some x => x :: Go.shared p
  | None => Go.shared p
  end.

(** The nodes waiting in the pool. *)
Definition pool_addrs (p : Go.Pool) : list Go.addr := omap id (entries p).

(** [sound σ L]: the pool of [σ] can serve the nodes [L] that are in use.
    No node in use waits in the pool, no node waits there twice, and every
    node known so far lies below the next fresh address. *)
Record sound (σ : Go.state (Item:=Item)) (L : gset Go.addr) : Prop := {
  sound_free : ∀ a, a ∈ pool_addrs (Go.nodePool σ) → a ∉ L;
  sound_once : NoDup (pool_addrs (Go.nodePool σ));
  sound_live : ∀ a, a ∈ L → (a < Go.next σ)%positive;
  sound_pool : ∀ a, a ∈ pool_addrs (Go.nodePool σ) → (a < Go.next σ)%positive
}.

(** [tree_at h p T F]: in the store [h] the pointer [p] leads to the tree
    [T], whose nodes are the addresses [F], each used once. *)
Fixpoint tree_at (h : gmap Go.addr (Go.node (Item:=Item))) (p : Go.ptr)
    (T : Tree.node (Item:=Item)) (F : gset Go.addr) : Prop :=
  match T with
  | Tree.null => p = None ∧ F = ∅
  | Tree.Node i q l r =>
      ∃ a nd Fl Fr,
        p = Some a ∧ h !! a = Some nd ∧
        Go.item nd = i ∧ Go.priority nd = q ∧
        tree_at h (Go.left nd) l Fl ∧ tree_at h (Go.right nd) r Fr ∧
        (a ∉ Fl) ∧ (a ∉ Fr) ∧ (Fl ## Fr) ∧ F = {[a]} ∪ Fl ∪ Fr
  end.

(** What [split] tells about the middle node [m], for a tree on the nodes
    [F] that it cut into parts on the nodes [Fl] and [Fr]. *)
Definition middle_at (h : gmap Go.addr (Go.node (Item:=Item))) (m : Go.ptr)
    (Tm : Tree.node (Item:=Item)) (F Fl Fr : gset Go.addr) : Prop :=
  match Tm with
  | Tree.null => m = None
  | Tree.Node im _ _ _ =>
      ∃ am nd, m = Some am ∧ h !! am = Some nd ∧ Go.item nd = im ∧
               am ∈ F ∧ (am ∉ Fl) ∧ (am ∉ Fr)
  end.

(** What [union] with a given fuel achieves, from a sound store, on two
    trees that share no node: it returns the union of the trees, leaves the
    store sound for some set [L'] of nodes in use, and touches no node in
    use outside the two trees. *)
Definition union_ok (nil : Item) (t : Go.Treap (Item:=Item))
    (t' : Tree.Treap (Item:=Item)) (fuel : nat) : Prop :=
  ∀ T1 T2 σ L this that F1 F2,
  sound σ L →
  tree_at (Go.heap σ) this T1 F1 → tree_at (Go.heap σ) that T2 F2 →
  F1 ## F2 → F1 ∪ F2 ⊆ L →
  (Tree.size T1 + Tree.size T2 < fuel)%nat →
  ∃ σ' p F' L',
    Go.union nil fuel t this that σ = Some (p, σ') ∧
    tree_at (Go.heap σ') p (Tree.union t' T1 T2) F' ∧
    F' ⊆ L' ∧ sound σ' L' ∧
    ((F' ∖ (F1 ∪ F2)) ## L) ∧
    L ∖ (F1 ∪ F2) ⊆ L' ∧
    (∀ a, a ∈ L ∖ (F1 ∪ F2) → Go.heap σ' !! a = Go.heap σ !! a).

(** What [union] with a given fuel achieves on two search trees that have
    no key in common: nothing goes to the pool, so every node in use stays
    as it is, and the result is built from the two trees and from nodes [N]
    that were not in use. *)
Definition union_keeps (nil : Item) (t : Go.Treap (Item:=Item))
    (fuel : nat) : Prop :=
  ∀ T1 T2 σ L this that F1 F2,
  sound σ L →
  tree_at (Go.heap σ) this T1 F1 → tree_at (Go.heap σ) that T2 F2 →
  F1 ## F2 → F1 ∪ F2 ⊆ L →
  Spec.bst (Go.compare t) T1 → Spec.bst (Go.compare t) T2 →
  (∀ x y, x ∈ Spec.items T1 → y ∈ Spec.items T2 → Go.compare t x y ≠ 0) →
  (Tree.size T1 + Tree.size T2 < fuel)%nat →
  ∃ σ' p F' N,
    Go.union nil fuel t this that σ = Some (p, σ') ∧
    tree_at (Go.heap σ') p (Tree.union (as_tree t Tree.null) T1 T2) F' ∧
    F' ⊆ N ∪ F1 ∪ F2 ∧ N ## L ∧ sound σ' (N ∪ L) ∧
    (∀ a, a ∈ L → Go.heap σ' !! a = Go.heap σ !! a).

(** What [init] has established after [n] of its rounds. *)
Definition filled (nil : Item) (n : nat) (σ : Go.state (Item:=Item)) : Prop :=
  sound σ ∅ ∧
  length (pool_addrs (Go.nodePool σ)) = n ∧
  ∀ a, a ∈ pool_addrs (Go.nodePool σ) →
       Go.heap σ !! a = Some (Go.mkNode nil 0 None None).

End Defs.
End Stored.

(** ** Concrete inputs *)

Module Cases.

(** Items for the examples: the nil interface value, or a key with a
    payload.  [kvCompare] looks at the key only, so two items with the same
    key and different payloads compare equal. *)
Definition kv : Type := option (Z * Z).

Definition kvCompare : Compare kv := λ a b,
  match a, b with
  | None, None => 0
  | None, Some _ => -1
  | Some _, None => 1
  | Some (x, _), Some (y, _) =>
      if x <? y then -1 else if y <? x then 1 else 0
  end.

Definition K (k : Z) : kv := Some (k, 0).

(** The state of a fresh process and the empty treap over [kv]. *)
Definition start : Go.state (Item:=kv) := Go.init None.
Definition empty : Go.Treap (Item:=kv) := Go.NewTreap kvCompare.

(** Reading a node of the store. *)
Definition deref (p : Go.ptr) : Go.M (Item:=kv) (option Go.node) :=
  λ s, Some (match p with Some a => Go.heap s !! a | None => None end, s).

(** A key is written again with another payload; the old version is read
    before and after. *)
Definition overwrite_run : Go.M (Item:=kv) (kv * kv * Go.ptr * Go.ptr) :=
  v1 ← Go.Upsert None 8 empty (Some (1, 10)) 5;
  before ← Go.Get None 8 v1 (K 1);
  v2 ← Go.Upsert None 8 v1 (Some (1, 20)) 5;
  after ← Go.Get None 8 v1 (K 1);
  mret (before, after, Go.root v1, Go.root v2).

(** A key is deleted and another one inserted in the new version; the old
    version is read before and after. *)
Definition recycle_run : Go.M (Item:=kv) (kv * kv) :=
  v1 ← Go.Upsert None 8 empty (K 5) 5;
  before ← Go.Get None 8 v1 (K 5);
  v2 ← Go.Delete None 8 v1 (K 5);
  v3 ← Go.Upsert None 8 v2 (K 7) 1;
  after ← Go.Get None 8 v1 (K 5);
  mret (before, after).

(** The same key inserted twice, the second time with a higher priority. *)
Definition reupsert_run : Go.M (Item:=kv) (option Go.node) :=
  v1 ← Go.Upsert None 8 empty (K 1) 1;
  v2 ← Go.Upsert None 8 v1 (K 1) 100;
  deref (Go.root v2).

(** Keys 5, 7 and 8 are inserted, the root key 5 is deleted, then the absent
    key 9 is deleted; every call is made on the version returned by the call
    before it. *)
Definition chain : Go.M (Item:=kv) Go.Treap :=
  v1 ← Go.Upsert None 8 empty (K 5) 9;
  v2 ← Go.Upsert None 8 v1 (K 7) 5;
  v3 ← Go.Upsert None 8 v2 (K 8) 1;
  Go.Delete None 8 v3 (K 5).

Definition chain_delete : Go.M (Item:=kv) Go.Treap :=
  v4 ← chain; Go.Delete None 8 v4 (K 9).

(** What the version before that last call answers for 8 and for 9. *)
Definition chain_before : Go.M (Item:=kv) (kv * kv) :=
  v4 ← chain;
  eight ← Go.Get None 8 v4 (K 8);
  nine ← Go.Get None 8 v4 (K 9);
  mret (eight, nine).

(** Key 5 is inserted and deleted, key 1 is inserted; then key 2 is inserted
    and deleted again. *)
Definition roundtrip_run : Go.M (Item:=kv) (kv * kv * kv) :=
  v1 ← Go.Upsert None 8 empty (K 5) 1;
  v2 ← Go.Delete None 8 v1 (K 5);
  v3 ← Go.Upsert None 8 v2 (K 1) 1;
  one ← Go.Get None 8 v3 (K 1);
  two ← Go.Get None 8 v3 (K 2);
  v4 ← Go.Upsert None 8 v3 (K 2) 1;
  v5 ← Go.Delete None 8 v4 (K 2);
  one' ← Go.Get None 8 v5 (K 1);
  mret (one, two, one').

(** The split of the version made by [chain] at 9, a key above its items. *)
Definition chain_split : Go.M (Item:=kv) (Go.ptr * Go.ptr * Go.ptr) :=
  v4 ← chain; Go.split None 8 v4 (Go.root v4) (K 9).

(** Keys 5, 7 and 8 are inserted, the absent key 99 is deleted, then the
    root key 5; then a node with key 9 is made, as [Upsert] makes it for
    [union]. *)
Definition union_inputs : Go.M (Item:=kv) (Go.Treap * Go.ptr) :=
  v1 ← Go.Upsert None 8 empty (K 5) 9;
  v2 ← Go.Upsert None 8 v1 (K 7) 5;
  v3 ← Go.Upsert None 8 v2 (K 8) 1;
  v4 ← Go.Delete None 8 v3 (K 99);
  v5 ← Go.Delete None 8 v4 (K 5);
  that ← Go.newNode None (K 9) 100 None None;
  mret (v5, that).

(** Two one-node trees with the key 1 and different payloads, [this] with
    the higher priority, and their union: the nodes of [this], of [that]
    and of the result. *)
Definition same_key_union
    : Go.M (Item:=kv) (option Go.node * option Go.node * option Go.node) :=
  this ← Go.newNode None (Some (1, 10)) 5 None None;
  that ← Go.newNode None (Some (1, 20)) 3 None None;
  a ← deref this;
  b ← deref that;
  r ← Go.union None 8 empty this that;
  c ← deref r;
  mret (a, b, c).

(** A visitor that records the items it is given, and one that also
    upserts (2,99) with priority 5 into the treap [T] each time it is
    called. *)
Definition recorder : Go.ItemVisitor (Item:=kv) (list kv) :=
  Go.quiet (λ i seen, (true, seen ++ [i])).

Definition meddler (T : Go.Treap (Item:=kv))
  : Go.ItemVisitor (Item:=kv) (list kv) :=
  λ i seen,
    _ ← Go.Upsert None 8 T (Some (2, 99)) 5;
    mret (true, seen ++ [i]).

(** The treap with the keys 1 and 2 is traversed from 1 upwards, first by
    [recorder], then by the visitor that upserts into the treap it is
    traversing. *)
Definition meddled_visit : Go.M (Item:=kv) (list kv * list kv) :=
  v1 ← Go.Upsert None 8 empty (K 1) 2;
  T ← Go.Upsert None 8 v1 (K 2) 1;
  before ← Go.VisitAscend 8 T (K 1) recorder [];
  seen ← Go.VisitAscend 8 T (K 1) (meddler T) [];
  mret (before, seen).

(** The greatest item of the version made by [chain]. *)
Definition chain_max : Go.M (Item:=kv) kv :=
  v4 ← chain; Go.Max None 8 v4.

(** The tree with 7 at the root and 8 below it on the right. *)
Definition seven_eight : Tree.node (Item:=kv) :=
  Tree.Node (K 7) 5 Tree.null (Tree.Node (K 8) 1 Tree.null Tree.null).

End Cases.

(** ** Callers and measures *)

Module Usage.
Import Cases.

Section Defs.
Context {Item : Type} (nil : Item).

(** A caller that keeps the latest version only: the items of [l] are
    upserted one after the other, each on the version returned before. *)
Fixpoint upserts (fuel : nat) (t : Go.Treap) (l : list (Item * Z))
  : Go.M Go.Treap :=
  match l with
  | [] => mret t
  | (i, p) :: l' => t' ← Go.Upsert nil fuel t i p; upserts fuel t' l'
  end.

(** What such writes leave in a map that already holds [acc]: for each key
    the item written last. *)
Fixpoint latest (cmp : Compare Item) (l : list (Item * Z)) (acc : list Item)
  : list Item :=
  match l with
  | [] => acc
  | (i, _) :: l' => latest cmp l' (i :: filter (λ x, cmp x i ≠ 0) acc)
  end.

(** The longest path from the root down. *)
Fixpoint height (n : Tree.node (Item:=Item)) : nat :=
  match n with
  | Tree.null => 0
  | Tree.Node _ _ l r => S (height l `max` height r)
  end.

(** The priority of the node that a search for [k] ends at. *)
Fixpoint priority_of (cmp : Compare Item) (n : Tree.node (Item:=Item))
    (k : Item) : option Z :=
  match n with
  | Tree.null => None
  | Tree.Node i q l r =>
      if cmp k i <? 0 then priority_of cmp l k
      else if 0 <? cmp k i then priority_of cmp r k
      else Some q
  end.

End Defs.

(** A store for the examples: the treap [five_three] on the nodes 1 and 2,
    the one-node treap [eight] on the node 3, and the unused node 4 in the
    pool. *)
Definition five_three : Tree.node (Item:=kv) :=
  Tree.Node (K 5) 9 (Tree.Node (K 3) 4 Tree.null Tree.null) Tree.null.

Definition eight : Tree.node (Item:=kv) :=
  Tree.Node (K 8) 2 Tree.null Tree.null.

Definition sample : Go.state (Item:=kv) :=
  Go.mkState
    (<[4%positive := Go.mkNode None 0 None None]>
       (<[3%positive := Go.mkNode (K 8) 2 None None]>
          (<[2%positive := Go.mkNode (K 3) 4 None None]>
             (<[1%positive := Go.mkNode (K 5) 9 (Some 2%positive) None]> ∅))))
    5%positive (Go.mkPool (Some (Some 4%positive)) []).

(** The versions stored in [sample], their nodes, and the nodes in use. *)
Definition v53 : Go.Treap (Item:=kv) := Go.mkTreap kvCompare (Some 1%positive).
Definition v8 : Go.Treap (Item:=kv) := Go.mkTreap kvCompare (Some 3%positive).

Definition nodes53 : gset Go.addr := {[1%positive; 2%positive]}.
Definition nodes8 : gset Go.addr := {[3%positive]}.
Definition in_use : gset Go.addr := {[1%positive; 2%positive; 3%positive]}.

(** Three writes for [upserts], the last one to a key written before. *)
Definition writes : list (kv * Z) := [(K 1, 1); (K 2, 5); (Some (1, 7), 3)].

End Usage.

(** ** The order read off a comparison function *)

Section Order.
Context {Item : Type} (cmp : Compare Item) `{!TotalOrder cmp}.

Lemma cmp_refl a : cmp a a = 0.
Proof. pose proof (cmp_flip a a). lia. Qed.

Lemma cmp_gt_lt a b : 0 < cmp a b ↔ cmp b a < 0.
Proof. by rewrite cmp_flip. Qed.

Lemma cmp_eq_sym a b : cmp a b = 0 → cmp b a = 0.
Proof. pose proof (cmp_flip a b). pose proof (cmp_flip b a). lia. Qed.

Lemma cmp_le_ge a b : cmp a b <= 0 ↔ 0 <= cmp b a.
Proof. pose proof (cmp_flip a b). pose proof (cmp_flip b a). lia. Qed.

Lemma cmp_lt_le_trans a b c : cmp a b < 0 → cmp b c <= 0 → cmp a c < 0.
Proof.
  intros Hab Hbc. destruct (Z_lt_ge_dec (cmp a c) 0) as [|Hac]; [done|].
  assert (cmp c a <= 0) as Hca by (apply cmp_le_ge; lia).
  pose proof (cmp_le_trans _ _ _ Hbc Hca) as Hba.
  apply cmp_le_ge in Hba. lia.
Qed.

Lemma cmp_le_lt_trans a b c : cmp a b <= 0 → cmp b c < 0 → cmp a c < 0.
Proof.
  intros Hab Hbc. destruct (Z_lt_ge_dec (cmp a c) 0) as [|Hac]; [done|].
  assert (cmp c a <= 0) as Hca by (apply cmp_le_ge; lia).
  pose proof (cmp_le_trans _ _ _ Hca Hab) as Hcb.
  apply cmp_le_ge in Hcb. lia.
Qed.

Lemma cmp_lt_trans a b c : cmp a b < 0 → cmp b c < 0 → cmp a c < 0.
Proof. intros. apply cmp_lt_le_trans with b; lia. Qed.

Lemma cmp_eq_trans a b c : cmp a b = 0 → cmp b c = 0 → cmp a c = 0.
Proof.
  intros Hab Hbc.
  assert (cmp a c <= 0) by (apply cmp_le_trans with b; lia).
  assert (cmp c a <= 0).
  { apply cmp_le_trans with b; apply cmp_le_ge; lia. }
  assert (0 <= cmp a c) by (by apply cmp_le_ge). lia.
Qed.

Lemma cmp_eq_lt_l a b c : cmp a b = 0 → cmp a c < 0 ↔ cmp b c < 0.
Proof.
  intros Hab. split; intros.
  - apply cmp_le_lt_trans with a; [|done]. apply cmp_eq_sym in Hab. lia.
  - apply cmp_le_lt_trans with b; [lia|done].
Qed.

Lemma cmp_eq_lt_r a b c : cmp a b = 0 → cmp c a < 0 ↔ cmp c b < 0.
Proof.
  intros Hab. split; intros.
  - apply cmp_lt_le_trans with a; [done|lia].
  - apply cmp_lt_le_trans with b; [done|]. apply cmp_eq_sym in Hab. lia.
Qed.

Lemma cmp_eq_eq_l a b c : cmp a b = 0 → cmp a c = 0 ↔ cmp b c = 0.
Proof.
  intros Hab. split; intros.
  - apply cmp_eq_trans with a; [by apply cmp_eq_sym|done].
  - by apply cmp_eq_trans with b.
Qed.

Lemma cmp_eq_gt_l a b c : cmp a b = 0 → 0 < cmp a c ↔ 0 < cmp b c.
Proof. intros. rewrite !cmp_gt_lt. by apply cmp_eq_lt_r. Qed.

#[local] Instance cmp_lt_transitive : Transitive (λ a b, cmp a b < 0).
Proof. intros a b c. apply cmp_lt_trans. Qed.

End Order.

(** ** Lists *)

Section ListFacts.
Context {A : Type} (P : A → Prop) `{!∀ x, Decision (P x)}.

Lemma filter_all (l : list A) : Forall P l → filter P l = l.
Proof.
  induction 1 as [|x l Hx _ IH]; [done|].
  by rewrite filter_cons_True, IH.
Qed.

Lemma filter_none (l : list A) : Forall (λ x, ¬ P x) l → filter P l = [].
Proof.
  induction 1 as [|x l Hx _ IH]; [done|].
  by rewrite filter_cons_False.
Qed.

Lemma StronglySorted_filter (R : relation A) (l : list A) :
  StronglySorted R l → StronglySorted R (filter P l).
Proof.
  induction 1 as [|x l Hl IH Hx]; [constructor|].
  rewrite filter_cons. case_decide; [|done].
  constructor; [done|].
  apply Forall_forall. intros y [_ Hy]%list_elem_of_filter.
  rewrite Forall_forall in Hx. by apply Hx.
Qed.

End ListFacts.

(** ** The algorithms over trees *)

Module TreeFacts.
Import Tree Spec.

Section Split.
Context {Item : Type} (t : Treap (Item:=Item)) `{!TotalOrder (compare t)}.
#[local] Abbreviation cmp := (compare t).
#[local] Abbreviation lt := (λ a b : Item, compare t a b < 0).

Lemma bst_sorted n : bst cmp n ↔ StronglySorted lt (items n).
Proof.
  induction n as [|i p l IHl r IHr]; simpl.
  { split; [constructor|done]. }
  rewrite StronglySorted_app, StronglySorted_cons, IHl, IHr, !Forall_forall.
  split.
  - intros (Hl & Hr & Fl & Fr). repeat split; try done.
    + intros x1 x2 H1 [->|H2]%elem_of_cons; [by apply Fl|].
      apply cmp_lt_trans with i; [done|by apply Fl|].
      apply cmp_gt_lt; [done|]. by apply Fr.
    + intros x Hx. apply cmp_gt_lt; [done|]. by apply Fr.
  - intros (H12 & Hl & Fr & Hr). repeat split; try done.
    + intros x Hx. apply H12; [done|]. apply elem_of_cons. by left.
    + intros x Hx. apply cmp_gt_lt; [done|]. by apply Fr.
Qed.

Lemma split_spec n s :
  bst cmp n →
  items (split t n s).1.1 = filter (λ x, cmp x s < 0) (items n) ∧
  items (split t n s).2 = filter (λ x, 0 < cmp x s) (items n) ∧
  match (split t n s).1.2 with
  | null => ¬ has cmp (items n) s
  | Node i _ _ _ => node_of (split t n s).1.2 n ∧ cmp s i = 0
  end.
Proof.
  induction n as [|i p l IHl r IHr]; simpl.
  { intros _. repeat split. unfold has. rewrite Exists_nil. tauto. }
  intros (Hl & Hr & Fl & Fr).
  specialize (IHl Hl). specialize (IHr Hr).
  rewrite !filter_app, !filter_cons.
  (* *)
  rewrite Forall_forall in Fl, Fr.
  destruct (Z.eqb_spec (cmp s i) 0) as [Heq|Hne]; simpl.
  - pose proof (cmp_eq_sym _ _ _ Heq) as Heq'.
    assert (filter (λ x, cmp x s < 0) (items l) = items l) as ->.
    { apply filter_all, Forall_forall. intros x Hx.
      apply (cmp_eq_lt_r cmp i s x); [done|]. by apply Fl. }
    assert (filter (λ x, 0 < cmp x s) (items r) = items r) as ->.
    { apply filter_all, Forall_forall. intros x Hx.
      apply cmp_gt_lt; [done|]. apply (cmp_eq_lt_l cmp s i x); [done|].
      apply cmp_gt_lt; [done|]. by apply Fr. }
    assert (filter (λ x, cmp x s < 0) (items r) = []) as ->.
    { apply filter_none, Forall_forall. intros x Hx.
      assert (0 < cmp x s); [|lia].
      apply cmp_gt_lt; [done|]. apply (cmp_eq_lt_l cmp s i x); [done|].
      apply cmp_gt_lt; [done|]. by apply Fr. }
    assert (filter (λ x, 0 < cmp x s) (items l) = []) as ->.
    { apply filter_none, Forall_forall. intros x Hx.
      assert (cmp x s < 0); [|lia].
      apply (cmp_eq_lt_r cmp i s x); [done|]. by apply Fl. }
    rewrite (decide_False (P:=cmp i s < 0)) by lia.
    rewrite (decide_False (P:=0 < cmp i s)) by lia.
    rewrite app_nil_r. auto.
  - destruct (Z.ltb_spec (cmp s i) 0) as [Hlt|Hge].
    + destruct (split t l s) as [[l' m] r'] eqn:Hsp; simpl in *.
      destruct IHl as (-> & -> & Hm).
      assert (0 < cmp i s) by (by apply cmp_flip).
      assert (Forall (λ x, 0 < cmp x s) (items r)) as Hr'.
      { apply Forall_forall. intros x Hx. apply cmp_gt_lt; [done|].
        apply cmp_lt_trans with i; [done..|].
        apply cmp_gt_lt; [done|]. by apply Fr. }
      rewrite (filter_all (λ x, 0 < cmp x s) (items r)) by done.
      rewrite (filter_none (λ x, cmp x s < 0) (items r)).
      2:{ eapply Forall_impl; [exact Hr'|]. simpl. lia. }
      rewrite (decide_True (P:=0 < cmp i s)) by done.
      rewrite (decide_False (P:=cmp i s < 0)) by lia.
      rewrite app_nil_r. repeat split.
      destruct m; [|tauto].
      unfold has in *. rewrite Exists_app, Exists_cons.
      intros [?|[?|Hex]]; [done|lia|].
      apply Exists_exists in Hex as (x & Hx & Hx0).
      rewrite Forall_forall in Hr'. apply Hr' in Hx.
      apply cmp_gt_lt in Hx; [|done]. lia.
    + assert (0 < cmp s i) as Hgt by lia.
      assert (cmp i s < 0) by (by apply cmp_gt_lt).
      destruct (split t r s) as [[l' m] r'] eqn:Hsp; simpl in *.
      destruct IHr as (-> & -> & Hm).
      assert (Forall (λ x, cmp x s < 0) (items l)) as Hl'.
      { apply Forall_forall. intros x Hx.
        apply cmp_lt_trans with i; [done| |done]. by apply Fl. }
      rewrite (filter_all (λ x, cmp x s < 0) (items l)) by done.
      rewrite (filter_none (λ x, 0 < cmp x s) (items l)).
      2:{ eapply Forall_impl; [exact Hl'|]. simpl. lia. }
      rewrite (decide_True (P:=cmp i s < 0)) by done.
      rewrite (decide_False (P:=0 < cmp i s)) by lia.
      repeat split.
      destruct m; [|tauto].
      unfold has in *. rewrite Exists_app, Exists_cons.
      intros [Hex|[?|?]]; [|lia|done].
      apply Exists_exists in Hex as (x & Hx & Hx0).
      rewrite Forall_forall in Hl'. apply Hl' in Hx.
      apply cmp_eq_sym in Hx0; [|done]. lia.
Qed.

Lemma split_bst n s :
  bst cmp n → bst cmp (split t n s).1.1 ∧ bst cmp (split t n s).2.
Proof.
  intros Hn. destruct (split_spec n s Hn) as (Hl & Hr & _).
  rewrite !bst_sorted, Hl, Hr.
  apply bst_sorted in Hn. split; by apply StronglySorted_filter.
Qed.

Lemma prio_le_trans (n : node (Item:=Item)) p q :
  prio_le n p → p <= q → prio_le n q.
Proof. destruct n; simpl; [done|lia]. Qed.

Lemma split_heap n s q :
  heap_ordered n → prio_le n q →
  (heap_ordered (split t n s).1.1 ∧ prio_le (split t n s).1.1 q) ∧
  (heap_ordered (split t n s).2 ∧ prio_le (split t n s).2 q).
Proof.
  revert q. induction n as [|i p l IHl r IHr]; intros q; simpl; [done|].
  intros (Hl & Hr & Pl & Pr) Hq.
  destruct (compare t s i =? 0); simpl.
  { eauto 10 using prio_le_trans. }
  destruct (compare t s i <? 0).
  - destruct (IHl p Hl Pl) as [[? ?] [? ?]].
    destruct (IHl q Hl) as [[? ?] _]; [by eapply prio_le_trans|].
    destruct (split t l s) as [[l' m] r']; simpl in *. done.
  - destruct (IHr p Hr Pr) as [[? ?] [? ?]].
    destruct (IHr q Hr) as [_ [? ?]]; [by eapply prio_le_trans|].
    destruct (split t r s) as [[l' m] r']; simpl in *. done.
Qed.

Lemma node_of_items (i : Item) p a b n :
  node_of (Node i p a b) n → i ∈ items n.
Proof.
  induction n as [|j q l IHl r IHr]; simpl; [done|].
  rewrite elem_of_app, elem_of_cons.
  intros [Heq|[?|?]]; [|by auto..]. inversion Heq. auto.
Qed.

Lemma sorted_unique (l : list Item) x y :
  StronglySorted lt l → x ∈ l → y ∈ l → cmp x y = 0 → x = y.
Proof.
  induction 1 as [|z l Hl IH Hz]; [by intros ?%elem_of_nil|].
  rewrite Forall_forall in Hz.
  intros [->|Hx]%elem_of_cons [->|Hy]%elem_of_cons Hxy; try done.
  - apply Hz in Hy. lia.
  - apply Hz in Hx. apply cmp_eq_sym in Hxy; [|done]. lia.
  - by apply IH.
Qed.

Lemma bst_unique n x y :
  bst cmp n → x ∈ items n → y ∈ items n → cmp x y = 0 → x = y.
Proof. rewrite bst_sorted. apply sorted_unique. Qed.

Lemma union_heap this that :
  heap_ordered this → heap_ordered that →
  heap_ordered (union t this that) ∧
  ∀ q, prio_le this q → prio_le that q → prio_le (union t this that) q.
Proof.
  funelim (union t this that); try done.
  - (* [this] stays on top, nothing of [that] has its key *)
    intros (Hla & Hra & Pla & Pra) Hthat.
    apply Z.ltb_lt in Heq.
    destruct (split_heap _ ia pb Hthat) as [[Hl Pl] [Hr Pr]]; [simpl; lia|].
    rewrite e in Hl, Pl, Hr, Pr. simpl in Hl, Pl, Hr, Pr.
    destruct (H Hla Hl) as [? Hpl]. destruct (H0 Hra Hr) as [? Hpr].
    simpl. repeat split; try done.
    + apply Hpl; [done|]. eapply prio_le_trans; [done|lia].
    + apply Hpr; [done|]. eapply prio_le_trans; [done|lia].
  - (* [this] stays on top and takes the item of [that] with its key *)
    intros (Hla & Hra & Pla & Pra) Hthat.
    apply Z.ltb_lt in Heq.
    destruct (split_heap _ ia pb Hthat) as [[Hl Pl] [Hr Pr]]; [simpl; lia|].
    rewrite e in Hl, Pl, Hr, Pr. simpl in Hl, Pl, Hr, Pr.
    destruct (H Hla Hl) as [? Hpl]. destruct (H0 Hra Hr) as [? Hpr].
    simpl. repeat split; try done.
    + apply Hpl; [done|]. eapply prio_le_trans; [done|lia].
    + apply Hpr; [done|]. eapply prio_le_trans; [done|lia].
  - (* [that] goes on top *)
    intros Hthis (Hlb & Hrb & Plb & Prb).
    apply Z.ltb_ge in Heq.
    destruct (split_heap _ ib pa Hthis) as [[Hl Pl] [Hr Pr]]; [simpl; lia|].
    rewrite e in Hl, Pl, Hr, Pr. simpl in Hl, Pl, Hr, Pr.
    destruct (H Hl Hlb) as [? Hpl]. destruct (H0 Hr Hrb) as [? Hpr].
    simpl. repeat split; try done.
    + apply Hpl; [|done]. eapply prio_le_trans; [done|lia].
    + apply Hpr; [|done]. eapply prio_le_trans; [done|lia].
Qed.

Lemma has_elem (l : list Item) x y : y ∈ l → cmp x y = 0 → has cmp l x.
Proof. intros. apply Exists_exists. eauto. Qed.

Lemma has_node (l1 l2 : list Item) i x :
  has cmp (l1 ++ i :: l2) x ↔ has cmp l1 x ∨ cmp x i = 0 ∨ has cmp l2 x.
Proof. unfold has. by rewrite Exists_app, Exists_cons. Qed.

Lemma has_filter_lt (l : list Item) i x :
  cmp x i < 0 → has cmp (filter (λ y, cmp y i < 0) l) x ↔ has cmp l x.
Proof.
  intros Hx. unfold has. rewrite !Exists_exists. split.
  - intros (y & [_ Hy]%list_elem_of_filter & Hxy). eauto.
  - intros (y & Hy & Hxy). exists y. split; [|done].
    apply list_elem_of_filter. split; [|done].
    by apply (cmp_eq_lt_l cmp x y i).
Qed.

Lemma has_filter_gt (l : list Item) i x :
  0 < cmp x i → has cmp (filter (λ y, 0 < cmp y i) l) x ↔ has cmp l x.
Proof.
  intros Hx. unfold has. rewrite !Exists_exists. split.
  - intros (y & [_ Hy]%list_elem_of_filter & Hxy). eauto.
  - intros (y & Hy & Hxy). exists y. split; [|done].
    apply list_elem_of_filter. split; [|done].
    by apply (cmp_eq_gt_l cmp x y i).
Qed.

Lemma not_has_above (l : list Item) i x :
  Forall (λ y, 0 < cmp y i) l → cmp x i <= 0 → ¬ has cmp l x.
Proof.
  rewrite Forall_forall. intros Hl Hx (y & Hy & Hxy)%Exists_exists.
  apply Hl in Hy. apply (cmp_eq_gt_l cmp x y i) in Hy; [lia|done].
Qed.

Lemma not_has_below (l : list Item) i x :
  Forall (λ y, cmp y i < 0) l → 0 <= cmp x i → ¬ has cmp l x.
Proof.
  rewrite Forall_forall. intros Hl Hx (y & Hy & Hxy)%Exists_exists.
  apply Hl in Hy. apply (cmp_eq_lt_l cmp x y i) in Hy; [lia|done].
Qed.

Lemma union_spec this that :
  bst cmp this → bst cmp that →
  bst cmp (union t this that) ∧
  ∀ x, x ∈ items (union t this that) ↔
       x ∈ items that ∨ (x ∈ items this ∧ ¬ has cmp (items that) x).
Proof.
  funelim (union t this that).
  - intros _ Hthat. split; [done|]. intros x. simpl.
    rewrite elem_of_nil. tauto.
  - intros Hthis _. split; [done|]. intros x.
    unfold has. rewrite elem_of_nil, Exists_nil. tauto.
  - intros (Hla & Hra & Fla & Fra). clear H1 Heqcall.
    remember (Node ib pb lb rb) as that eqn:Ethat. clear Ethat. intros Hthat.
    destruct (split_spec _ ia Hthat) as (El & Er & Hm).
    destruct (split_bst _ ia Hthat) as [Hl Hr].
    rewrite e in El, Er, Hm, Hl, Hr. simpl in El, Er, Hm, Hl, Hr.
    destruct (H Hla Hl) as [Bl Ml]. destruct (H0 Hra Hr) as [Br Mr].
    clear H H0.
    rewrite Forall_forall in Fla, Fra.
    assert (∀ x, x ∈ items (union t la l) → cmp x ia < 0) as Ul.
    { intros x [Hx|[Hx _]]%Ml; [|by apply Fla].
      rewrite El in Hx. by apply list_elem_of_filter in Hx as [? _]. }
    assert (∀ x, x ∈ items (union t ra r) → 0 < cmp x ia) as Ur.
    { intros x [Hx|[Hx _]]%Mr; [|by apply Fra].
      rewrite Er in Hx. by apply list_elem_of_filter in Hx as [? _]. }
    split.
    { simpl. rewrite !Forall_forall. done. }
    intros x. simpl. rewrite !elem_of_app, !elem_of_cons, Ml, Mr, El, Er.
    rewrite !list_elem_of_filter. split.
    + intros [[[_ ?]|[Hx Hn]]|[->|[[_ ?]|[Hx Hn]]]].
      * by left.
      * right. split; [auto|]. pose proof (Fla _ Hx).
        by rewrite has_filter_lt in Hn.
      * right. split; auto.
      * by left.
      * right. split; [auto|]. pose proof (Fra _ Hx).
        by rewrite has_filter_gt in Hn.
    + intros [Hx|[[Hx|[->|Hx]] Hn]].
      * destruct (Z.lt_trichotomy (cmp x ia) 0) as [?|[Hxi|?]].
        -- left. left. done.
        -- destruct Hm. apply has_elem with x; [done|].
           by apply cmp_eq_sym.
        -- right. right. left. split; [lia|done].
      * left. right. split; [done|]. pose proof (Fla _ Hx).
        by rewrite has_filter_lt.
      * right. by left.
      * right. right. right. split; [done|]. pose proof (Fra _ Hx).
        by rewrite has_filter_gt.
  - intros (Hla & Hra & Fla & Fra). clear H1 Heqcall.
    remember (Node ib pb lb rb) as that eqn:Ethat. clear Ethat. intros Hthat.
    destruct (split_spec _ ia Hthat) as (El & Er & Hm).
    destruct (split_bst _ ia Hthat) as [Hl Hr].
    rewrite e in El, Er, Hm, Hl, Hr. simpl in El, Er, Hm, Hl, Hr.
    destruct Hm as [Hm Him]. apply node_of_items in Hm.
    destruct (H Hla Hl) as [Bl Ml]. destruct (H0 Hra Hr) as [Br Mr].
    clear H H0.
    rewrite Forall_forall in Fla, Fra.
    assert (∀ x, x ∈ items (union t la l) → cmp x ia < 0) as Ul.
    { intros x [Hx|[Hx _]]%Ml; [|by apply Fla].
      rewrite El in Hx. by apply list_elem_of_filter in Hx as [? _]. }
    assert (∀ x, x ∈ items (union t ra r) → 0 < cmp x ia) as Ur.
    { intros x [Hx|[Hx _]]%Mr; [|by apply Fra].
      rewrite Er in Hx. by apply list_elem_of_filter in Hx as [? _]. }
    split.
    { simpl. rewrite !Forall_forall. repeat split; try done.
      - intros x Hx. apply (cmp_eq_lt_r cmp ia im x); auto.
      - intros x Hx. apply cmp_gt_lt; [done|].
        apply (cmp_eq_lt_l cmp ia im x); [done|].
        apply cmp_gt_lt; auto. }
    intros x. simpl. rewrite !elem_of_app, !elem_of_cons, Ml, Mr, El, Er.
    rewrite !list_elem_of_filter. split.
    + intros [[[_ ?]|[Hx Hn]]|[->|[[_ ?]|[Hx Hn]]]].
      * by left.
      * right. split; [auto|]. pose proof (Fla _ Hx).
        by rewrite has_filter_lt in Hn.
      * by left.
      * by left.
      * right. split; [auto|]. pose proof (Fra _ Hx).
        by rewrite has_filter_gt in Hn.
    + intros [Hx|[[Hx|[->|Hx]] Hn]].
      * destruct (Z.lt_trichotomy (cmp x ia) 0) as [?|[Hxi|?]].
        -- left. left. done.
        -- right. left. apply (bst_unique that); try done.
           apply cmp_eq_trans with ia; done.
        -- right. right. left. split; [lia|done].
      * left. right. split; [done|]. pose proof (Fla _ Hx).
        by rewrite has_filter_lt.
      * destruct Hn. by apply has_elem with im.
      * right. right. right. split; [done|]. pose proof (Fra _ Hx).
        by rewrite has_filter_gt.
  - intros Hthis (Hlb & Hrb & Flb & Frb). clear H1 Heqcall.
    remember (Node ia pa la ra) as this eqn:Ethis. clear Ethis.
    destruct (split_spec _ ib Hthis) as (El & Er & _).
    destruct (split_bst _ ib Hthis) as [Hl Hr].
    rewrite e in El, Er, Hl, Hr. simpl in El, Er, Hl, Hr.
    destruct (H Hl Hlb) as [Bl Ml]. destruct (H0 Hr Hrb) as [Br Mr].
    clear H H0.
    pose proof Flb as Flb'. pose proof Frb as Frb'.
    rewrite Forall_forall in Flb', Frb'.
    assert (∀ x, x ∈ items (union t l lb) → cmp x ib < 0) as Ul.
    { intros x [Hx|[Hx _]]%Ml; [by apply Flb'|].
      rewrite El in Hx. by apply list_elem_of_filter in Hx as [? _]. }
    assert (∀ x, x ∈ items (union t r rb) → 0 < cmp x ib) as Ur.
    { intros x [Hx|[Hx _]]%Mr; [by apply Frb'|].
      rewrite Er in Hx. by apply list_elem_of_filter in Hx as [? _]. }
    split.
    { simpl. rewrite !Forall_forall. done. }
    intros x. simpl. rewrite has_node.
    rewrite !elem_of_app, !elem_of_cons, Ml, Mr, El, Er.
    rewrite !list_elem_of_filter. split.
    + intros [[?|[[? Hx] Hn]]|[->|[?|[[? Hx] Hn]]]].
      * left. by left.
      * right. split; [done|]. intros [?|[?|Hrb']]; [done|lia|].
        revert Hrb'. apply (not_has_above _ ib); [done|lia].
      * left. right. by left.
      * left. right. by right.
      * right. split; [done|]. intros [Hlb'|[?|?]]; [|lia|done].
        revert Hlb'. apply (not_has_below _ ib); [done|lia].
    + intros [[Hx|[->|Hx]]|[Hx Hn]].
      * left. by left.
      * right. by left.
      * right. right. by left.
      * destruct (Z.lt_trichotomy (cmp x ib) 0) as [?|[Hxi|?]].
        -- left. right. split; [done|]. tauto.
        -- tauto.
        -- right. right. right. split; [split; [lia|done]|]. tauto.
Qed.

Lemma union_bst this that :
  bst cmp this → bst cmp that → bst cmp (union t this that).
Proof. intros. by apply union_spec. Qed.

Lemma union_elem_of this that x :
  bst cmp this → bst cmp that →
  x ∈ items (union t this that) ↔
  x ∈ items that ∨ (x ∈ items this ∧ ¬ has cmp (items that) x).
Proof. intros. by apply union_spec. Qed.

Lemma join_items (this that : node (Item:=Item)) :
  items (join this that) = items this ++ items that.
Proof.
  funelim (join this that); simpl.
  - done.
  - by rewrite app_nil_r.
  - rewrite H. simpl. by rewrite <- app_assoc.
  - rewrite H. simpl. by rewrite <- !app_assoc.
Qed.

Lemma join_heap (this that : node (Item:=Item)) :
  heap_ordered this → heap_ordered that →
  heap_ordered (join this that) ∧
  ∀ q, prio_le this q → prio_le that q → prio_le (join this that) q.
Proof.
  funelim (join this that); try done.
  - intros (Hla & Hra & Pla & Pra) Hthat. apply Z.ltb_lt in Heq.
    destruct (H Hra Hthat) as [? Hp]. simpl. repeat split; try done.
    apply Hp; [done|]. simpl. lia.
  - intros Hthis (Hlb & Hrb & Plb & Prb). apply Z.ltb_ge in Heq.
    destruct (H Hthis Hlb) as [? Hp]. simpl. repeat split; try done.
    apply Hp; [|done]. simpl. lia.
Qed.

Lemma join_bst this that :
  bst cmp this → bst cmp that →
  (∀ x y, x ∈ items this → y ∈ items that → cmp x y < 0) →
  bst cmp (join this that).
Proof.
  rewrite !bst_sorted, join_items, StronglySorted_app. auto.
Qed.

(** Around a pivot a sorted list is its smaller items followed by its
    greater ones, up to the items with the key of the pivot. *)
Lemma sorted_filter_split (l : list Item) k :
  StronglySorted lt l →
  filter (λ x, cmp x k < 0) l ++ filter (λ x, 0 < cmp x k) l =
  filter (λ x, cmp x k ≠ 0) l.
Proof.
  induction 1 as [|x l Hl IH Hx]; [done|].
  rewrite !filter_cons.
  destruct (Z.lt_trichotomy (cmp x k) 0) as [?|[?|?]].
  - rewrite decide_True by done. rewrite decide_False by lia.
    rewrite decide_True by lia. simpl. by rewrite IH.
  - rewrite decide_False by lia. rewrite decide_False by lia.
    rewrite decide_False by lia. done.
  - rewrite decide_False by lia. rewrite decide_True by lia.
    rewrite decide_True by lia.
    assert (Forall (λ y, 0 < cmp y k) l) as Hgt.
    { eapply Forall_impl; [exact Hx|]. simpl. intros y Hy.
      apply cmp_gt_lt; [done|]. apply cmp_lt_trans with x; [done| |done].
      by apply cmp_gt_lt. }
    rewrite (filter_none (λ y, cmp y k < 0) l).
    2:{ eapply Forall_impl; [exact Hgt|]. simpl. lia. }
    rewrite (filter_all (λ y, 0 < cmp y k) l) by done.
    rewrite (filter_all (λ y, cmp y k ≠ 0) l); [done|].
    eapply Forall_impl; [exact Hgt|]. simpl. lia.
Qed.

Lemma Delete_compare k : compare (Delete t k) = compare t.
Proof. unfold Delete. by destruct (split t (root t) k) as [[l m] r]. Qed.

Lemma Delete_items k :
  bst cmp (root t) →
  items (root (Delete t k)) = filter (λ x, cmp x k ≠ 0) (items (root t)).
Proof.
  intros Hb. destruct (split_spec _ k Hb) as (El & Er & _).
  unfold Delete. destruct (split t (root t) k) as [[l m] r]. simpl in *.
  rewrite join_items, El, Er. apply sorted_filter_split. by apply bst_sorted.
Qed.

Lemma Delete_bst k : bst cmp (root t) → bst cmp (root (Delete t k)).
Proof.
  intros Hb. rewrite bst_sorted, Delete_items by done.
  apply StronglySorted_filter. by apply bst_sorted.
Qed.

Lemma Delete_heap k :
  heap_ordered (root t) → heap_ordered (root (Delete t k)).
Proof.
  intros Hh. destruct (root t) as [|i p l r] eqn:Hroot.
  { unfold Delete. rewrite Hroot. simpl. by simp join. }
  destruct (split_heap (root t) k p) as [[Hl _] [Hr _]].
  { by rewrite Hroot. } { rewrite Hroot. simpl. lia. }
  unfold Delete.
  destruct (split t (root t) k) as [[l' m] r']. simpl in *.
  by apply join_heap.
Qed.

Lemma Upsert_compare i p : compare (Upsert t i p) = compare t.
Proof. done. Qed.

Lemma Upsert_elem_of i p x :
  bst cmp (root t) →
  x ∈ items (root (Upsert t i p)) ↔
  x = i ∨ (x ∈ items (root t) ∧ cmp x i ≠ 0).
Proof.
  intros Hb. unfold Upsert. simpl. rewrite union_elem_of; [|done|by simpl].
  simpl. unfold has. rewrite Exists_cons, Exists_nil, elem_of_cons, elem_of_nil.
  tauto.
Qed.

Lemma Upsert_bst i p : bst cmp (root t) → bst cmp (root (Upsert t i p)).
Proof. intros. apply union_bst; [done|by simpl]. Qed.

Lemma Upsert_heap i p :
  heap_ordered (root t) → heap_ordered (root (Upsert t i p)).
Proof. intros. apply union_heap; [done|by simpl]. Qed.

Lemma get_loop_found (nil : Item) n k x :
  bst cmp n → x ∈ items n → cmp k x = 0 → get_loop nil t n k = x.
Proof.
  induction n as [|i p l IHl r IHr]; simpl.
  { by intros _ ?%elem_of_nil. }
  intros (Hl & Hr & Fl & Fr) Hx Hk.
  rewrite Forall_forall in Fl, Fr.
  apply elem_of_app in Hx as [Hx|[->|Hx]%elem_of_cons].
  - pose proof (Fl _ Hx) as Hxi.
    apply (cmp_eq_lt_l cmp k x i) in Hxi; [|done].
    destruct (Z.ltb_spec (cmp k i) 0); [auto|lia].
  - destruct (Z.ltb_spec (cmp k i) 0); [lia|].
    destruct (Z.ltb_spec 0 (cmp k i)); [lia|done].
  - pose proof (Fr _ Hx) as Hxi.
    apply (cmp_eq_gt_l cmp k x i) in Hxi; [|done].
    destruct (Z.ltb_spec (cmp k i) 0); [lia|].
    destruct (Z.ltb_spec 0 (cmp k i)); [auto|lia].
Qed.

Lemma get_loop_absent (nil : Item) n k :
  ¬ has cmp (items n) k → get_loop nil t n k = nil.
Proof.
  induction n as [|i p l IHl r IHr]; simpl; [done|].
  rewrite has_node. intros Hn.
  destruct (Z.ltb_spec (cmp k i) 0); [tauto|].
  destruct (Z.ltb_spec 0 (cmp k i)); [tauto|].
  destruct Hn. right. left. lia.
Qed.

Lemma min_loop_head (i : Item) p l r :
  ∃ rest, items (Node i p l r) = min_loop i l :: rest.
Proof.
  revert i p r. induction l as [|j q a IHa b _]; intros i p r; simpl.
  { by eexists. }
  destruct (IHa j q b) as [rest Hrest]. simpl in Hrest.
  rewrite Hrest. by eexists.
Qed.

Lemma max_loop_last (i : Item) p l r :
  ∃ rest, items (Node i p l r) = rest ++ [max_loop i r].
Proof.
  revert i p l. induction r as [|j q a _ b IHb]; intros i p l; simpl.
  { by eexists. }
  destruct (IHb j q a) as [rest Hrest]. simpl in Hrest.
  rewrite Hrest. exists (items l ++ i :: rest).
  by rewrite <- app_assoc.
Qed.

Lemma visit_list_app {V} (visitor : ItemVisitor V) (l1 l2 : list Item) v :
  visit_list visitor (l1 ++ l2) v =
  (let '(go, v') := visit_list visitor l1 v in
   if negb go then (false, v') else visit_list visitor l2 v').
Proof.
  revert v. induction l1 as [|x l1 IH]; intros v; simpl; [done|].
  destruct (visitor x v) as [[] v']; simpl; [apply IH|done].
Qed.

Lemma visitAscend_list {V} n pivot (visitor : ItemVisitor V) v :
  bst cmp n →
  visitAscend t n pivot visitor v =
  visit_list visitor (filter (λ x, cmp pivot x <= 0) (items n)) v.
Proof.
  revert v. induction n as [|i p l IHl r IHr]; intros v; simpl; [done|].
  intros (Hl & Hr & Fl & Fr).
  rewrite filter_app, filter_cons.
  destruct (Z.leb_spec (cmp pivot i) 0) as [Hle|Hgt].
  - rewrite decide_True by done. rewrite visit_list_app, <- IHl by done.
    destruct (visitAscend t l pivot visitor v) as [[] v1]; simpl; [|done].
    destruct (visitor i v1) as [[] v2]; simpl; [auto|done].
  - rewrite decide_False by lia.
    rewrite (filter_none (λ x, cmp pivot x <= 0) (items l)); [by apply IHr|].
    eapply Forall_impl; [exact Fl|]. simpl. intros x Hx.
    assert (cmp x pivot < 0); [|pose proof (cmp_flip x pivot); lia].
    apply cmp_lt_trans with i; [done..|]. by apply cmp_gt_lt.
Qed.

Lemma Min_least (nil : Item) :
  bst cmp (root t) → root t ≠ null →
  Min nil t ∈ items (root t) ∧
  ∀ x, x ∈ items (root t) → cmp (Min nil t) x <= 0.
Proof.
  unfold Min. destruct (root t) as [|i p l r]; [done|]. intros Hb _.
  destruct (min_loop_head i p l r) as [rest Hrest].
  apply bst_sorted in Hb. rewrite Hrest in *.
  apply StronglySorted_cons in Hb as [Hm _]. rewrite Forall_forall in Hm.
  split; [apply elem_of_cons; by left|].
  intros x [->|Hx]%elem_of_cons.
  - by rewrite cmp_refl.
  - apply Hm in Hx. lia.
Qed.

Lemma Max_greatest (nil : Item) :
  bst cmp (root t) → root t ≠ null →
  Max nil t ∈ items (root t) ∧
  ∀ x, x ∈ items (root t) → cmp x (Max nil t) <= 0.
Proof.
  unfold Max. destruct (root t) as [|i p l r]; [done|]. intros Hb _.
  destruct (max_loop_last i p l r) as [rest Hrest].
  apply bst_sorted in Hb. rewrite Hrest in *.
  apply StronglySorted_app in Hb as (Hm & _ & _).
  split; [apply elem_of_app; right; apply elem_of_cons; by left|].
  intros x [Hx|[->|[]%elem_of_nil]%elem_of_cons]%elem_of_app.
  - assert (cmp x (max_loop i r) < 0); [|lia].
    apply Hm; [done|]. apply elem_of_cons. by left.
  - by rewrite cmp_refl.
Qed.

End Split.

Section Versions.
Context {Item : Type} (c : Compare Item) `{!TotalOrder c}.

Lemma version_compare t : version c t → compare t = c.
Proof.
  induction 1 as [|t i p _ IH|t k _ IH]; [done|done|].
  by rewrite Delete_compare.
Qed.

Lemma version_treap t : version c t → treap c (root t).
Proof.
  induction 1 as [|t i p Hv [Hb Hh]|t k Hv [Hb Hh]]; [done|..].
  - pose proof (version_compare _ Hv) as Hc.
    assert (TotalOrder (compare t)) by (by rewrite Hc).
    rewrite <- Hc in *. split; [by apply Upsert_bst|by apply Upsert_heap].
  - pose proof (version_compare _ Hv) as Hc.
    assert (TotalOrder (compare t)) by (by rewrite Hc).
    rewrite <- Hc in *. split; [by apply Delete_bst|by apply Delete_heap].
Qed.

End Versions.

Section Unfold.
Context {Item : Type}.

(** [union] on two nodes, as the source reads. *)
Lemma union_nodes (t : Treap (Item:=Item)) ia pa la ra ib pb lb rb :
  union t (Node ia pa la ra) (Node ib pb lb rb) =
  if pb <? pa then
    match split t (Node ib pb lb rb) ia with
    | (l, null, r) => newNode ia pa (union t la l) (union t ra r)
    | (l, Node im _ _ _, r) => newNode im pa (union t la l) (union t ra r)
    end
  else
    let '(l, _, r) := split t (Node ia pa la ra) ib in
    newNode ib pb (union t l lb) (union t r rb).
Proof.
  remember (Node ia pa la ra) as this eqn:Ethis.
  remember (Node ib pb lb rb) as that eqn:Ethat.
  funelim (union t this that); try discriminate.
  all: match goal with
       | H1 : Node _ _ _ _ = Node _ _ _ _,
         H2 : Node _ _ _ _ = Node _ _ _ _ |- _ =>
           inversion H1; inversion H2; subst
       end.
  all: rewrite Heq; by rewrite e.
Qed.

End Unfold.
End TreeFacts.

(** ** The comparison of the examples *)

Section CasesOrder.
Import Cases.

#[global] Instance kvCompare_order : TotalOrder kvCompare.
Proof.
  split.
  - intros [[x vx]|] [[y vy]|]; simpl; try lia.
    destruct (Z.ltb_spec x y), (Z.ltb_spec y x); lia.
  - intros [[x vx]|] [[y vy]|] [[z vz]|]; simpl; try lia.
    all: repeat match goal with
                | |- context [?a <? ?b] => destruct (Z.ltb_spec a b)
                end; lia.
Qed.

End CasesOrder.

(** ** Queries read the store and leave it as it is *)

Module ReadOnly.
Import Stored.
Section Queries.
Context {Item : Type} (nil : Item).
Implicit Types (t : Go.Treap (Item:=Item)) (σ : Go.state (Item:=Item)).

Lemma get_loop_refines t (t' : Tree.Treap) σ fuel n T k :
  Tree.compare t' = Go.compare t →
  repr (Go.heap σ) n T → (Tree.size T < fuel)%nat →
  Go.get_loop nil fuel t n k σ = Some (Tree.get_loop nil t' T k, σ).
Proof.
  intros Hc. revert fuel n.
  induction T as [|i q l IHl r IHr]; intros fuel n Hr Hf.
  - simpl in Hr. subst n. destruct fuel; [simpl in Hf; lia|]. done.
  - destruct Hr as (a & nd & -> & Ha & <- & <- & Hl & Hr).
    destruct fuel as [|fuel]; [simpl in Hf; lia|]. simpl in Hf.
    cbn [Go.get_loop]. unfold mbind, Go.M_bind, Go.bind, Go.load. rewrite Ha.
    cbn [Tree.get_loop]. rewrite Hc.
    destruct (_ <? 0); [apply IHl; [done|lia]|].
    destruct (0 <? _); [apply IHr; [done|lia]|]. done.
Qed.

Lemma Get_refines t σ T k :
  repr (Go.heap σ) (Go.root t) T →
  Go.Get nil (S (Tree.size T)) t k σ = Some (Tree.Get nil (as_tree t T) k, σ).
Proof.
  intros Hr. unfold Go.Get. apply get_loop_refines with (T:=T); [done|done|lia].
Qed.

Lemma min_loop_refines σ fuel (nd : Go.node) l :
  repr (Go.heap σ) (Go.left nd) l → (Tree.size l < fuel)%nat →
  Go.min_loop fuel nd σ = Some (Tree.min_loop (Go.item nd) l, σ).
Proof.
  revert fuel nd. induction l as [|i q a IHa b _]; intros fuel nd Hl Hf.
  - simpl in Hl. destruct fuel; [simpl in Hf; lia|]. simpl. by rewrite Hl.
  - destruct Hl as (x & nd' & Hx & Hnd & <- & <- & Ha & Hb).
    destruct fuel as [|fuel]; [simpl in Hf; lia|]. simpl in Hf.
    cbn [Go.min_loop Tree.min_loop]. rewrite Hx.
    unfold mbind, Go.M_bind, Go.bind, Go.load. rewrite Hnd.
    apply IHa; [done|lia].
Qed.

Lemma Min_refines t σ T :
  repr (Go.heap σ) (Go.root t) T →
  Go.Min nil (S (Tree.size T)) t σ = Some (Tree.Min nil (as_tree t T), σ).
Proof.
  destruct T as [|i q l r]; simpl.
  - intros Hr. unfold Go.Min. by rewrite Hr.
  - intros (a & nd & Hx & Hnd & <- & <- & Hl & Hr).
    unfold Go.Min, Tree.Min. rewrite Hx. cbn [Tree.root as_tree].
    unfold mbind, Go.M_bind, Go.bind, Go.load. rewrite Hnd.
    apply min_loop_refines; [done|lia].
Qed.

Lemma max_loop_refines σ fuel (nd : Go.node) r :
  repr (Go.heap σ) (Go.right nd) r → (Tree.size r < fuel)%nat →
  Go.max_loop fuel nd σ = Some (Tree.max_loop (Go.item nd) r, σ).
Proof.
  revert fuel nd. induction r as [|i q a _ b IHb]; intros fuel nd Hr Hf.
  - simpl in Hr. destruct fuel; [simpl in Hf; lia|]. simpl. by rewrite Hr.
  - destruct Hr as (x & nd' & Hx & Hnd & <- & <- & Ha & Hb).
    destruct fuel as [|fuel]; [simpl in Hf; lia|]. simpl in Hf.
    cbn [Go.max_loop Tree.max_loop]. rewrite Hx.
    unfold mbind, Go.M_bind, Go.bind, Go.load. rewrite Hnd.
    apply IHb; [done|lia].
Qed.

Lemma Max_refines t σ T :
  repr (Go.heap σ) (Go.root t) T →
  Go.Max nil (S (Tree.size T)) t σ = Some (Tree.Max nil (as_tree t T), σ).
Proof.
  destruct T as [|i q l r]; simpl.
  - intros Hr. unfold Go.Max. by rewrite Hr.
  - intros (a & nd & Hx & Hnd & <- & <- & Hl & Hr).
    unfold Go.Max, Tree.Max. rewrite Hx. cbn [Tree.root as_tree].
    unfold mbind, Go.M_bind, Go.bind, Go.load. rewrite Hnd.
    apply max_loop_refines; [done|lia].
Qed.

Lemma visitAscend_refines {V} t (t' : Tree.Treap) σ fuel n T pivot
    (visitor : Item → V → bool * V) v :
  Tree.compare t' = Go.compare t →
  repr (Go.heap σ) n T → (Tree.size T < fuel)%nat →
  Go.visitAscend fuel t n pivot (Go.quiet visitor) v σ =
  Some (Tree.visitAscend t' T pivot visitor v, σ).
Proof.
  intros Hc. revert fuel n v.
  induction T as [|i q l IHl r IHr]; intros fuel n v Hr Hf.
  - simpl in Hr. subst n. destruct fuel; [simpl in Hf; lia|]. done.
  - destruct Hr as (a & nd & -> & Ha & <- & <- & Hl & Hr).
    destruct fuel as [|fuel]; [simpl in Hf; lia|]. simpl in Hf.
    cbn [Go.visitAscend Tree.visitAscend].
    unfold mbind, Go.M_bind, Go.bind, Go.load. rewrite Ha, Hc.
    destruct (_ <=? 0); [|apply IHr; [done|lia]].
    rewrite (IHl fuel _ v Hl) by lia.
    destruct (Tree.visitAscend t' l pivot visitor v) as [[] v1]; simpl; [|done].
    rewrite Ha. unfold Go.quiet at 1, Go.ret at 1.
    destruct (visitor (Go.item nd) v1) as [[] v2]; simpl; [|done].
    rewrite Ha. apply IHr; [done|lia].
Qed.

End Queries.
End ReadOnly.

(** ** The program on a sound store *)

Module Refine.
Import Stored TreeFacts.

Section Alloc.
Context {Item : Type} (nil : Item).
Implicit Types (σ : Go.state (Item:=Item)) (L F : gset Go.addr).
Implicit Types (h : gmap Go.addr (Go.node (Item:=Item))).

(** A tree found with its nodes is a tree found. *)
Lemma tree_at_repr h p T F : tree_at h p T F → repr h p T.
Proof.
  revert p F. induction T as [|i q l IHl r IHr]; intros p F; simpl.
  - by intros [-> _].
  - intros (a & nd & Fl & Fr & -> & Ha & <- & <- & Hl & Hr & _).
    exists a, nd. eauto 10.
Qed.

(** A stored tree depends on its own nodes only. *)
Lemma tree_at_frame h h' p T F :
  tree_at h p T F → (∀ a, a ∈ F → h' !! a = h !! a) → tree_at h' p T F.
Proof.
  revert p F. induction T as [|i q l IHl r IHr]; intros p F; simpl; [done|].
  intros (a & nd & Fl & Fr & -> & Ha & <- & <- & Hl & Hr & ? & ? & ? & ->) Hf.
  exists a, nd, Fl, Fr. repeat split; try done.
  - rewrite Hf; [done|set_solver].
  - apply IHl; [done|]. intros b Hb. apply Hf. set_solver.
  - apply IHr; [done|]. intros b Hb. apply Hf. set_solver.
Qed.

(** [Get] on a sound pool: the entry handed out is nil or a node that is
    not in use, and the pool stays sound with that node in use. *)
Lemma pool_Get_spec σ L :
  sound σ L →
  ∃ x σ', Go.pool_Get nil σ = Some (x, σ') ∧
    match x with
    | Some a =>
        (a ∉ L) ∧ sound σ' ({[a]} ∪ L) ∧
        (Go.heap σ' = Go.heap σ ∨
         Go.heap σ' = <[a := Go.mkNode nil 0 None None]> (Go.heap σ))
    | None => sound σ' L ∧ Go.heap σ' = Go.heap σ
    end.
Proof.
  intros [Hfree Honce Hlive Hpool].
  unfold Go.pool_Get, pool_addrs, entries in *.
  destruct σ as [h nx [pv sh]]; simpl in *.
  destruct pv as [x|]; simpl in *.
  - exists x. eexists. split; [done|]. destruct x as [a|]; simpl in *.
    + apply NoDup_cons in Honce as [Ha Hnd].
      split; [apply Hfree; set_solver|]. split; [|by left].
      split; simpl; unfold pool_addrs, entries; simpl.
      * intros b Hb. assert (b ≠ a) by (intros ->; done).
        pose proof (Hfree b). set_solver.
      * done.
      * intros b [->%elem_of_singleton|Hb]%elem_of_union; [|by auto].
        apply Hpool. set_solver.
      * intros b Hb. apply Hpool. set_solver.
    + split; [|done]. split; simpl; unfold pool_addrs, entries; simpl; auto.
  - destruct sh as [|x rest]; simpl in *.
    + exists (Some nx). eexists. split; [done|]. simpl.
      split; [intros Hin; apply Hlive in Hin; lia|]. split; [|by right].
      split; simpl; unfold pool_addrs, entries; simpl.
      * by intros b ?%elem_of_nil.
      * constructor.
      * intros b [->%elem_of_singleton|Hb]%elem_of_union; [lia|].
        apply Hlive in Hb. lia.
      * by intros b ?%elem_of_nil.
    + exists x. eexists. split; [done|]. destruct x as [a|]; simpl in *.
      * apply NoDup_cons in Honce as [Ha Hnd].
        split; [apply Hfree; set_solver|]. split; [|by left].
        split; simpl; unfold pool_addrs, entries; simpl.
        -- intros b Hb. assert (b ≠ a) by (intros ->; done).
           pose proof (Hfree b). set_solver.
        -- done.
        -- intros b [->%elem_of_singleton|Hb]%elem_of_union; [|by auto].
           apply Hpool. set_solver.
        -- intros b Hb. apply Hpool. set_solver.
      * split; [|done].
        split; simpl; unfold pool_addrs, entries; simpl; auto.
Qed.

(** [newNode] on a sound store returns a node outside [L] with the four
    fields as given, and changes no node of [L]. *)
Lemma newNode_spec σ L i p l r :
  sound σ L →
  ∃ a σ', Go.newNode nil i p l r σ = Some (Some a, σ') ∧
    (a ∉ L) ∧ sound σ' ({[a]} ∪ L) ∧
    Go.heap σ' = <[a := Go.mkNode i p l r]> (Go.heap σ).
Proof.
  intros Hs. destruct (pool_Get_spec σ L Hs) as (x & σ1 & Hget & Hx).
  unfold Go.newNode, mbind, Go.M_bind, Go.bind. rewrite Hget.
  destruct x as [a|].
  - destruct Hx as (Ha & Hs1 & Hh). exists a. eexists. split; [done|].
    split; [done|]. split.
    + destruct Hs1. by split.
    + simpl. destruct Hh as [->| ->]; [done|]. by rewrite insert_insert_eq.
  - destruct Hx as [[Hfree Honce Hlive Hpool] Hh].
    exists (Go.next σ1). eexists. split; [done|]. simpl.
    split; [intros Hin; apply Hlive in Hin; lia|]. split.
    + split; simpl.
      * intros b Hb. pose proof (Hpool b Hb). pose proof (Hfree b Hb).
        apply not_elem_of_union. split; [|done].
        intros ->%elem_of_singleton. lia.
      * done.
      * intros b [->%elem_of_singleton|Hb]%elem_of_union; [lia|].
        apply Hlive in Hb. lia.
      * intros b Hb. apply Hpool in Hb. lia.
    + by rewrite insert_insert_eq, Hh.
Qed.

Lemma sound_equal σ L L' : L = L' → sound σ L → sound σ L'.
Proof. by intros ->. Qed.

(** [split] on a sound store computes [Tree.split].  The parts are built
    from nodes of the input and from nodes [N] that were not in use; the
    input stays as it was. *)
Lemma split_refines t (t' : Tree.Treap) s L fuel T :
  Tree.compare t' = Go.compare t →
  ∀ σ p F,
  sound σ L → tree_at (Go.heap σ) p T F → F ⊆ L →
  (Tree.size T < fuel)%nat →
  ∃ σ' l m r Fl Fr N,
    Go.split nil fuel t p s σ = Some ((l, m, r), σ') ∧
    tree_at (Go.heap σ') l (Tree.split t' T s).1.1 Fl ∧
    tree_at (Go.heap σ') r (Tree.split t' T s).2 Fr ∧
    middle_at (Go.heap σ') m (Tree.split t' T s).1.2 F Fl Fr ∧
    (Fl ## Fr) ∧ Fl ∪ Fr ⊆ N ∪ F ∧ (N ## L) ∧
    sound σ' (N ∪ L) ∧
    (∀ a, a ∈ L → Go.heap σ' !! a = Go.heap σ !! a) ∧
    (∀ a, p = Some a → (a ∉ Fl) ∧ (a ∉ Fr)) ∧
    (∀ a nd, p = Some a → Go.heap σ !! a = Some nd →
             Go.compare t s (Go.item nd) ≠ 0 → m ≠ Some a).
Proof.
  intros Hc. revert fuel.
  induction T as [|i q lt IHl rt IHr]; intros fuel σ p F Hs Ht HF Hf.
  { destruct Ht as [-> ->]. destruct fuel; [simpl in Hf; lia|].
    exists σ, None, None, None, ∅, ∅, ∅. simpl.
    split_and!; [done..|clear; set_solver|clear; set_solver|clear; set_solver
                | |done|done|done].
    eapply sound_equal; [|done]. clear; set_solver. }
  destruct Ht as (a & nd & Fl0 & Fr0 & -> & Ha & <- & <- & Hl & Hr &
                  Hal & Har & Hdis & ->).
  destruct fuel as [|fuel]; [simpl in Hf; lia|]. simpl in Hf.
  cbn [Go.split Tree.split].
  unfold mbind, Go.M_bind, Go.bind, Go.load. rewrite Ha, Hc.
  assert (a ∈ L ∧ Fl0 ⊆ L ∧ Fr0 ⊆ L) as (HaL & HlL & HrL)
    by (clear -HF; set_solver).
  destruct (Z.eqb_spec (Go.compare t s (Go.item nd)) 0) as [Heq|Hne].
  { exists σ, (Go.left nd), (Some a), (Go.right nd), Fl0, Fr0, ∅. simpl.
    split_and!; [done|done|done| |done|clear; set_solver|clear; set_solver
                | |done| | ].
    - exists a, nd. split_and!; [done|done|done|clear; set_solver|done|done].
    - eapply sound_equal; [|done]. clear; set_solver.
    - intros ? [= <-]. done.
    - intros ? nd' [= <-] Hnd' Hne. rewrite Ha in Hnd'.
      inversion Hnd'; subst. done. }
  destruct (Go.compare t s (Go.item nd) <? 0).
  - destruct (IHl fuel σ (Go.left nd) Fl0 Hs Hl) as
      (σ1 & l1 & m1 & r1 & Fl1 & Fr1 & N1 & Hrun & Hl1 & Hr1 & Hm1 &
       Hd1 & Hsub1 & HN1 & Hs1 & Hfr1 & _ & _); [done|lia|].
    rewrite Hrun. rewrite Hfr1 by done. rewrite Ha.
    destruct (newNode_spec σ1 (N1 ∪ L) (Go.item nd) (Go.priority nd) r1
                (Go.right nd) Hs1) as (a2 & σ2 & Hnew & Ha2 & Hs2 & Hh2).
    cbn [Go.bind]. rewrite Hnew.
    destruct (Tree.split t' lt s) as [[Tl Tm] Tr]. simpl in *.
    assert (∀ b, b ∈ N1 ∪ L → Go.heap σ2 !! b = Go.heap σ1 !! b) as Hfr2.
    { intros b Hb. rewrite Hh2, lookup_insert_ne; [done|].
      clear -Hb Ha2. set_solver. }
    assert (Fl1 ⊆ N1 ∪ L ∧ Fr1 ⊆ N1 ∪ L ∧ Fr0 ⊆ N1 ∪ L)
      as (Hl1L & Hr1L & Hr0L) by (clear -Hsub1 HlL HrL; set_solver).
    assert (Fr1 ## Fr0) as Hd10 by (clear -Hsub1 HN1 HrL Hdis; set_solver).
    assert (Fl1 ## Fr0) as Hd10' by (clear -Hsub1 HN1 HrL Hdis; set_solver).
    exists σ2, l1, m1, (Some a2), Fl1, ({[a2]} ∪ Fr1 ∪ Fr0), ({[a2]} ∪ N1).
    split; [done|]. split_and!.
    + eapply tree_at_frame; [done|]. intros b Hb. apply Hfr2. by apply Hl1L.
    + exists a2, (Go.mkNode (Go.item nd) (Go.priority nd) r1 (Go.right nd)),
        Fr1, Fr0. simpl.
      split; [done|]. split; [by rewrite Hh2, lookup_insert_eq|].
      split; [done|]. split; [done|]. split; [|split].
      * eapply tree_at_frame; [done|]. intros b Hb. apply Hfr2. by apply Hr1L.
      * eapply tree_at_frame; [exact Hr|]. intros b Hb.
        rewrite Hfr2 by (by apply Hr0L). apply Hfr1. by apply HrL.
      * split_and!; [clear -Ha2 Hr1L; set_solver|clear -Ha2 Hr0L; set_solver
                    |done|done].
    + destruct Tm as [|im qm lm rm]; [done|].
      destruct Hm1 as (am & ndm & -> & Hndm & Him & Hin & Hn1 & Hn2).
      exists am, ndm. split; [done|]. split.
      { rewrite Hfr2; [done|]. clear -Hin HlL. set_solver. }
      split_and!; [done|clear -Hin; set_solver|done|].
      clear -Hin Hn2 Hdis Ha2 HlL. set_solver.
    + clear -Hd1 Hd10' Ha2 Hl1L. set_solver.
    + clear -Hsub1. set_solver.
    + clear -Ha2 HN1. set_solver.
    + eapply sound_equal; [|done]. clear. set_solver.
    + intros b Hb. rewrite Hfr2 by (clear -Hb; set_solver). by apply Hfr1.
    + intros ? [= <-]. split.
      * clear -Hsub1 HN1 HaL Hal. set_solver.
      * clear -Hsub1 HN1 HaL Hal Har Ha2. set_solver.
    + intros ? nd' [= <-] _ _. destruct Tm as [|im qm lm rm].
      * simpl in Hm1. by subst m1.
      * destruct Hm1 as (am & ndm & -> & _ & _ & Hin & _).
        intros [= ->]. done.
  - destruct (IHr fuel σ (Go.right nd) Fr0 Hs Hr) as
      (σ1 & l1 & m1 & r1 & Fl1 & Fr1 & N1 & Hrun & Hl1 & Hr1 & Hm1 &
       Hd1 & Hsub1 & HN1 & Hs1 & Hfr1 & _ & _); [done|lia|].
    rewrite Hrun. rewrite Hfr1 by done. rewrite Ha.
    destruct (newNode_spec σ1 (N1 ∪ L) (Go.item nd) (Go.priority nd)
                (Go.left nd) l1 Hs1) as (a2 & σ2 & Hnew & Ha2 & Hs2 & Hh2).
    cbn [Go.bind]. rewrite Hnew.
    destruct (Tree.split t' rt s) as [[Tl Tm] Tr]. simpl in *.
    assert (∀ b, b ∈ N1 ∪ L → Go.heap σ2 !! b = Go.heap σ1 !! b) as Hfr2.
    { intros b Hb. rewrite Hh2, lookup_insert_ne; [done|].
      clear -Hb Ha2. set_solver. }
    assert (Fl1 ⊆ N1 ∪ L ∧ Fr1 ⊆ N1 ∪ L ∧ Fl0 ⊆ N1 ∪ L)
      as (Hl1L & Hr1L & Hl0L) by (clear -Hsub1 HlL HrL; set_solver).
    assert (Fl0 ## Fl1) as Hd10 by (clear -Hsub1 HN1 HlL Hdis; set_solver).
    assert (Fl0 ## Fr1) as Hd10' by (clear -Hsub1 HN1 HlL Hdis; set_solver).
    exists σ2, (Some a2), m1, r1, ({[a2]} ∪ Fl0 ∪ Fl1), Fr1, ({[a2]} ∪ N1).
    split; [done|]. split_and!.
    + exists a2, (Go.mkNode (Go.item nd) (Go.priority nd) (Go.left nd) l1),
        Fl0, Fl1. simpl.
      split; [done|]. split; [by rewrite Hh2, lookup_insert_eq|].
      split; [done|]. split; [done|]. split; [|split].
      * eapply tree_at_frame; [exact Hl|]. intros b Hb.
        rewrite Hfr2 by (by apply Hl0L). apply Hfr1. by apply HlL.
      * eapply tree_at_frame; [done|]. intros b Hb. apply Hfr2. by apply Hl1L.
      * split_and!; [clear -Ha2 Hl0L; set_solver|clear -Ha2 Hl1L; set_solver
                    |done|done].
    + eapply tree_at_frame; [done|]. intros b Hb. apply Hfr2. by apply Hr1L.
    + destruct Tm as [|im qm lm rm]; [done|].
      destruct Hm1 as (am & ndm & -> & Hndm & Him & Hin & Hn1 & Hn2).
      exists am, ndm. split; [done|]. split.
      { rewrite Hfr2; [done|]. clear -Hin HrL. set_solver. }
      split_and!; [done|clear -Hin; set_solver| |done].
      clear -Hin Hn1 Hdis Ha2 HrL. set_solver.
    + clear -Hd1 Hd10' Ha2 Hr1L. set_solver.
    + clear -Hsub1. set_solver.
    + clear -Ha2 HN1. set_solver.
    + eapply sound_equal; [|done]. clear. set_solver.
    + intros b Hb. rewrite Hfr2 by (clear -Hb; set_solver). by apply Hfr1.
    + intros ? [= <-]. split.
      * clear -Hsub1 HN1 HaL Hal Har Ha2. set_solver.
      * clear -Hsub1 HN1 HaL Har. set_solver.
    + intros ? nd' [= <-] _ _. destruct Tm as [|im qm lm rm].
      * simpl in Hm1. by subst m1.
      * destruct Hm1 as (am & ndm & -> & _ & _ & Hin & _).
        intros [= ->]. done.
Qed.

(** [&node{...}] gives a node that was not known before. *)
Lemma alloc_spec σ L nd :
  sound σ L →
  ∃ a σ', Go.alloc nd σ = Some (Some a, σ') ∧
    (a ∉ L) ∧ sound σ' ({[a]} ∪ L) ∧ Go.heap σ' = <[a := nd]> (Go.heap σ).
Proof.
  intros [Hfree Honce Hlive Hpool]. exists (Go.next σ). eexists.
  split; [done|]. simpl.
  split; [intros Hin; apply Hlive in Hin; lia|]. split; [|done].
  split; simpl.
  - intros b Hb. pose proof (Hpool b Hb). pose proof (Hfree b Hb).
    apply not_elem_of_union. split; [|done].
    intros ->%elem_of_singleton. lia.
  - done.
  - intros b [->%elem_of_singleton|Hb]%elem_of_union; [lia|].
    apply Hlive in Hb. lia.
  - intros b Hb. apply Hpool in Hb. lia.
Qed.

Lemma pool_addrs_Put (p : Go.Pool) x σ σ' :
  Go.nodePool σ = p → Go.pool_Put x σ = Some (tt, σ') →
  Go.heap σ' = Go.heap σ ∧ Go.next σ' = Go.next σ ∧
  pool_addrs (Go.nodePool σ') ≡ₚ
    match x with Some a => a :: pool_addrs p | None => pool_addrs p end.
Proof.
  intros <- Hput. unfold Go.pool_Put in Hput. inversion Hput; subst; clear Hput.
  simpl. split; [done|]. split; [done|].
  unfold pool_addrs, entries.
  destruct (Go.private (Go.nodePool σ)) as [y|]; simpl.
  - destruct y as [b|], x as [a|]; simpl; try done. apply Permutation_swap.
  - by destruct x.
Qed.

(** [Put] of a node in use keeps the store sound for the other nodes. *)
Lemma pool_Put_live σ L a :
  sound σ L → a ∈ L →
  ∃ σ', Go.pool_Put (Some a) σ = Some (tt, σ') ∧
        Go.heap σ' = Go.heap σ ∧ sound σ' (L ∖ {[a]}).
Proof.
  intros [Hfree Honce Hlive Hpool] Ha. eexists. split; [done|].
  destruct (pool_addrs_Put (Go.nodePool σ) (Some a) σ _ eq_refl eq_refl)
    as (Hh & Hn & Hp).
  split; [done|]. split.
  - intros b Hb. rewrite Hp in Hb.
    apply elem_of_cons in Hb as [->|Hb]; [clear; set_solver|].
    apply Hfree in Hb. clear -Hb; set_solver.
  - rewrite Hp. apply NoDup_cons. split; [|done].
    intros Hin. by apply Hfree in Hin.
  - intros b Hb. rewrite Hn. apply Hlive. clear -Hb; set_solver.
  - intros b Hb. rewrite Hn. rewrite Hp in Hb.
    apply elem_of_cons in Hb as [->|Hb]; auto.
Qed.

(** [Put] of a nil pointer changes nothing that matters. *)
Lemma pool_Put_nil σ L :
  sound σ L →
  ∃ σ', Go.pool_Put None σ = Some (tt, σ') ∧
        Go.heap σ' = Go.heap σ ∧ sound σ' L.
Proof.
  intros [Hfree Honce Hlive Hpool]. eexists. split; [done|].
  destruct (pool_addrs_Put (Go.nodePool σ) None σ _ eq_refl eq_refl)
    as (Hh & Hn & Hp).
  split; [done|]. split.
  - intros b Hb. rewrite Hp in Hb. auto.
  - by rewrite Hp.
  - intros b Hb. rewrite Hn. auto.
  - intros b Hb. rewrite Hn. rewrite Hp in Hb. auto.
Qed.

(** [join] computes [Tree.join]; it takes its nodes from [alloc] and does
    not touch the pool. *)
Lemma join_refines L fuel :
  ∀ T1 T2 σ this that F1 F2,
  sound σ L →
  tree_at (Go.heap σ) this T1 F1 → tree_at (Go.heap σ) that T2 F2 →
  F1 ## F2 → F1 ∪ F2 ⊆ L →
  (Tree.size T1 + Tree.size T2 < fuel)%nat →
  ∃ σ' p F' N,
    Go.join fuel this that σ = Some (p, σ') ∧
    tree_at (Go.heap σ') p (Tree.join T1 T2) F' ∧
    F' ⊆ N ∪ F1 ∪ F2 ∧ (N ## L) ∧ sound σ' (N ∪ L) ∧
    Go.nodePool σ' = Go.nodePool σ ∧
    (∀ a, a ∈ L → Go.heap σ' !! a = Go.heap σ !! a).
Proof.
  induction fuel as [|fuel IH]; intros T1 T2 σ this that F1 F2 Hs H1 H2 Hd HL Hf;
    [lia|].
  destruct T1 as [|ia pa la ra].
  { destruct H1 as [-> ->]. exists σ, that, F2, ∅. simp join. simpl.
    split_and!; [done|done|clear; set_solver|clear; set_solver| |done|done].
    eapply sound_equal; [|done]. clear; set_solver. }
  destruct T2 as [|ib pb lb rb].
  { destruct H2 as [-> ->]. pose proof H1 as H1'.
    destruct H1 as (a & nd & ? & ? & -> & _).
    exists σ, (Some a), F1, ∅. simp join. simpl.
    split_and!; [done|done|clear; set_solver|clear; set_solver| |done|done].
    eapply sound_equal; [|done]. clear; set_solver. }
  pose proof H1 as H1'. pose proof H2 as H2'.
  destruct H1 as (a & nda & Fla & Fra & -> & Ha & <- & <- & Hla & Hra &
                  Hala & Hara & Hda & HF1).
  destruct H2 as (b & ndb & Flb & Frb & -> & Hb & <- & <- & Hlb & Hrb &
                  Hblb & Hbrb & Hdb & HF2).
  assert (Fla ⊆ L ∧ Fra ⊆ L ∧ Flb ⊆ L ∧ Frb ⊆ L ∧ F1 ⊆ L ∧ F2 ⊆ L)
    as (HlaL & HraL & HlbL & HrbL & H1L & H2L)
    by (clear -HL HF1 HF2; set_solver).
  simp join. simpl in Hf. cbn [Go.join].
  unfold mbind, Go.M_bind, Go.bind, Go.load. rewrite Ha, Hb.
  destruct (Go.priority ndb <? Go.priority nda); simpl.
  - destruct (IH _ _ σ (Go.right nda) (Some b) Fra F2 Hs Hra H2')
      as (σ1 & r1 & Fr1 & N1 & Hrun & Hr1 & Hsub & HN & Hs1 & Hp1 & Hfr1);
      [clear -Hd HF1; set_solver|clear -HraL H2L; set_solver|simpl; lia|].
    rewrite Hrun.
    destruct (alloc_spec σ1 (N1 ∪ L)
                (Go.mkNode (Go.item nda) (Go.priority nda) (Go.left nda) r1)
                Hs1) as (a2 & σ2 & Hnew & Ha2 & Hs2 & Hh2).
    rewrite Hnew.
    assert (∀ x, x ∈ N1 ∪ L → Go.heap σ2 !! x = Go.heap σ1 !! x) as Hfr2.
    { intros x Hx. rewrite Hh2, lookup_insert_ne; [done|].
      clear -Hx Ha2. set_solver. }
    assert (Fr1 ⊆ N1 ∪ L) as Hr1L by (clear -Hsub HraL H2L; set_solver).
    assert (Fla ## Fr1) as Hdl
      by (clear -Hsub HN HlaL Hda Hd HF1; set_solver).
    exists σ2, (Some a2), ({[a2]} ∪ Fla ∪ Fr1), ({[a2]} ∪ N1).
    split; [done|]. split_and!.
    + exists a2, (Go.mkNode (Go.item nda) (Go.priority nda) (Go.left nda) r1),
        Fla, Fr1. simpl.
      split; [done|]. split; [by rewrite Hh2, lookup_insert_eq|].
      split; [done|]. split; [done|]. split; [|split].
      * eapply tree_at_frame; [exact Hla|]. intros x Hx.
        rewrite Hfr2 by (clear -Hx HlaL; set_solver). apply Hfr1. by apply HlaL.
      * eapply tree_at_frame; [done|]. intros x Hx. apply Hfr2. by apply Hr1L.
      * split_and!; [clear -Ha2 HlaL; set_solver|clear -Ha2 Hr1L; set_solver
                    |done|done].
    + clear -Hsub HF1. set_solver.
    + clear -Ha2 HN. set_solver.
    + eapply sound_equal; [|done]. clear. set_solver.
    + unfold Go.alloc in Hnew. inversion Hnew; subst. simpl. done.
    + intros x Hx. rewrite Hfr2 by (clear -Hx; set_solver). by apply Hfr1.
  - destruct (IH _ _ σ (Some a) (Go.left ndb) F1 Flb Hs H1' Hlb)
      as (σ1 & l1 & Fl1 & N1 & Hrun & Hl1 & Hsub & HN & Hs1 & Hp1 & Hfr1);
      [clear -Hd HF2; set_solver|clear -HlbL H1L; set_solver|simpl; lia|].
    rewrite Hrun.
    destruct (alloc_spec σ1 (N1 ∪ L)
                (Go.mkNode (Go.item ndb) (Go.priority ndb) l1 (Go.right ndb))
                Hs1) as (a2 & σ2 & Hnew & Ha2 & Hs2 & Hh2).
    rewrite Hnew.
    assert (∀ x, x ∈ N1 ∪ L → Go.heap σ2 !! x = Go.heap σ1 !! x) as Hfr2.
    { intros x Hx. rewrite Hh2, lookup_insert_ne; [done|].
      clear -Hx Ha2. set_solver. }
    assert (Fl1 ⊆ N1 ∪ L) as Hl1L by (clear -Hsub HlbL H1L; set_solver).
    assert (Fl1 ## Frb) as Hdl
      by (clear -Hsub HN HrbL Hdb Hd HF2; set_solver).
    exists σ2, (Some a2), ({[a2]} ∪ Fl1 ∪ Frb), ({[a2]} ∪ N1).
    split; [done|]. split_and!.
    + exists a2, (Go.mkNode (Go.item ndb) (Go.priority ndb) l1 (Go.right ndb)),
        Fl1, Frb. simpl.
      split; [done|]. split; [by rewrite Hh2, lookup_insert_eq|].
      split; [done|]. split; [done|]. split; [|split].
      * eapply tree_at_frame; [done|]. intros x Hx. apply Hfr2. by apply Hl1L.
      * eapply tree_at_frame; [exact Hrb|]. intros x Hx.
        rewrite Hfr2 by (clear -Hx HrbL; set_solver). apply Hfr1. by apply HrbL.
      * split_and!; [clear -Ha2 Hl1L; set_solver|clear -Ha2 HrbL; set_solver
                    |done|done].
    + clear -Hsub HF2. set_solver.
    + clear -Ha2 HN. set_solver.
    + eapply sound_equal; [|done]. clear. set_solver.
    + unfold Go.alloc in Hnew. inversion Hnew; subst. simpl. done.
    + intros x Hx. rewrite Hfr2 by (clear -Hx; set_solver). by apply Hfr1.
Qed.

Section Union.
Context (t : Go.Treap (Item:=Item)) (t' : Tree.Treap (Item:=Item)).
Context (Hc : Tree.compare t' = Go.compare t).

#[local] Abbreviation union_ok := (Stored.union_ok nil t t').

(** The two recursive calls and the new root. *)
Lemma union_children fuel i q A B C D σ L pA pB pC pD FA FB FC FD :
  union_ok fuel →
  sound σ L →
  tree_at (Go.heap σ) pA A FA → tree_at (Go.heap σ) pB B FB →
  tree_at (Go.heap σ) pC C FC → tree_at (Go.heap σ) pD D FD →
  FA ## FB → FA ## FC → FA ## FD → FB ## FC → FB ## FD → FC ## FD →
  FA ∪ FB ∪ FC ∪ FD ⊆ L →
  (Tree.size A + Tree.size B < fuel)%nat →
  (Tree.size C + Tree.size D < fuel)%nat →
  ∃ σ' p F' L',
    (x ← Go.union nil fuel t pA pB;
     y ← Go.union nil fuel t pC pD;
     Go.newNode nil i q x y) σ = Some (p, σ') ∧
    tree_at (Go.heap σ') p
      (Tree.Node i q (Tree.union t' A B) (Tree.union t' C D)) F' ∧
    F' ⊆ L' ∧ sound σ' L' ∧
    ((F' ∖ (FA ∪ FB ∪ FC ∪ FD)) ## L) ∧
    L ∖ (FA ∪ FB ∪ FC ∪ FD) ⊆ L' ∧
    (∀ a, a ∈ L ∖ (FA ∪ FB ∪ FC ∪ FD) → Go.heap σ' !! a = Go.heap σ !! a).
Proof.
  intros IH Hs HA HB HC HD dAB dAC dAD dBC dBD dCD HL Hf1 Hf2.
  destruct (IH A B σ L pA pB FA FB Hs HA HB) as
    (σ1 & x & FX & L1 & Hrun1 & HX & HXL & Hs1 & Hnew1 & Hkeep1 & Hfr1);
    [done|clear -HL; set_solver|done|].
  assert (FC ∪ FD ⊆ L ∖ (FA ∪ FB)) as HCDL
    by (clear -HL dAC dAD dBC dBD; set_solver).
  assert (tree_at (Go.heap σ1) pC C FC) as HC1.
  { eapply tree_at_frame; [exact HC|]. intros a Ha. apply Hfr1.
    clear -Ha HCDL. set_solver. }
  assert (tree_at (Go.heap σ1) pD D FD) as HD1.
  { eapply tree_at_frame; [exact HD|]. intros a Ha. apply Hfr1.
    clear -Ha HCDL. set_solver. }
  destruct (IH C D σ1 L1 pC pD FC FD Hs1 HC1 HD1) as
    (σ2 & y & FY & L2 & Hrun2 & HY & HYL & Hs2 & Hnew2 & Hkeep2 & Hfr2);
    [done|clear -HCDL Hkeep1; set_solver|done|].
  destruct (newNode_spec σ2 L2 i q x y Hs2) as (a & σ3 & Hnew & Ha & Hs3 & Hh3).
  unfold mbind, Go.M_bind, Go.bind. rewrite Hrun1, Hrun2, Hnew.
  assert (FX ## FC ∪ FD) as HXCD.
  { clear -Hnew1 HCDL. set_solver. }
  assert (FX ⊆ L1 ∖ (FC ∪ FD)) as HXL1 by (clear -HXL HXCD; set_solver).
  assert (FX ⊆ L2) as HXL2 by (clear -HXL1 Hkeep2; set_solver).
  assert (FX ## FY) as HXY.
  { clear -Hnew2 HXL1. set_solver. }
  assert (L ∖ (FA ∪ FB ∪ FC ∪ FD) ⊆ L2) as Hkeep.
  { clear -Hkeep1 Hkeep2. set_solver. }
  exists σ3, (Some a), ({[a]} ∪ FX ∪ FY), ({[a]} ∪ L2).
  split; [done|]. split_and!.
  - exists a, (Go.mkNode i q x y), FX, FY. simpl.
    split; [done|]. split; [by rewrite Hh3, lookup_insert_eq|].
    split; [done|]. split; [done|]. split; [|split].
    + eapply tree_at_frame; [exact HX|]. intros b Hb.
      rewrite Hh3, lookup_insert_ne by (clear -Hb HXL2 Ha; set_solver).
      apply Hfr2. by apply HXL1.
    + eapply tree_at_frame; [exact HY|]. intros b Hb.
      rewrite Hh3, lookup_insert_ne by (clear -Hb HYL Ha; set_solver). done.
    + split_and!; [clear -Ha HXL2; set_solver|clear -Ha HYL; set_solver
                  |done|done].
  - clear -HXL2 HYL. set_solver.
  - done.
  - assert ((FX ∖ (FA ∪ FB ∪ FC ∪ FD)) ## L) by (clear -Hnew1; set_solver).
    assert ((FY ∖ (FA ∪ FB ∪ FC ∪ FD)) ## L).
    { clear -Hnew2 Hkeep1. set_solver. }
    assert (a ∉ L ∖ (FA ∪ FB ∪ FC ∪ FD)) by (clear -Ha Hkeep; set_solver).
    clear -H H0 H1. set_solver.
  - clear -Hkeep. set_solver.
  - intros b Hb.
    rewrite Hh3, lookup_insert_ne by (clear -Hb Hkeep Ha; set_solver).
    rewrite Hfr2 by (clear -Hb Hkeep1; set_solver).
    apply Hfr1. clear -Hb. set_solver.
Qed.

(** [union] on a sound store computes [Tree.union]. *)
Lemma union_refines fuel : union_ok fuel.
Proof.
  induction fuel as [|fuel IH];
    intros T1 T2 σ L this that F1 F2 Hs H1 H2 Hd HL Hf; [lia|].
  destruct T1 as [|ia pa la ra].
  { destruct H1 as [-> ->]. exists σ, that, F2, L.
    simp union. simpl.
    split_and!; [done|done|clear -HL; set_solver|done|clear; set_solver
                |clear; set_solver|done]. }
  destruct T2 as [|ib pb lb rb].
  { destruct H2 as [-> ->]. pose proof H1 as H1'.
    destruct H1 as (a & nd & ? & ? & -> & _).
    exists σ, (Some a), F1, L.
    simp union. simpl.
    split_and!; [done|done|clear -HL; set_solver|done|clear; set_solver
                |clear; set_solver|done]. }
  pose proof H1 as H1'. pose proof H2 as H2'.
  destruct H1 as (a & nda & Fla & Fra & -> & Ha & <- & <- & Hla & Hra &
                  Hala & Hara & Hda & HF1).
  destruct H2 as (b & ndb & Flb & Frb & -> & Hb & <- & <- & Hlb & Hrb &
                  Hblb & Hbrb & Hdb & HF2).
  assert (F1 ⊆ L ∧ F2 ⊆ L) as [H1L H2L] by (clear -HL; set_solver).
  assert (Fla ⊆ F1 ∧ Fra ⊆ F1 ∧ Flb ⊆ F2 ∧ Frb ⊆ F2)
    as (Hla1 & Hra1 & Hlb2 & Hrb2) by (clear -HF1 HF2; set_solver).
  rewrite union_nodes. simpl in Hf. cbn [Go.union].
  unfold mbind, Go.M_bind, Go.bind, Go.load. rewrite Ha, Hb.
  destruct (Go.priority ndb <? Go.priority nda).
  - (* [this] on top: [that] is split at its item *)
    destruct (split_refines t t' (Go.item nda) L fuel _ Hc σ (Some b) F2
                Hs H2') as
      (σs & l & m & r & Fl & Fr & N & Hrun & Hl & Hr & Hm & Hdlr & Hsub &
       HN & Hss & Hfrs & _ & _); [done|simpl; lia|].
    rewrite Hrun.
    pose proof (Tree.split_size t' (Tree.Node (Go.item ndb) (Go.priority ndb)
                                      lb rb) (Go.item nda)) as [Hsz1 Hsz2].
    destruct (Tree.split t' _ (Go.item nda)) as [[Tl Tm] Tr].
    simpl in Hl, Hr, Hm, Hsz1, Hsz2.
    assert (tree_at (Go.heap σs) (Go.left nda) la Fla) as Hla'.
    { eapply tree_at_frame; [exact Hla|]. intros x Hx. apply Hfrs.
      clear -Hx Hla1 H1L. set_solver. }
    assert (tree_at (Go.heap σs) (Go.right nda) ra Fra) as Hra'.
    { eapply tree_at_frame; [exact Hra|]. intros x Hx. apply Hfrs.
      clear -Hx Hra1 H1L. set_solver. }
    assert (Fl ⊆ N ∪ F2 ∧ Fr ⊆ N ∪ F2) as [HlN HrN]
      by (clear -Hsub; set_solver).
    assert (L ∖ (F1 ∪ F2) ⊆ (N ∪ L) ∖ (Fla ∪ Fl ∪ Fra ∪ Fr)) as Hin.
    { clear -Hla1 Hra1 HlN HrN HN. set_solver. }
    assert (∃ σ' p F' L' im,
      (x ← Go.union nil fuel t (Go.left nda) l;
       y ← Go.union nil fuel t (Go.right nda) r;
       Go.newNode nil im (Go.priority nda) x y) σs = Some (p, σ') ∧
      match Tm with
      | Tree.null => m = None ∧ im = Go.item nda
      | Tree.Node j _ _ _ =>
          ∃ am ndm, m = Some am ∧ Go.heap σs !! am = Some ndm ∧
                    Go.item ndm = j ∧ im = j
      end ∧
      tree_at (Go.heap σ') p
        (Tree.Node im (Go.priority nda) (Tree.union t' la Tl)
           (Tree.union t' ra Tr)) F' ∧
      F' ⊆ L' ∧ sound σ' L' ∧
      ((F' ∖ (Fla ∪ Fl ∪ Fra ∪ Fr)) ## N ∪ L) ∧
      (N ∪ L) ∖ (Fla ∪ Fl ∪ Fra ∪ Fr) ⊆ L' ∧
      (∀ a, a ∈ (N ∪ L) ∖ (Fla ∪ Fl ∪ Fra ∪ Fr) →
            Go.heap σ' !! a = Go.heap σs !! a))
      as (σ' & p & F' & L' & im & Hrun' & Him & Hp & HFL & Hs' & Hnew &
          Hkeep & Hfr).
    { assert (∀ im, ∃ σ' p F' L',
        (x ← Go.union nil fuel t (Go.left nda) l;
         y ← Go.union nil fuel t (Go.right nda) r;
         Go.newNode nil im (Go.priority nda) x y) σs = Some (p, σ') ∧
        tree_at (Go.heap σ') p
          (Tree.Node im (Go.priority nda) (Tree.union t' la Tl)
             (Tree.union t' ra Tr)) F' ∧
        F' ⊆ L' ∧ sound σ' L' ∧
        ((F' ∖ (Fla ∪ Fl ∪ Fra ∪ Fr)) ## N ∪ L) ∧
        (N ∪ L) ∖ (Fla ∪ Fl ∪ Fra ∪ Fr) ⊆ L' ∧
        (∀ a, a ∈ (N ∪ L) ∖ (Fla ∪ Fl ∪ Fra ∪ Fr) →
              Go.heap σ' !! a = Go.heap σs !! a)) as Hch.
      { intros im.
        apply (union_children fuel im (Go.priority nda) la Tl ra Tr σs
                 (N ∪ L) _ _ _ _ Fla Fl Fra Fr IH Hss Hla' Hl Hra' Hr).
        - clear -HlN HN Hla1 H1L Hd. set_solver.
        - done.
        - clear -HrN HN Hla1 H1L Hd. set_solver.
        - clear -HlN HN Hra1 H1L Hd. set_solver.
        - done.
        - clear -HrN HN Hra1 H1L Hd. set_solver.
        - clear -HlN HrN Hla1 Hra1 H1L H2L. set_solver.
        - simpl in *; lia.
        - simpl in *; lia. }
      destruct Tm as [|j qm lm rm]; simpl in Hm.
      - destruct (Hch (Go.item nda)) as (σ' & p & F' & L' & ?).
        exists σ', p, F', L', (Go.item nda). naive_solver.
      - destruct Hm as (am & ndm & -> & Hndm & Hj & _).
        destruct (Hch j) as (σ' & p & F' & L' & ?).
        exists σ', p, F', L', j. naive_solver. }
    exists σ', p, F', L'.
    assert (tree_at (Go.heap σ') p
              match Tm with
              | Tree.null =>
                  Tree.newNode (Go.item nda) (Go.priority nda)
                    (Tree.union t' la Tl) (Tree.union t' ra Tr)
              | Tree.Node j _ _ _ =>
                  Tree.newNode j (Go.priority nda)
                    (Tree.union t' la Tl) (Tree.union t' ra Tr)
              end F') as Hp'.
    { destruct Tm; [by destruct Him as [_ <-]|].
      by destruct Him as (? & ? & _ & _ & _ & <-). }
    split.
    { unfold mbind, Go.M_bind, Go.bind in Hrun'.
      destruct Tm as [|j qm lm rm].
      - destruct Him as [-> ->]. exact Hrun'.
      - destruct Him as (am & ndm & -> & Hndm & <- & ->).
        rewrite Hndm. exact Hrun'. }
    split; [done|]. split_and!; [done|done| | |].
    + clear -Hnew Hin. set_solver.
    + clear -Hkeep Hin. set_solver.
    + intros x Hx. rewrite Hfr by (clear -Hx Hin; set_solver).
      apply Hfrs. clear -Hx. set_solver.
  - (* [that] on top: [this] is split at its item, the middle goes to the pool *)
    destruct (split_refines t t' (Go.item ndb) L fuel _ Hc σ (Some a) F1
                Hs H1') as
      (σs & l & m & r & Fl & Fr & N & Hrun & Hl & Hr & Hm & Hdlr & Hsub &
       HN & Hss & Hfrs & _ & _); [done|simpl; lia|].
    rewrite Hrun.
    pose proof (Tree.split_size t' (Tree.Node (Go.item nda) (Go.priority nda)
                                      la ra) (Go.item ndb)) as [Hsz1 Hsz2].
    destruct (Tree.split t' _ (Go.item ndb)) as [[Tl Tm] Tr].
    simpl in Hl, Hr, Hm, Hsz1, Hsz2.
    assert (Fl ⊆ N ∪ F1 ∧ Fr ⊆ N ∪ F1) as [HlN HrN]
      by (clear -Hsub; set_solver).
    assert (∃ σp Lp,
      (match m with None => Go.ret tt | Some _ => Go.pool_Put m end) σs =
        Some (tt, σp) ∧
      Go.heap σp = Go.heap σs ∧ sound σp Lp ∧
      Lp ⊆ N ∪ L ∧ (N ∪ L) ∖ F1 ⊆ Lp ∧ Fl ∪ Fr ⊆ Lp)
      as (σp & Lp & Hput & Hhp & Hsp & HLp1 & HLp2 & HLp3).
    { destruct Tm as [|im qm lm rm]; simpl in Hm.
      - subst m. exists σs, (N ∪ L). split; [done|]. split; [done|].
        split; [done|]. clear -HlN HrN H1L. set_solver.
      - destruct Hm as (am & ndm & -> & Hndm & Him & Hin & Hn1 & Hn2).
        destruct (pool_Put_live σs (N ∪ L) am Hss) as (σp & Hput & Hhp & Hsp);
          [clear -Hin H1L; set_solver|].
        exists σp, ((N ∪ L) ∖ {[am]}). split; [done|]. split; [done|].
        split; [done|]. clear -HlN HrN H1L Hin Hn1 Hn2. set_solver. }
    rewrite Hput. rewrite <- Hhp in Hl, Hr.
    assert (tree_at (Go.heap σp) (Go.left ndb) lb Flb) as Hlb'.
    { eapply tree_at_frame; [exact Hlb|]. intros x Hx.
      rewrite Hhp. apply Hfrs. clear -Hx Hlb2 H2L. set_solver. }
    assert (tree_at (Go.heap σp) (Go.right ndb) rb Frb) as Hrb'.
    { eapply tree_at_frame; [exact Hrb|]. intros x Hx.
      rewrite Hhp. apply Hfrs. clear -Hx Hrb2 H2L. set_solver. }
    assert (F2 ⊆ Lp) as H2p by (clear -HLp2 H2L Hd; set_solver).
    assert (L ∖ (F1 ∪ F2) ⊆ Lp ∖ (Fl ∪ Flb ∪ Fr ∪ Frb)) as Hin.
    { clear -Hlb2 Hrb2 HlN HrN HN HLp2. set_solver. }
    destruct (union_children fuel (Go.item ndb) (Go.priority ndb)
                Tl lb Tr rb σp Lp _ _ _ _ Fl Flb Fr Frb IH Hsp
                Hl Hlb' Hr Hrb') as
      (σ' & p & F' & L' & Hrun' & Hp & HFL & Hs' & Hnew & Hkeep & Hfr).
    { clear -HlN HN Hlb2 H2L Hd. set_solver. }
    { done. }
    { clear -HlN HN Hrb2 H2L Hd. set_solver. }
    { clear -HrN HN Hlb2 H2L Hd. set_solver. }
    { done. }
    { clear -HrN HN Hrb2 H2L Hd. set_solver. }
    { clear -HLp3 H2p Hlb2 Hrb2. set_solver. }
    { simpl in *; lia. }
    { simpl in *; lia. }
    unfold mbind, Go.M_bind, Go.bind in Hrun'. rewrite Hrun'.
    exists σ', p, F', L'. split; [done|]. split; [done|].
    split_and!; [done|done| | |].
    + assert (L ## N) as HN' by (clear -HN; set_solver).
      clear -Hnew Hin HLp2 HlN HrN Hlb2 Hrb2 HN'. set_solver.
    + clear -Hkeep Hin. set_solver.
    + intros x Hx. rewrite Hfr by (clear -Hx Hin; set_solver). rewrite Hhp.
      apply Hfrs. clear -Hx. set_solver.
Qed.

End Union.
Lemma pool_Put_total σ x :
  ∃ σ', Go.pool_Put x σ = Some (tt, σ') ∧ Go.heap σ' = Go.heap σ.
Proof. eexists. split; [done|]. done. Qed.

Lemma sound_weaken σ L L' : sound σ L → L' ⊆ L → sound σ L'.
Proof.
  intros [Hfree Honce Hlive Hpool] HL. split; [|done| |done].
  - intros a Ha Hin. apply (Hfree a Ha). by apply HL.
  - intros a Ha. apply Hlive. by apply HL.
Qed.

(** [Upsert] on a sound store. *)
Lemma Upsert_refines (t : Go.Treap (Item:=Item)) σ L T F i p :
  sound σ L → tree_at (Go.heap σ) (Go.root t) T F → F ⊆ L →
  ∃ σ' t2 F' L',
    Go.Upsert nil (S (S (Tree.size T))) t i p σ = Some (t2, σ') ∧
    Go.compare t2 = Go.compare t ∧
    tree_at (Go.heap σ') (Go.root t2)
      (Tree.root (Tree.Upsert (as_tree t T) i p)) F' ∧
    F' ⊆ L' ∧ sound σ' L' ∧ L ∖ F ⊆ L' ∧
    (∀ a, a ∈ L ∖ F → Go.heap σ' !! a = Go.heap σ !! a).
Proof.
  intros Hs Ht HF.
  destruct (newNode_spec σ L i p None None Hs) as (a & σ1 & Hnew & Ha & Hs1 & Hh1).
  assert (tree_at (Go.heap σ1) (Go.root t) T F) as Ht1.
  { eapply tree_at_frame; [exact Ht|]. intros b Hb.
    rewrite Hh1, lookup_insert_ne; [done|]. clear -Hb HF Ha. set_solver. }
  assert (tree_at (Go.heap σ1) (Some a) (Tree.Node i p Tree.null Tree.null)
            {[a]}) as Hthat.
  { exists a, (Go.mkNode i p None None), ∅, ∅. simpl.
    split_and!; try done; [by rewrite Hh1, lookup_insert_eq|clear; set_solver]. }
  destruct (union_refines t (as_tree t T) eq_refl (S (S (Tree.size T)))
              T _ σ1 ({[a]} ∪ L) (Go.root t) (Some a) F {[a]} Hs1 Ht1 Hthat)
    as (σ' & r & F' & L' & Hrun & Hr & HFL & Hs' & Hnew' & Hkeep & Hfr).
  { clear -HF Ha. set_solver. }
  { clear -HF. set_solver. }
  { simpl. lia. }
  exists σ', (Go.mkTreap (Go.compare t) r), F', L'.
  unfold Go.Upsert, mbind, Go.M_bind, Go.bind. rewrite Hnew, Hrun.
  split_and!; try done.
  - clear -Hkeep Ha. set_solver.
  - intros b Hb. rewrite Hfr by (clear -Hb Ha; set_solver).
    rewrite Hh1, lookup_insert_ne; [done|]. clear -Hb Ha. set_solver.
Qed.

(** [Delete] on a sound store: the version returned is the right one and
    the nodes in use still hold what they held.  The store stays sound when
    the key deleted is not the one at the root. *)
Lemma Delete_refines (t : Go.Treap (Item:=Item)) σ L T F k :
  sound σ L → tree_at (Go.heap σ) (Go.root t) T F → F ⊆ L →
  ∃ σ' t2 F',
    Go.Delete nil (S (Tree.size T + Tree.size T)) t k σ = Some (t2, σ') ∧
    Go.compare t2 = Go.compare t ∧
    tree_at (Go.heap σ') (Go.root t2)
      (Tree.root (Tree.Delete (as_tree t T) k)) F' ∧
    (∀ a, a ∈ L → Go.heap σ' !! a = Go.heap σ !! a) ∧
    (match T with
     | Tree.null => True
     | Tree.Node i _ _ _ => Go.compare t k i ≠ 0
     end →
     ∃ L', sound σ' L' ∧ F' ⊆ L' ∧ L ∖ F ⊆ L').
Proof.
  intros Hs Ht HF.
  destruct (split_refines t (as_tree t T) k L (S (Tree.size T + Tree.size T))
              T eq_refl σ (Go.root t) F Hs Ht HF) as
    (σs & l & m & r & Fl & Fr & N & Hrun & Hl & Hr & Hm & Hdlr & Hsub &
     HN & Hss & Hfrs & Hroot & Hmid); [lia|].
  pose proof (Tree.split_size (as_tree t T) T k) as [Hsz1 Hsz2].
  assert (Fl ∪ Fr ⊆ N ∪ L) as HlrL by (clear -Hsub HF; set_solver).
  destruct (join_refines (N ∪ L) (S (Tree.size T + Tree.size T)) _ _ σs l r
              Fl Fr Hss Hl Hr Hdlr HlrL) as
    (σj & x & F' & Nj & Hjoin & Hx & HF' & HNj & Hsj & Hpj & Hfrj); [lia|].
  destruct (pool_Put_total σj (Go.root t)) as (σ1 & Hput1 & Hh1).
  destruct (pool_Put_total σ1 m) as (σ2 & Hput2 & Hh2).
  exists σ2, (Go.mkTreap (Go.compare t) x), F'.
  unfold Go.Delete, mbind, Go.M_bind, Go.bind.
  rewrite Hrun. cbn [Go.bind]. rewrite Hjoin, Hput1, Hput2.
  split; [done|]. split; [done|]. split; [|split].
  - unfold Tree.Delete. cbn [as_tree Tree.root Tree.compare].
    destruct (Tree.split (as_tree t T) T k) as [[Tl Tm] Tr]. simpl in *.
    by rewrite Hh2, Hh1.
  - intros a Ha. rewrite Hh2, Hh1.
    rewrite Hfrj by (clear -Ha; set_solver). by apply Hfrs.
  - intros Hk. destruct T as [|i q lt rt].
    + destruct Ht as [Hnil ->]. rewrite Hnil in *.
      simpl in Hm. subst m.
      destruct (pool_Put_nil σj _ Hsj) as (σ1' & Hput1' & _ & Hs1').
      rewrite Hput1 in Hput1'. inversion Hput1'; subst σ1'.
      destruct (pool_Put_nil σ1 _ Hs1') as (σ2' & Hput2' & _ & Hs2').
      rewrite Hput2 in Hput2'. inversion Hput2'; subst σ2'.
      exists (Nj ∪ (N ∪ L)). split; [done|].
      split; [clear -HF' Hsub; set_solver|clear; set_solver].
    + pose proof Ht as Ht'.
      destruct Ht as (a & nd & Fl0 & Fr0 & Hp & Ha & <- & <- & _ & _ & _ & _ &
                      _ & HFeq).
      rewrite Hp in *.
      destruct (Hroot a eq_refl) as [Hal Har].
      specialize (Hmid a nd eq_refl Ha Hk).
      assert (a ∈ F) as HaF by (clear -HFeq; set_solver).
      destruct (pool_Put_live σj (Nj ∪ (N ∪ L)) a Hsj)
        as (σ1' & Hput1' & _ & Hs1'); [clear -HaF HF; set_solver|].
      rewrite Hput1 in Hput1'. inversion Hput1'; subst σ1'.
      assert (F' ⊆ (Nj ∪ (N ∪ L)) ∖ {[a]}) as HF'a.
      { clear -HF' Hsub HF Hal Har HNj HaF. set_solver. }
      destruct m as [am|].
      * assert (am ∈ F ∧ (am ∉ Fl) ∧ (am ∉ Fr)) as (HamF & Haml & Hamr).
        { destruct (Tree.split (as_tree t (Tree.Node (Go.item nd)
                      (Go.priority nd) lt rt)) _ k) as [[Tl [|im qm lm rm]] Tr];
            simpl in Hm; [done|].
          destruct Hm as (am' & ndm & [= <-] & _ & _ & ? & ? & ?). done. }
        destruct (pool_Put_live σ1 _ am Hs1') as (σ2' & Hput2' & _ & Hs2').
        { clear -HamF HF Hmid. set_solver. }
        rewrite Hput2 in Hput2'. inversion Hput2'; subst σ2'.
        exists ((Nj ∪ (N ∪ L)) ∖ {[a]} ∖ {[am]}). split; [done|]. split.
        -- clear -HF'a HF' HamF HF Haml Hamr HNj. set_solver.
        -- clear -HaF HamF. set_solver.
      * destruct (pool_Put_nil σ1 _ Hs1') as (σ2' & Hput2' & _ & Hs2').
        rewrite Hput2 in Hput2'. inversion Hput2'; subst σ2'.
        exists ((Nj ∪ (N ∪ L)) ∖ {[a]}). split; [done|]. split; [done|].
        clear -HaF. set_solver.
Qed.

(** The state of a fresh process is sound. *)
Lemma init_step_sound σ : sound σ ∅ → sound (Go.init_step nil σ) ∅.
Proof.
  intros Hs. unfold Go.init_step, mbind, Go.M_bind, Go.bind.
  destruct (alloc_spec σ ∅ (Go.mkNode nil 0 None None) Hs)
    as (a & σ1 & Halloc & _ & Hs1 & _).
  rewrite Halloc.
  destruct (pool_Put_live σ1 ({[a]} ∪ ∅) a Hs1) as (σ2 & Hput & _ & Hs2);
    [clear; set_solver|].
  rewrite Hput. eapply sound_equal; [|done]. clear. set_solver.
Qed.

Lemma init_sound : sound (Go.init nil) ∅.
Proof.
  unfold Go.init. apply N.iter_invariant; [apply init_step_sound|].
  split; simpl; unfold pool_addrs, entries; simpl.
  - by intros a ?%elem_of_nil.
  - constructor.
  - by intros a ?%elem_of_empty.
  - by intros a ?%elem_of_nil.
Qed.

End Alloc.
End Refine.

(** ** What the operations achieve on a sound store *)

Module Sound.
Import Spec Stored TreeFacts Refine.

Section Operations.
Context {Item : Type} (nil : Item).
Context (t : Go.Treap (Item:=Item)) `{!TotalOrder (Go.compare t)}.
Implicit Types (σ : Go.state (Item:=Item)) (L F : gset Go.addr).
#[local] Abbreviation cmp := (Go.compare t).

(** [split] cuts a stored search tree around the pivot. *)
Lemma split_sound σ L n T F s :
  sound σ L → tree_at (Go.heap σ) n T F → F ⊆ L → bst cmp T →
  ∃ fuel σ' l m r Tl Tr,
    Go.split nil fuel t n s σ = Some ((l, m, r), σ') ∧
    repr (Go.heap σ') l Tl ∧ repr (Go.heap σ') r Tr ∧
    items Tl = filter (λ x, cmp x s < 0) (items T) ∧
    items Tr = filter (λ x, 0 < cmp x s) (items T) ∧
    match m with
    | None => ¬ has cmp (items T) s
    | Some a => ∃ nd, Go.heap σ' !! a = Some nd ∧ a ∈ F ∧
                      cmp s (Go.item nd) = 0
    end.
Proof.
  intros Hs Ht HF Hb.
  destruct (split_refines nil t (as_tree t T) s L (S (Tree.size T)) T eq_refl
              σ n F Hs Ht HF) as
    (σ' & l & m & r & Fl & Fr & N & Hrun & Hl & Hr & Hm & _); [lia|].
  destruct (split_spec (as_tree t T) T s Hb) as (El & Er & Hmid).
  destruct (Tree.split (as_tree t T) T s) as [[Tl Tm] Tr]. simpl in *.
  exists (S (Tree.size T)), σ', l, m, r, Tl, Tr.
  split; [done|]. split; [by eapply tree_at_repr|].
  split; [by eapply tree_at_repr|]. split; [done|]. split; [done|].
  destruct Tm as [|im qm lm rm]; simpl in Hm.
  - by subst m.
  - destruct Hm as (am & nd & -> & Hnd & <- & Hin & _).
    exists nd. by destruct Hmid.
Qed.

(** [union] of two stored treaps that share no node. *)
Lemma union_sound σ L this that T1 T2 F1 F2 :
  sound σ L →
  tree_at (Go.heap σ) this T1 F1 → tree_at (Go.heap σ) that T2 F2 →
  F1 ## F2 → F1 ∪ F2 ⊆ L → treap cmp T1 → treap cmp T2 →
  ∃ fuel σ' p U,
    Go.union nil fuel t this that σ = Some (p, σ') ∧
    repr (Go.heap σ') p U ∧ treap cmp U ∧
    (∀ k, has cmp (items U) k ↔ has cmp (items T1) k ∨ has cmp (items T2) k) ∧
    (∀ x y, x ∈ items U → y ∈ items T2 → cmp x y = 0 → x = y).
Proof.
  intros Hs H1 H2 Hd HL [Hb1 Hh1] [Hb2 Hh2].
  destruct (union_refines nil t (as_tree t T1) eq_refl
              (S (Tree.size T1 + Tree.size T2)) T1 T2 σ L this that F1 F2
              Hs H1 H2 Hd HL) as (σ' & p & F' & L' & Hrun & Hp & _); [lia|].
  exists (S (Tree.size T1 + Tree.size T2)), σ', p,
    (Tree.union (as_tree t T1) T1 T2).
  split; [done|]. split; [by eapply tree_at_repr|].
  destruct (union_spec (as_tree t T1) T1 T2 Hb1 Hb2) as [Hb Hm].
  split; [split; [done|by apply union_heap]|]. split.
  - intros k. unfold has. rewrite !Exists_exists. split.
    + intros (x & [Hx|[Hx _]]%Hm & Hk); eauto.
    + intros [(x & Hx & Hk)|(x & Hx & Hk)].
      * destruct (decide (has cmp (items T2) x)) as [Hh|Hn].
        -- apply Exists_exists in Hh as (y & Hy & Hxy).
           exists y. split; [apply Hm; by left|].
           by apply (cmp_eq_trans _ k x y).
        -- exists x. split; [apply Hm; by right|done].
      * exists x. split; [apply Hm; by left|done].
  - intros x y Hx Hy Hxy.
    apply (bst_unique (as_tree t T1) (Tree.union (as_tree t T1) T1 T2));
      try done.
    apply Hm. by left.
Qed.

(** [Upsert] adds the item, replacing the item with its key, and keeps the
    store sound. *)
Lemma Upsert_sound σ L T F i p :
  sound σ L → tree_at (Go.heap σ) (Go.root t) T F → F ⊆ L → treap cmp T →
  ∃ fuel σ' t2 T2 F2 L2,
    Go.Upsert nil fuel t i p σ = Some (t2, σ') ∧
    Go.compare t2 = cmp ∧
    tree_at (Go.heap σ') (Go.root t2) T2 F2 ∧ treap cmp T2 ∧
    (∀ x, x ∈ items T2 ↔ x = i ∨ (x ∈ items T ∧ cmp x i ≠ 0)) ∧
    sound σ' L2 ∧ F2 ⊆ L2.
Proof.
  intros Hs Ht HF [Hb Hh].
  destruct (Upsert_refines nil t σ L T F i p Hs Ht HF) as
    (σ' & t2 & F' & L' & Hrun & Hc & Ht2 & HFL & Hs' & _).
  exists (S (S (Tree.size T))), σ', t2,
    (Tree.root (Tree.Upsert (as_tree t T) i p)), F', L'.
  split_and!; try done.
  - split; [by apply (Upsert_bst (as_tree t T))|
            by apply (Upsert_heap (as_tree t T))].
  - intros x. by apply (Upsert_elem_of (as_tree t T)).
Qed.

(** [Delete] removes the items with the key and returns a treap; the store
    stays sound when the key is not the one at the root. *)
Lemma Delete_sound σ L T F k :
  sound σ L → tree_at (Go.heap σ) (Go.root t) T F → F ⊆ L → treap cmp T →
  ∃ fuel σ' t2 T2 F2,
    Go.Delete nil fuel t k σ = Some (t2, σ') ∧
    Go.compare t2 = cmp ∧
    tree_at (Go.heap σ') (Go.root t2) T2 F2 ∧ treap cmp T2 ∧
    items T2 = filter (λ x, cmp x k ≠ 0) (items T) ∧
    (match T with
     | Tree.null => True
     | Tree.Node i _ _ _ => cmp k i ≠ 0
     end → ∃ L2, sound σ' L2 ∧ F2 ⊆ L2).
Proof.
  intros Hs Ht HF [Hb Hh].
  destruct (Delete_refines nil t σ L T F k Hs Ht HF) as
    (σ' & t2 & F' & Hrun & Hc & Ht2 & _ & Hsound).
  exists (S (Tree.size T + Tree.size T)), σ', t2,
    (Tree.root (Tree.Delete (as_tree t T) k)), F'.
  split_and!; try done.
  - split; [by apply (Delete_bst (as_tree t T))|
            by apply (Delete_heap (as_tree t T))].
  - by apply (Delete_items (as_tree t T)).
  - intros Hk. destruct (Hsound Hk) as (L' & ? & ? & _). eauto.
Qed.

End Operations.
End Sound.

(** ** The claims *)

Module Claims.
Import Spec Stored TreeFacts ReadOnly Refine Cases.

Section Queries.
Context {Item : Type} (nil : Item).

(** Point queries on a stored treap.  On a version stored as a treap [T], [Min],
    [Max] and [Get] return with a result and with the state they started
    from: no failure, no write, no allocation.  [Min] and [Max] give nil on
    the empty treap and otherwise the least and the greatest item; [Get]
    gives the stored item with the key of [target], and nil when there is
    none. *)
Theorem point_queries (t : Go.Treap (Item:=Item)) (σ : Go.state)
    (T : Tree.node) :
  TotalOrder (Go.compare t) →
  repr (Go.heap σ) (Go.root t) T →
  treap (Go.compare t) T →
  ∃ fuel lo hi,
    Go.Min nil fuel t σ = Some (lo, σ) ∧
    Go.Max nil fuel t σ = Some (hi, σ) ∧
    (T = Tree.null → lo = nil ∧ hi = nil) ∧
    (T ≠ Tree.null →
       lo ∈ items T ∧ hi ∈ items T ∧
       ∀ x, x ∈ items T →
            Go.compare t lo x <= 0 ∧ Go.compare t x hi <= 0) ∧
    ∀ target, ∃ found,
      Go.Get nil fuel t target σ = Some (found, σ) ∧
      (∀ x, x ∈ items T → Go.compare t target x = 0 → found = x) ∧
      (¬ has (Go.compare t) (items T) target → found = nil).
Proof.
  intros Ho Hr [Hb _].
  exists (S (Tree.size T)), (Tree.Min nil (as_tree t T)),
    (Tree.Max nil (as_tree t T)).
  split; [by apply Min_refines|]. split; [by apply Max_refines|].
  split; [by intros ->|]. split.
  - intros Hne.
    destruct (Min_least (as_tree t T) nil Hb Hne) as [? Hlo].
    destruct (Max_greatest (as_tree t T) nil Hb Hne) as [? Hhi].
    split; [done|]. split; [done|]. intros x Hx.
    split; [by apply Hlo|by apply Hhi].
  - intros target. exists (Tree.Get nil (as_tree t T) target).
    split; [by apply Get_refines|]. split.
    + intros x Hx Hk. by apply (get_loop_found (as_tree t T)).
    + intros Hn. by apply (get_loop_absent (as_tree t T)).
Qed.

(** Ascending traversal of a stored treap.  On a version stored as a treap
    [T], with a visitor that keeps to its own state,
    [visitAscend] calls the visitor on the items of [T] that are at or above
    the pivot, in the order of the list [visited], which is strictly
    ascending, and as [visit_list] does: the first [false] ends the
    traversal and no later item is visited.  The store is left as it was. *)
Theorem visit_ascend {V} (t : Go.Treap (Item:=Item)) (σ : Go.state)
    (T : Tree.node) (pivot : Item) (visitor : Item → V → bool * V) (v : V) :
  TotalOrder (Go.compare t) →
  repr (Go.heap σ) (Go.root t) T →
  treap (Go.compare t) T →
  let visited := filter (λ x, Go.compare t pivot x <= 0) (items T) in
  StronglySorted (λ a b, Go.compare t a b < 0) visited ∧
  ∃ fuel,
    Go.visitAscend fuel t (Go.root t) pivot (Go.quiet visitor) v σ =
      Some (visit_list visitor visited v, σ) ∧
    Go.VisitAscend fuel t pivot (Go.quiet visitor) v σ =
      Some ((visit_list visitor visited v).2, σ).
Proof.
  intros Ho Hr [Hb _] visited. split.
  { apply StronglySorted_filter. by apply (bst_sorted (as_tree t T)). }
  exists (S (Tree.size T)).
  assert (Go.visitAscend (S (Tree.size T)) t (Go.root t) pivot
            (Go.quiet visitor) v σ =
          Some (visit_list visitor visited v, σ)) as Hv.
  { rewrite (visitAscend_refines t (as_tree t T) σ _ _ T); [|done|done|lia].
    by rewrite (visitAscend_list (as_tree t T)). }
  split; [done|].
  unfold Go.VisitAscend, mbind, Go.M_bind, Go.bind. rewrite Hv.
  by destruct (visit_list visitor visited v).
Qed.

End Queries.

Section Higher.
Context {Item : Type} (nil : Item) (t : Go.Treap (Item:=Item)).
Import Tree.

(** C5, amended.  On a store whose pool holds unused nodes only, [union] of
    two disjoint stored trees with [this.priority > that.priority] returns a
    node with the priority of [this] whose children store
    [union this.left left] and [union this.right right], where
    [(left, middle, right)] is the split of [that] at [this.item]; the item
    of that node is [this.item] when [middle] is nil, and [middle.item] when
    it is not. *)
Theorem union_higher_priority (σ : Go.state) (L F1 F2 : gset Go.addr)
    (this that : Go.ptr) ia pa la ra ib pb lb rb :
  sound σ L →
  tree_at (Go.heap σ) this (Node ia pa la ra) F1 →
  tree_at (Go.heap σ) that (Node ib pb lb rb) F2 →
  F1 ## F2 → F1 ∪ F2 ⊆ L →
  pb < pa →
  ∃ fuel σ' a nd l middle r,
    split (as_tree t null) (Node ib pb lb rb) ia = (l, middle, r) ∧
    Go.union nil fuel t this that σ = Some (Some a, σ') ∧
    Go.heap σ' !! a = Some nd ∧
    Go.priority nd = pa ∧
    Go.item nd = match middle with null => ia | Node im _ _ _ => im end ∧
    repr (Go.heap σ') (Go.left nd) (union (as_tree t null) la l) ∧
    repr (Go.heap σ') (Go.right nd) (union (as_tree t null) ra r).
Proof.
  intros Hs H1 H2 Hd HL Hp.
  pose (fuel := S (size (Node ia pa la ra) + size (Node ib pb lb rb))).
  destruct (union_refines nil t (as_tree t null) eq_refl fuel
              (Node ia pa la ra) (Node ib pb lb rb) σ L this that F1 F2
              Hs H1 H2 Hd HL) as (σ' & p & F' & L' & Hrun & Hu & _);
    [unfold fuel; lia|].
  rewrite union_nodes in Hu.
  destruct (Z.ltb_spec pb pa) as [_|]; [|lia].
  destruct (split (as_tree t null) (Node ib pb lb rb) ia) as [[l middle] r].
  assert (∃ a nd, p = Some a ∧ Go.heap σ' !! a = Some nd ∧
            Go.priority nd = pa ∧
            Go.item nd =
              match middle with null => ia | Node im _ _ _ => im end ∧
            repr (Go.heap σ') (Go.left nd) (union (as_tree t null) la l) ∧
            repr (Go.heap σ') (Go.right nd) (union (as_tree t null) ra r))
    as (a & nd & -> & Hnd & Hq & Hi & Hl & Hr).
  { destruct middle; simpl in Hu;
      destruct Hu as (a & nd & Fl & Fr & -> & Hnd & Hi & Hq & Hl & Hr & _);
      exists a, nd; split_and!; try done; by eapply tree_at_repr. }
  exists fuel, σ', a, nd, l, middle, r. by split_and!.
Qed.

End Higher.

Section Runs.
Import Tree.

Lemma point_queries_witness :
  let σ := Go.mkState
             (<[2%positive := Go.mkNode (K 3) 4 None None]>
                (<[1%positive := Go.mkNode (K 5) 9 (Some 2%positive) None]> ∅))
             3%positive (Go.mkPool None []) in
  let t := Go.mkTreap kvCompare (Some 1%positive) in
  let T := Node (K 5) 9 (Node (K 3) 4 null null) null in
  TotalOrder (Go.compare t) ∧ repr (Go.heap σ) (Go.root t) T ∧
  treap (Go.compare t) T ∧
  ∃ fuel lo hi,
    Go.Min None fuel t σ = Some (lo, σ) ∧
    Go.Max None fuel t σ = Some (hi, σ) ∧
    (T = Tree.null → lo = None ∧ hi = None) ∧
    (T ≠ Tree.null →
       lo ∈ items T ∧ hi ∈ items T ∧
       ∀ x, x ∈ items T →
            Go.compare t lo x <= 0 ∧ Go.compare t x hi <= 0) ∧
    ∀ target, ∃ found,
      Go.Get None fuel t target σ = Some (found, σ) ∧
      (∀ x, x ∈ items T → Go.compare t target x = 0 → found = x) ∧
      (¬ has (Go.compare t) (items T) target → found = None).
Proof.
  intros σ t T.
  assert (TotalOrder (Go.compare t)) as Ho by exact kvCompare_order.
  assert (repr (Go.heap σ) (Go.root t) T) as Hr.
  { simpl. do 2 eexists. repeat split; try reflexivity.
    simpl. do 2 eexists. repeat split; reflexivity. }
  assert (treap (Go.compare t) T) as Hn.
  { split; simpl; repeat split; repeat constructor; done. }
  split; [exact Ho|]. split; [exact Hr|]. split; [exact Hn|].
  exact (point_queries None t σ T Ho Hr Hn).
Defined.

Lemma visit_ascend_witness :
  let σ := Go.mkState
             (<[2%positive := Go.mkNode (K 3) 4 None None]>
                (<[1%positive := Go.mkNode (K 5) 9 (Some 2%positive) None]> ∅))
             3%positive (Go.mkPool None []) in
  let t := Go.mkTreap kvCompare (Some 1%positive) in
  let T := Node (K 5) 9 (Node (K 3) 4 null null) null in
  let visitor : kv → list kv → bool * list kv :=
    λ x seen, (negb (bool_decide (x = K 5)), seen ++ [x]) in
  TotalOrder (Go.compare t) ∧ repr (Go.heap σ) (Go.root t) T ∧
  treap (Go.compare t) T ∧
  let visited := filter (λ x, Go.compare t (K 4) x <= 0) (items T) in
  StronglySorted (λ a b, Go.compare t a b < 0) visited ∧
  ∃ fuel,
    Go.visitAscend fuel t (Go.root t) (K 4) (Go.quiet visitor) [] σ =
      Some (visit_list visitor visited [], σ) ∧
    Go.VisitAscend fuel t (K 4) (Go.quiet visitor) [] σ =
      Some ((visit_list visitor visited []).2, σ).
Proof.
  intros σ t T visitor.
  assert (TotalOrder (Go.compare t)) as Ho by exact kvCompare_order.
  assert (repr (Go.heap σ) (Go.root t) T) as Hr.
  { simpl. do 2 eexists. repeat split; try reflexivity.
    simpl. do 2 eexists. repeat split; reflexivity. }
  assert (treap (Go.compare t) T) as Hn.
  { split; simpl; repeat split; repeat constructor; done. }
  split; [exact Ho|]. split; [exact Hr|]. split; [exact Hn|].
  exact (visit_ascend t σ T (K 4) visitor [] Ho Hr Hn).
Defined.

Lemma union_higher_priority_witness :
  let σ := Go.mkState
             (<[2%positive := Go.mkNode (Some (1, 20)) 3 None None]>
                (<[1%positive := Go.mkNode (Some (1, 10)) 5 None None]> ∅))
             3%positive (Go.mkPool None []) in
  let F1 : gset Go.addr := {[1%positive]} ∪ ∅ ∪ ∅ in
  let F2 : gset Go.addr := {[2%positive]} ∪ ∅ ∪ ∅ in
  let this := Some 1%positive in
  let that := Some 2%positive in
  sound σ (F1 ∪ F2) ∧
  tree_at (Go.heap σ) this (Node (Some (1, 10)) 5 null null) F1 ∧
  tree_at (Go.heap σ) that (Node (Some (1, 20)) 3 null null) F2 ∧
  F1 ## F2 ∧ F1 ∪ F2 ⊆ F1 ∪ F2 ∧ 3 < 5 ∧
  ∃ fuel σ' a nd l middle r,
    split (as_tree empty null) (Node (Some (1, 20)) 3 null null)
      (Some (1, 10)) = (l, middle, r) ∧
    Go.union None fuel empty this that σ = Some (Some a, σ') ∧
    Go.heap σ' !! a = Some nd ∧
    Go.priority nd = 5 ∧
    Go.item nd =
      match middle with null => Some (1, 10) | Node im _ _ _ => im end ∧
    repr (Go.heap σ') (Go.left nd) (union (as_tree empty null) null l) ∧
    repr (Go.heap σ') (Go.right nd) (union (as_tree empty null) null r).
Proof.
  intros σ F1 F2 this that.
  assert (sound σ (F1 ∪ F2)) as Hs.
  { split; simpl.
    - intros a Ha. inversion Ha.
    - constructor.
    - intros a Ha. unfold F1, F2 in Ha. set_unfold. lia.
    - intros a Ha. inversion Ha. }
  assert (tree_at (Go.heap σ) this (Node (Some (1, 10)) 5 null null) F1) as H1.
  { simpl. exists 1%positive, (Go.mkNode (Some (1, 10)) 5 None None), ∅, ∅.
    split_and!; try done; set_solver. }
  assert (tree_at (Go.heap σ) that (Node (Some (1, 20)) 3 null null) F2) as H2.
  { simpl. exists 2%positive, (Go.mkNode (Some (1, 20)) 3 None None), ∅, ∅.
    split_and!; try done; set_solver. }
  assert (F1 ## F2) as Hd by (unfold F1, F2; set_solver).
  assert (F1 ∪ F2 ⊆ F1 ∪ F2) as HL by done.
  assert (3 < 5) as Hp by lia.
  split_and!; try done.
  exact (union_higher_priority None empty σ (F1 ∪ F2) F1 F2 this that
           (Some (1, 10)) 5 null null (Some (1, 20)) 3 null null
           Hs H1 H2 Hd HL Hp).
Defined.

(** C5 as stated: [this] is (1,10) with priority 5 and [that] is (1,20)
    with priority 3, both fresh from the pool; the node [union] returns has
    the item of [that]. *)
Lemma union_root_item_counterexample :
  ∃ a b c,
    fst <$> same_key_union start = Some (Some a, Some b, Some c) ∧
    Go.priority b < Go.priority a ∧
    Go.priority c = Go.priority a ∧
    Go.item c ≠ Go.item a.
Proof.
  exists (Go.mkNode (Some (1, 10)) 5 None None),
    (Go.mkNode (Some (1, 20)) 3 None None),
    (Go.mkNode (Some (1, 20)) 5 None None).
  split; [vm_compute; reflexivity|]. simpl. split; [lia|done].
Qed.

(** C1.  Persistence fails.  In [overwrite_run] the old version answers
    (1,10) for key 1 before the second [Upsert] and (1,20) after it: both
    versions have the same root node, which [union] put back in the pool and
    [newNode] filled again.  In [recycle_run] the old version loses key 5
    once the version made by [Delete] gets a new key. *)
Theorem old_version_overwritten :
  fst <$> overwrite_run start =
    Some (Some (1, 10), Some (1, 20), Some 1%positive, Some 1%positive) ∧
  fst <$> recycle_run start = Some (K 5, None).
Proof. split; vm_compute; reflexivity. Qed.

(** C2.  The priority of the first insertion is not kept: inserting key 1
    with priority 1 and then again with priority 100 leaves it with priority
    100, in the store and over trees alike. *)
Theorem reupsert_takes_new_priority :
  fst <$> reupsert_run start = Some (Some (Go.mkNode (K 1) 100 None None)) ∧
  root (Upsert (Upsert (NewTreap kvCompare) (K 1) 1) (K 1) 100) =
    Node (K 1) 100 null null.
Proof. split; vm_compute; reflexivity. Qed.

(** No finite tree is stored at a node that is its own right child. *)
Lemma self_right_no_tree {Item} (h : gmap Go.addr (Go.node (Item:=Item))) a nd :
  h !! a = Some nd → Go.right nd = Some a → ∀ T, ¬ repr h (Some a) T.
Proof.
  intros Ha Hr T. induction T as [|i q l _ r IHr]; simpl.
  - done.
  - intros (a' & nd' & Heq & Ha' & _ & _ & _ & Hrr).
    inversion Heq; subst a'. rewrite Ha in Ha'. inversion Ha'; subst nd'.
    rewrite Hr in Hrr. done.
Qed.

(** A search that has to go right at such a node stays there: it returns
    with no amount of fuel. *)
Lemma spin_right {Item} (nil : Item) (t : Go.Treap (Item:=Item)) σ a nd target :
  Go.heap σ !! a = Some nd → Go.right nd = Some a →
  0 < Go.compare t target (Go.item nd) →
  ∀ fuel, Go.get_loop nil fuel t (Some a) target σ = None.
Proof.
  intros Ha Hr Hc fuel. induction fuel as [|fuel IH]; [done|].
  cbn [Go.get_loop]. unfold mbind, Go.M_bind, Go.bind, Go.load. rewrite Ha.
  destruct (Z.ltb_spec (Go.compare t target (Go.item nd)) 0); [lia|].
  destruct (Z.ltb_spec 0 (Go.compare t target (Go.item nd))); [|lia].
  by rewrite Hr.
Qed.

(** One step of the search towards the left child. *)
Lemma step_left {Item} (nil : Item) (t : Go.Treap (Item:=Item)) σ a nd target :
  Go.heap σ !! a = Some nd →
  Go.compare t target (Go.item nd) < 0 →
  ∀ fuel, Go.get_loop nil (S fuel) t (Some a) target σ =
          Go.get_loop nil fuel t (Go.left nd) target σ.
Proof.
  intros Ha Hc fuel.
  cbn [Go.get_loop]. unfold mbind, Go.M_bind, Go.bind, Go.load. rewrite Ha.
  by destruct (Z.ltb_spec (Go.compare t target (Go.item nd)) 0); [|lia].
Qed.

Lemma seven_eight_treap : treap kvCompare seven_eight.
Proof. split; simpl; repeat split; repeat constructor; done. Qed.

(** Where [seven_eight] is stored. *)
Lemma stored_seven_eight (h : gmap Go.addr (Go.node (Item:=kv))) a b :
  h !! a = Some (Go.mkNode (K 7) 5 None (Some b)) →
  h !! b = Some (Go.mkNode (K 8) 1 None None) →
  repr h (Some a) seven_eight.
Proof.
  intros Ha Hb. simpl. eexists _, _. split_and!; try done.
  simpl. eexists _, _. by split_and!.
Qed.

(** The states reached by [chain] and by the split of its version at 9. *)
Lemma chain_split_result :
  ∃ σ σ',
    chain start = Some (Go.mkTreap kvCompare (Some 9994%positive), σ) ∧
    Go.heap σ !! 9994%positive =
      Some (Go.mkNode (K 7) 5 None (Some 9995%positive)) ∧
    Go.heap σ !! 9995%positive = Some (Go.mkNode (K 8) 1 None None) ∧
    Go.split None 8 (Go.mkTreap kvCompare (Some 9994%positive))
      (Some 9994%positive) (K 9) σ =
      Some ((Some 9993%positive, None, None), σ') ∧
    Go.heap σ' !! 9993%positive =
      Some (Go.mkNode (K 7) 5 None (Some 9993%positive)).
Proof.
  pose (next := λ v : Go.Treap (Item:=kv), Go.split None 8 v (Go.root v) (K 9)).
  assert ((λ x, (x.1, Go.heap x.2 !! 9994%positive,
                 Go.heap x.2 !! 9995%positive,
                 (λ y, (y.1, Go.heap y.2 !! 9993%positive)) <$> next x.1 x.2))
            <$> chain start =
          Some (Go.mkTreap kvCompare (Some 9994%positive),
                Some (Go.mkNode (K 7) 5 None (Some 9995%positive)),
                Some (Go.mkNode (K 8) 1 None None),
                Some ((Some 9993%positive, None, None),
                      Some (Go.mkNode (K 7) 5 None (Some 9993%positive)))))
    as H by (vm_compute; reflexivity).
  assert (∀ v, next v = Go.split None 8 v (Go.root v) (K 9)) as Hnext by done.
  clearbody next.
  destruct (chain start) as [[v σ]|]; [|discriminate H].
  cbn [fmap option_fmap option_map fst snd] in H.
  injection H as -> H1 H2 H3. rewrite Hnext in H3.
  destruct (Go.split None 8 _ _ _ σ) as [[r σ']|] eqn:Hsplit;
    [|discriminate H3].
  cbn [fmap option_fmap option_map fst snd] in H3.
  injection H3 as -> H3. exists σ, σ'. by split_and!.
Qed.

(** The states reached by [union_inputs] and by the union of its results. *)
Lemma union_inputs_result :
  ∃ σ σ',
    union_inputs start =
      Some ((Go.mkTreap kvCompare (Some 9991%positive), Some 9993%positive),
            σ) ∧
    Go.heap σ !! 9991%positive =
      Some (Go.mkNode (K 7) 5 None (Some 9992%positive)) ∧
    Go.heap σ !! 9992%positive = Some (Go.mkNode (K 8) 1 None None) ∧
    Go.heap σ !! 9993%positive = Some (Go.mkNode (K 9) 100 None None) ∧
    Go.union None 8 (Go.mkTreap kvCompare (Some 9991%positive))
      (Some 9991%positive) (Some 9993%positive) σ =
      Some (Some 10001%positive, σ') ∧
    Go.heap σ' !! 10001%positive =
      Some (Go.mkNode (K 9) 100 (Some 9990%positive) None) ∧
    Go.heap σ' !! 9990%positive =
      Some (Go.mkNode (K 7) 5 None (Some 9990%positive)).
Proof.
  pose (next := λ (v : Go.Treap (Item:=kv)) that,
            Go.union None 8 v (Go.root v) that).
  assert ((λ x, (x.1, Go.heap x.2 !! 9991%positive,
                 Go.heap x.2 !! 9992%positive, Go.heap x.2 !! 9993%positive,
                 (λ y, (y.1, Go.heap y.2 !! 10001%positive,
                        Go.heap y.2 !! 9990%positive)) <$>
                   next x.1.1 x.1.2 x.2))
            <$> union_inputs start =
          Some ((Go.mkTreap kvCompare (Some 9991%positive),
                 Some 9993%positive),
                Some (Go.mkNode (K 7) 5 None (Some 9992%positive)),
                Some (Go.mkNode (K 8) 1 None None),
                Some (Go.mkNode (K 9) 100 None None),
                Some (Some 10001%positive,
                      Some (Go.mkNode (K 9) 100 (Some 9990%positive) None),
                      Some (Go.mkNode (K 7) 5 None (Some 9990%positive)))))
    as H by (vm_compute; reflexivity).
  assert (∀ v that, next v that = Go.union None 8 v (Go.root v) that)
    as Hnext by done.
  clearbody next.
  destruct (union_inputs start) as [[[v that] σ]|]; [|discriminate H].
  cbn [fmap option_fmap option_map fst snd] in H.
  injection H as -> -> H1 H2 H3 H4. rewrite Hnext in H4.
  destruct (Go.union None 8 _ _ _ σ) as [[r σ']|] eqn:Hunion;
    [|discriminate H4].
  cbn [fmap option_fmap option_map fst snd] in H4.
  injection H4 as -> H4 H5. exists σ, σ'. by split_and!.
Qed.

(** The state reached by [chain_delete]. *)
Lemma chain_delete_result :
  ∃ σ, chain_delete start = Some (Go.mkTreap kvCompare (Some 9993%positive), σ) ∧
       Go.heap σ !! 9993%positive =
         Some (Go.mkNode (K 7) 5 None (Some 9993%positive)).
Proof.
  assert ((λ x, (x.1, Go.heap x.2 !! 9993%positive)) <$> chain_delete start =
          Some (Go.mkTreap kvCompare (Some 9993%positive),
                Some (Go.mkNode (K 7) 5 None (Some 9993%positive)))) as H
    by (vm_compute; reflexivity).
  destruct (chain_delete start) as [[v σ]|]; [|discriminate H].
  simpl in H. inversion H. subst. by exists σ.
Qed.

(** C3.  A version outside the invariants.  After [chain_delete] the root
    of the version returned is its own right child, so its right subtree
    holds an item that is not greater than its own, and no finite tree is
    stored there.  *)
Theorem recycled_version_not_ordered :
  ∃ v5 σ a,
    chain_delete start = Some (v5, σ) ∧
    Go.root v5 = Some a ∧
    Go.heap σ !! a = Some (Go.mkNode (K 7) 5 None (Some a)) ∧
    ¬ (0 < kvCompare (K 7) (K 7)) ∧
    ∀ T, ¬ repr (Go.heap σ) (Go.root v5) T.
Proof.
  destruct chain_delete_result as (σ & Hrun & Hnode).
  exists (Go.mkTreap kvCompare (Some 9993%positive)), σ, 9993%positive.
  split; [done|]. split; [done|]. split; [done|]. split; [by vm_compute|].
  by apply (self_right_no_tree _ _ _ Hnode).
Qed.

(** C4.  [union] of two treaps loses a key.  After [union_inputs] the
    version [v5] stores the treap [seven_eight] and [that] is a node of its
    own with key 9.  Their union has 9 at the root; its left child is a node
    with key 7 that is its own right child.  So the result is no tree, and a
    search for 8, a key of [this], does not end. *)
Theorem union_loses_key :
  ∃ v5 that σ p σ',
    union_inputs start = Some ((v5, that), σ) ∧
    repr (Go.heap σ) (Go.root v5) seven_eight ∧
    repr (Go.heap σ) that (Node (K 9) 100 null null) ∧
    treap (Go.compare v5) seven_eight ∧
    treap (Go.compare v5) (Node (K 9) 100 null null) ∧
    Go.union None 8 v5 (Go.root v5) that σ = Some (p, σ') ∧
    (∀ U, ¬ repr (Go.heap σ') p U) ∧
    ∀ fuel, Go.get_loop None fuel v5 p (K 8) σ' = None.
Proof.
  destruct union_inputs_result as
    (σ & σ' & Hrun & H1 & H2 & H3 & Hu & H4 & H5).
  exists (Go.mkTreap kvCompare (Some 9991%positive)), (Some 9993%positive),
    σ, (Some 10001%positive), σ'.
  split; [exact Hrun|].
  split; [exact (stored_seven_eight _ _ _ H1 H2)|].
  split; [simpl; eexists _, _; split_and!; [done|exact H3|done..]|].
  split; [exact seven_eight_treap|].
  split; [split; simpl; repeat split; repeat constructor; done|].
  split; [exact Hu|]. split.
  - intros [|i q l r]; cbn [repr]; [done|].
    intros (a & nd & Heq & Ha & _ & _ & Hl & _).
    injection Heq as <-.
    pose proof (eq_trans (eq_sym Ha) H4) as Hnd. injection Hnd as ->.
    by apply (self_right_no_tree _ _ _ H5) in Hl.
  - intros [|fuel]; [done|].
    etrans; [exact (step_left None (Go.mkTreap kvCompare _) σ' _ _ (K 8)
                      H4 eq_refl fuel)|].
    exact (spin_right None (Go.mkTreap kvCompare _) _ _ _ (K 8)
             H5 eq_refl eq_refl fuel).
Qed.

(** C6.  [split] of a treap returns a left part that is no tree.  The
    version made by [chain] stores the treap [seven_eight]; its split at the
    pivot 9, above both items, returns as left part a node that is its own
    right child: no tree is stored there, and a search for 8 in it does not
    end. *)
Theorem split_left_part_cyclic :
  ∃ v4 σ l σ',
    chain start = Some (v4, σ) ∧
    repr (Go.heap σ) (Go.root v4) seven_eight ∧
    treap (Go.compare v4) seven_eight ∧
    Go.split None 8 v4 (Go.root v4) (K 9) σ = Some ((l, None, None), σ') ∧
    (∀ T, ¬ repr (Go.heap σ') l T) ∧
    ∀ fuel, Go.get_loop None fuel v4 l (K 8) σ' = None.
Proof.
  destruct chain_split_result as (σ & σ' & Hrun & H1 & H2 & Hsplit & H3).
  exists (Go.mkTreap kvCompare (Some 9994%positive)), σ,
    (Some 9993%positive), σ'.
  split; [exact Hrun|].
  split; [exact (stored_seven_eight _ _ _ H1 H2)|].
  split; [exact seven_eight_treap|].
  split; [exact Hsplit|].
  split; [by apply (self_right_no_tree _ _ _ H3)|].
  exact (spin_right None (Go.mkTreap kvCompare _) _ _ _ (K 8)
           H3 eq_refl eq_refl).
Qed.

(** C7.  [Delete] of an absent key drops a key.  Before the call the
    version holds key 8 and not key 9; in the version returned by
    [Delete 9], [Get 8] finds nothing however long it runs. *)
Theorem delete_absent_key_loses_key :
  fst <$> chain_before start = Some (K 8, None) ∧
  ∃ v5 σ,
    chain_delete start = Some (v5, σ) ∧
    ∀ fuel, Go.Get None fuel v5 (K 8) σ = None.
Proof.
  split; [vm_compute; reflexivity|].
  destruct chain_delete_result as (σ & Hrun & Hnode).
  exists (Go.mkTreap kvCompare (Some 9993%positive)), σ.
  split; [done|]. intros fuel. unfold Go.Get.
  by apply (spin_right _ _ _ _ _ _ Hnode).
Qed.

(** C9.  The round trip drops a key.  The version [v3] of
    [roundtrip_run] holds key 1 and not key 2; after [Upsert 2] and
    [Delete 2] the version returned no longer holds key 1. *)
Theorem roundtrip_loses_key :
  fst <$> roundtrip_run start = Some (K 1, None, None).
Proof. vm_compute; reflexivity. Qed.

(** At a node that is its own right child, the walk to the greatest item
    does not end. *)
Lemma max_spin {Item} (nil : Item) (t : Go.Treap (Item:=Item)) σ a nd :
  Go.root t = Some a →
  Go.heap σ !! a = Some nd → Go.right nd = Some a →
  ∀ fuel, Go.Max nil fuel t σ = None.
Proof.
  intros Ht Ha Hr fuel. unfold Go.Max. rewrite Ht.
  unfold mbind, Go.M_bind, Go.bind, Go.load. rewrite Ha.
  induction fuel as [|fuel IH]; [done|].
  cbn [Go.max_loop]. rewrite Hr.
  unfold mbind, Go.M_bind, Go.bind, Go.load. by rewrite Ha.
Qed.

(** Nor does a traversal that has to go right there; it never gets to call
    the visitor. *)
Lemma visit_spin {Item V} (t : Go.Treap (Item:=Item)) σ a nd pivot
    (visitor : Go.ItemVisitor V) v :
  Go.root t = Some a →
  Go.heap σ !! a = Some nd → Go.right nd = Some a →
  0 < Go.compare t pivot (Go.item nd) →
  ∀ fuel, Go.VisitAscend fuel t pivot visitor v σ = None.
Proof.
  intros Ht Ha Hr Hc fuel.
  assert (Go.visitAscend fuel t (Some a) pivot visitor v σ = None) as Hv.
  { induction fuel as [|fuel IH]; [done|].
    cbn [Go.visitAscend]. unfold mbind, Go.M_bind, Go.bind, Go.load.
    rewrite Ha.
    destruct (Z.leb_spec (Go.compare t pivot (Go.item nd)) 0); [lia|].
    by rewrite Hr. }
  unfold Go.VisitAscend, mbind, Go.M_bind, Go.bind. by rewrite Ht, Hv.
Qed.

(** C10.  Queries that do not return.  The version returned by
    [chain_delete] has a root that is its own right child.  On it [Max] and
    [Get] of 8 run forever: they return with no amount of fuel.  On the
    version before that last [Delete], [Max] and [Get] of 8 both answer
    8. *)
Theorem queries_never_return :
  fst <$> chain_max start = Some (K 8) ∧
  fst <$> chain_before start = Some (K 8, None) ∧
  ∃ v5 σ,
    chain_delete start = Some (v5, σ) ∧
    (∀ fuel, Go.Max None fuel v5 σ = None) ∧
    (∀ fuel, Go.Get None fuel v5 (K 8) σ = None).
Proof.
  split; [vm_compute; reflexivity|]. split; [vm_compute; reflexivity|].
  destruct chain_delete_result as (σ & Hrun & Hnode).
  exists (Go.mkTreap kvCompare (Some 9993%positive)), σ.
  split; [exact Hrun|]. split.
  - exact (max_spin None (Go.mkTreap kvCompare _) σ _ _ eq_refl Hnode
             eq_refl).
  - intros fuel. unfold Go.Get.
    exact (spin_right None (Go.mkTreap kvCompare _) _ _ _ (K 8)
             Hnode eq_refl eq_refl fuel).
Qed.

(** C8.  Traversals that do not end, or repeat an item.  On the version
    returned by [chain_delete], [VisitAscend] from 8 upwards returns with
    no amount of fuel, whatever the visitor, and never calls it.  In
    [meddled_visit] the treap holds (1,0) and (2,0); a visitor that upserts
    (2,99) into that treap while it is traversed is called on (1,0), on
    (1,0) again and on (2,99). *)
Theorem traversal_spins_or_repeats :
  (∃ v5 σ,
     chain_delete start = Some (v5, σ) ∧
     ∀ V (visitor : Go.ItemVisitor V) (v : V) fuel,
       Go.VisitAscend fuel v5 (K 8) visitor v σ = None) ∧
  fst <$> meddled_visit start =
    Some ([K 1; K 2], [K 1; K 1; Some (2, 99)]).
Proof.
  split; [|vm_compute; reflexivity].
  destruct chain_delete_result as (σ & Hrun & Hnode).
  exists (Go.mkTreap kvCompare (Some 9993%positive)), σ.
  split; [exact Hrun|]. intros V visitor v fuel.
  exact (visit_spin (Go.mkTreap kvCompare _) σ _ _ (K 8) visitor v
           eq_refl Hnode eq_refl eq_refl fuel).
Qed.

End Runs.
End Claims.

(** ** More on the algorithms over trees *)

Module TreeMore.
Import Tree Spec Stored TreeFacts Usage.

Section More.
Context {Item : Type} (t : Treap (Item:=Item)) `{!TotalOrder (compare t)}.
#[local] Abbreviation cmp := (compare t).
#[local] Abbreviation lt := (λ a b : Item, compare t a b < 0).

Lemma union_null_r (n : node (Item:=Item)) : union t n null = n.
Proof. destruct n; by simp union. Qed.

Lemma size_items (n : node (Item:=Item)) : size n = length (items n).
Proof.
  induction n as [|i p l IHl r IHr]; simpl; [done|].
  rewrite length_app. simpl. lia.
Qed.

Lemma strict_sorted_NoDup (l : list Item) : StronglySorted lt l → NoDup l.
Proof.
  induction 1 as [|x l Hs IH Hx]; constructor; [|done].
  intros Hin. rewrite Forall_forall in Hx. specialize (Hx x Hin).
  simpl in Hx. rewrite (cmp_refl cmp) in Hx. lia.
Qed.

(** Two sorted lists with the same items are the same list. *)
Lemma sorted_ext (l1 l2 : list Item) :
  StronglySorted lt l1 → StronglySorted lt l2 →
  (∀ x, x ∈ l1 ↔ x ∈ l2) → l1 = l2.
Proof.
  intros H1. revert l2.
  induction H1 as [|a l1 Hs1 IH Ha]; intros l2 H2 Hm.
  - destruct l2 as [|b l2]; [done|].
    exfalso. apply (not_elem_of_nil b), Hm. by left.
  - destruct H2 as [|b l2 Hs2 Hb].
    { exfalso. apply (not_elem_of_nil a), Hm. by left. }
    rewrite Forall_forall in Ha, Hb.
    assert (a = b) as <-.
    { assert (a ∈ b :: l2) as [->|Hab]%elem_of_cons by (apply Hm; by left);
        [done|].
      assert (b ∈ a :: l1) as [->|Hba]%elem_of_cons by (apply Hm; by left);
        [done|].
      pose proof (Ha _ Hba) as Hlt1. pose proof (Hb _ Hab) as Hlt2.
      simpl in *.
      pose proof (cmp_lt_trans cmp _ _ _ Hlt1 Hlt2) as Hc.
      rewrite (cmp_refl cmp) in Hc. lia. }
    f_equal. apply IH; [done|]. intros x. split; intros Hx.
    + assert (x ∈ a :: l2) as [->|?]%elem_of_cons
        by (apply Hm; by right); [|done].
      pose proof (Ha _ Hx) as Hc. simpl in Hc.
      rewrite (cmp_refl cmp) in Hc. lia.
    + assert (x ∈ a :: l1) as [->|?]%elem_of_cons
        by (apply Hm; by right); [|done].
      pose proof (Hb _ Hx) as Hc. simpl in Hc.
      rewrite (cmp_refl cmp) in Hc. lia.
Qed.

(** [Upsert] adds at most one node. *)
Lemma Upsert_size i p :
  bst cmp (root t) → (size (root (Upsert t i p)) <= S (size (root t)))%nat.
Proof.
  intros Hb. rewrite !size_items.
  change (S (length (items (root t)))) with (length (i :: items (root t))).
  apply submseteq_length, NoDup_submseteq.
  - apply strict_sorted_NoDup. apply (bst_sorted t). by apply (Upsert_bst t).
  - intros x Hx.
    apply (Upsert_elem_of t i p x Hb) in Hx as [->|[Hx _]]; [by left|by right].
Qed.

(** A new node with a priority that is not below the one of the root goes
    on top, above the two parts of the split at its item. *)
Lemma union_single_top (n : node (Item:=Item)) i p :
  prio_le n p →
  union t n (Node i p null null) =
    Node i p (split t n i).1.1 (split t n i).2.
Proof.
  destruct n as [|ia pa la ra]; [by simp union|]. intros Hp. simpl in Hp.
  rewrite union_nodes.
  destruct (Z.ltb_spec p pa) as [|_]; [lia|].
  destruct (split t (Node ia pa la ra) i) as [[l m] r]. simpl.
  by rewrite !union_null_r.
Qed.

(** No node of a heap-ordered tree has a priority above the root's. *)
Lemma priority_of_le (n : node (Item:=Item)) k q b :
  heap_ordered n → prio_le n b → priority_of cmp n k = Some q → q <= b.
Proof.
  revert b. induction n as [|i p l IHl r IHr]; intros b Hh Hb; [done|].
  destruct Hh as (Hhl & Hhr & Hpl & Hpr). simpl in Hb. simpl.
  destruct (cmp k i <? 0).
  { intros Hq. pose proof (IHl p Hhl Hpl Hq). lia. }
  destruct (0 <? cmp k i).
  { intros Hq. pose proof (IHr p Hhr Hpr Hq). lia. }
  intros [= <-]. done.
Qed.

(** The priority a key has after [Upsert]: the new one, or the one it had
    when that was greater. *)
Lemma union_single_priority (n : node (Item:=Item)) i p :
  heap_ordered n →
  priority_of cmp (union t n (Node i p null null)) i =
    Some (match priority_of cmp n i with
          | Some q => q `max` p
          | None => p
          end).
Proof.
  induction n as [|ia pa la IHl ra IHr]; intros Hh.
  - simp union. simpl. rewrite (cmp_refl cmp). done.
  - destruct (Z.ltb_spec p pa) as [Hlt|Hge].
    + rewrite union_nodes. destruct (Z.ltb_spec p pa) as [_|]; [|lia].
      destruct Hh as (Hhl & Hhr & _ & _).
      cbn [split]. 
      destruct (Z.eqb_spec (cmp ia i) 0) as [He|Hne].
      * unfold newNode. rewrite !union_null_r. simpl.
        rewrite (cmp_refl cmp). simpl.
        rewrite (cmp_eq_sym cmp _ _ He). simpl. f_equal. lia.
      * destruct (Z.ltb_spec (cmp ia i) 0) as [Hc|Hc].
        -- cbn. unfold newNode. rewrite union_null_r.
           assert (0 < cmp i ia) as Hc' by by apply (cmp_flip ia i).
           destruct (Z.ltb_spec (cmp i ia) 0); [lia|].
           destruct (Z.ltb_spec 0 (cmp i ia)); [|lia].
           by apply IHr.
        -- cbn. unfold newNode. rewrite union_null_r.
           assert (cmp i ia < 0) as Hc'.
           { apply (cmp_flip i ia). lia. }
           destruct (Z.ltb_spec (cmp i ia) 0); [|lia].
           by apply IHl.
    + rewrite union_single_top by (simpl; lia).
      remember (priority_of cmp (Node ia pa la ra) i) as old eqn:Hq.
      cbn [priority_of]. rewrite (cmp_refl cmp). simpl.
      destruct old as [q|]; [|done]. symmetry in Hq.
      pose proof (priority_of_le (Node ia pa la ra) i q pa Hh) as Hle.
      simpl in Hle. specialize (Hle ltac:(lia) Hq). f_equal. lia.
Qed.

End More.
End TreeMore.

(** ** Unions that give nothing to the pool *)

Module Keeps.
Import Spec Stored TreeFacts Refine.

Section Keeps.
Context {Item : Type} (nil : Item).
Context (t : Go.Treap (Item:=Item)) `{!TotalOrder (Go.compare t)}.
Implicit Types (σ : Go.state (Item:=Item)) (L F : gset Go.addr).
#[local] Abbreviation cmp := (Go.compare t).
#[local] Abbreviation t' := (as_tree t Tree.null).

#[local] Abbreviation union_keeps := (Stored.union_keeps nil t).

(** The two recursive calls and the new root. *)
Lemma union_children_keeps fuel i q A B C D σ L pA pB pC pD FA FB FC FD :
  union_keeps fuel →
  sound σ L →
  tree_at (Go.heap σ) pA A FA → tree_at (Go.heap σ) pB B FB →
  tree_at (Go.heap σ) pC C FC → tree_at (Go.heap σ) pD D FD →
  FA ## FB → FA ## FC → FA ## FD → FB ## FC → FB ## FD → FC ## FD →
  FA ∪ FB ∪ FC ∪ FD ⊆ L →
  bst cmp A → bst cmp B → bst cmp C → bst cmp D →
  (∀ x y, x ∈ items A → y ∈ items B → cmp x y ≠ 0) →
  (∀ x y, x ∈ items C → y ∈ items D → cmp x y ≠ 0) →
  (Tree.size A + Tree.size B < fuel)%nat →
  (Tree.size C + Tree.size D < fuel)%nat →
  ∃ σ' p F' N,
    (x ← Go.union nil fuel t pA pB;
     y ← Go.union nil fuel t pC pD;
     Go.newNode nil i q x y) σ = Some (p, σ') ∧
    tree_at (Go.heap σ') p
      (Tree.Node i q (Tree.union t' A B) (Tree.union t' C D)) F' ∧
    F' ⊆ N ∪ (FA ∪ FB ∪ FC ∪ FD) ∧ N ## L ∧ sound σ' (N ∪ L) ∧
    (∀ a, a ∈ L → Go.heap σ' !! a = Go.heap σ !! a).
Proof.
  intros IH Hs HA HB HC HD dAB dAC dAD dBC dBD dCD HL bA bB bC bD kAB kCD
    Hf1 Hf2.
  destruct (IH A B σ L pA pB FA FB Hs HA HB) as
    (σ1 & x & FX & N1 & Hrun1 & HX & HXs & HN1 & Hs1 & Hfr1);
    [done|clear -HL; set_solver|done|done|done|done|].
  assert (FC ∪ FD ⊆ L) as HCDL by (clear -HL; set_solver).
  assert (tree_at (Go.heap σ1) pC C FC) as HC1.
  { eapply tree_at_frame; [exact HC|]. intros a Ha. apply Hfr1.
    clear -Ha HCDL. set_solver. }
  assert (tree_at (Go.heap σ1) pD D FD) as HD1.
  { eapply tree_at_frame; [exact HD|]. intros a Ha. apply Hfr1.
    clear -Ha HCDL. set_solver. }
  destruct (IH C D σ1 (N1 ∪ L) pC pD FC FD Hs1 HC1 HD1) as
    (σ2 & y & FY & N2 & Hrun2 & HY & HYs & HN2 & Hs2 & Hfr2);
    [done|clear -HCDL; set_solver|done|done|done|done|].
  destruct (newNode_spec nil σ2 (N2 ∪ (N1 ∪ L)) i q x y Hs2)
    as (a & σ3 & Hnew & Ha & Hs3 & Hh3).
  unfold mbind, Go.M_bind, Go.bind. rewrite Hrun1, Hrun2, Hnew.
  assert (FX ⊆ N1 ∪ L) as HXL by (clear -HXs HL; set_solver).
  assert (FY ⊆ N2 ∪ (N1 ∪ L)) as HYL by (clear -HYs HCDL; set_solver).
  assert (FX ## FY) as HXY.
  { clear -HXs HYs HN1 HN2 HL dAC dAD dBC dBD. set_solver. }
  exists σ3, (Some a), ({[a]} ∪ FX ∪ FY), ({[a]} ∪ N2 ∪ N1).
  split; [done|]. split_and!.
  - exists a, (Go.mkNode i q x y), FX, FY. simpl.
    split; [done|]. split; [by rewrite Hh3, lookup_insert_eq|].
    split; [done|]. split; [done|]. split; [|split].
    + eapply tree_at_frame; [exact HX|]. intros b Hb.
      rewrite Hh3, lookup_insert_ne by (clear -Hb HXL Ha; set_solver).
      apply Hfr2. by apply HXL.
    + eapply tree_at_frame; [exact HY|]. intros b Hb.
      rewrite Hh3, lookup_insert_ne by (clear -Hb HYL Ha; set_solver). done.
    + split_and!; [clear -Ha HXL; set_solver|clear -Ha HYL; set_solver
                  |done|done].
  - clear -HXs HYs. set_solver.
  - clear -Ha HN1 HN2. set_solver.
  - eapply sound_equal; [|exact Hs3]. clear. set_solver.
  - intros b Hb.
    rewrite Hh3, lookup_insert_ne by (clear -Hb Ha; set_solver).
    rewrite Hfr2 by (clear -Hb; set_solver). by apply Hfr1.
Qed.

(** The parts of a split have items of the tree that was split. *)
Lemma split_items_sub (T : Tree.node (Item:=Item)) s x :
  bst cmp T →
  (x ∈ items (Tree.split t' T s).1.1 → x ∈ items T) ∧
  (x ∈ items (Tree.split t' T s).2 → x ∈ items T).
Proof.
  intros Hb. destruct (split_spec t' T s Hb) as (El & Er & _).
  rewrite El, Er. split; by intros [_ ?]%list_elem_of_filter.
Qed.

Lemma union_keeps_all fuel : union_keeps fuel.
Proof.
  induction fuel as [|fuel IH];
    intros T1 T2 σ L this that F1 F2 Hs H1 H2 Hd HL Hb1 Hb2 Hk Hf; [lia|].
  destruct T1 as [|ia pa la ra].
  { destruct H1 as [-> ->]. exists σ, that, F2, ∅.
    simp union. simpl.
    split_and!; [done|done|clear; set_solver|clear; set_solver| |done].
    eapply sound_equal; [|exact Hs]. clear. set_solver. }
  destruct T2 as [|ib pb lb rb].
  { destruct H2 as [-> ->]. pose proof H1 as H1'.
    destruct H1 as (a & nd & ? & ? & -> & _).
    exists σ, (Some a), F1, ∅.
    simp union. simpl.
    split_and!; [done|done|clear; set_solver|clear; set_solver| |done].
    eapply sound_equal; [|exact Hs]. clear. set_solver. }
  pose proof H1 as H1'. pose proof H2 as H2'.
  destruct H1 as (a & nda & Fla & Fra & -> & Ha & <- & <- & Hla & Hra &
                  Hala & Hara & Hda & HF1).
  destruct H2 as (b & ndb & Flb & Frb & -> & Hb & <- & <- & Hlb & Hrb &
                  Hblb & Hbrb & Hdb & HF2).
  assert (F1 ⊆ L ∧ F2 ⊆ L) as [H1L H2L] by (clear -HL; set_solver).
  assert (Fla ⊆ F1 ∧ Fra ⊆ F1 ∧ Flb ⊆ F2 ∧ Frb ⊆ F2)
    as (Hla1 & Hra1 & Hlb2 & Hrb2) by (clear -HF1 HF2; set_solver).
  pose proof Hb1 as (Hbla & Hbra & _ & _).
  pose proof Hb2 as (Hblb' & Hbrb' & _ & _).
  rewrite union_nodes. simpl in Hf. cbn [Go.union].
  unfold mbind, Go.M_bind, Go.bind, Go.load. rewrite Ha, Hb.
  destruct (Go.priority ndb <? Go.priority nda).
  - destruct (split_refines nil t t' (Go.item nda) L fuel _ eq_refl σ (Some b)
                F2 Hs H2') as
      (σs & l & m & r & Fl & Fr & N & Hrun & Hl & Hr & Hm & Hdlr & Hsub &
       HN & Hss & Hfrs & _ & _); [done|simpl; lia|].
    rewrite Hrun.
    pose proof (Tree.split_size t' (Tree.Node (Go.item ndb) (Go.priority ndb)
                                      lb rb) (Go.item nda)) as [Hsz1 Hsz2].
    destruct (split_spec t' _ (Go.item nda) Hb2) as (_ & _ & Hmid).
    destruct (split_bst t' _ (Go.item nda) Hb2) as [Hbl Hbr].
    pose proof (λ x, split_items_sub _ (Go.item nda) x Hb2) as Hsubi.
    destruct (Tree.split t' _ (Go.item nda)) as [[Tl Tm] Tr].
    cbn [fst snd] in Hl, Hr, Hm, Hsz1, Hsz2, Hmid, Hbl, Hbr, Hsubi.
    destruct Tm as [|im qm lm rm].
    2:{ exfalso. destruct Hmid as [Hnode Hkey].
        apply node_of_items in Hnode.
        apply (Hk (Go.item nda) im); [simpl; set_solver|done|done]. }
    simpl in Hm. subst m.
    assert (tree_at (Go.heap σs) (Go.left nda) la Fla) as Hla'.
    { eapply tree_at_frame; [exact Hla|]. intros x Hx. apply Hfrs.
      clear -Hx Hla1 H1L. set_solver. }
    assert (tree_at (Go.heap σs) (Go.right nda) ra Fra) as Hra'.
    { eapply tree_at_frame; [exact Hra|]. intros x Hx. apply Hfrs.
      clear -Hx Hra1 H1L. set_solver. }
    assert (Fl ⊆ N ∪ F2 ∧ Fr ⊆ N ∪ F2) as [HlN HrN]
      by (clear -Hsub; set_solver).
    destruct (union_children_keeps fuel (Go.item nda) (Go.priority nda)
                la Tl ra Tr σs (N ∪ L) _ _ _ _ Fla Fl Fra Fr IH Hss
                Hla' Hl Hra' Hr) as
      (σ' & p & F' & N' & Hrun' & Hp & HF' & HN' & Hs' & Hfr); try done.
    { clear -HlN HN Hla1 H1L Hd. set_solver. }
    { clear -HrN HN Hla1 H1L Hd. set_solver. }
    { clear -HlN HN Hra1 H1L Hd. set_solver. }
    { clear -HrN HN Hra1 H1L Hd. set_solver. }
    { clear -HlN HrN Hla1 Hra1 H1L H2L. set_solver. }
    { intros x y Hx Hy.
      apply Hk; [simpl; set_solver|by apply (proj1 (Hsubi y))]. }
    { intros x y Hx Hy.
      apply Hk; [simpl; set_solver|by apply (proj2 (Hsubi y))]. }
    { simpl in *; lia. }
    { simpl in *; lia. }
    unfold mbind, Go.M_bind, Go.bind in Hrun'.
    exists σ', p, F', (N' ∪ N). split; [exact Hrun'|]. split; [done|].
    split_and!.
    + clear -HF' HlN HrN Hla1 Hra1. set_solver.
    + clear -HN' HN. set_solver.
    + eapply sound_equal; [|exact Hs']. clear. set_solver.
    + intros x Hx. rewrite Hfr by (clear -Hx; set_solver). by apply Hfrs.
  - destruct (split_refines nil t t' (Go.item ndb) L fuel _ eq_refl σ (Some a)
                F1 Hs H1') as
      (σs & l & m & r & Fl & Fr & N & Hrun & Hl & Hr & Hm & Hdlr & Hsub &
       HN & Hss & Hfrs & _ & _); [done|simpl; lia|].
    rewrite Hrun.
    pose proof (Tree.split_size t' (Tree.Node (Go.item nda) (Go.priority nda)
                                      la ra) (Go.item ndb)) as [Hsz1 Hsz2].
    destruct (split_spec t' _ (Go.item ndb) Hb1) as (_ & _ & Hmid).
    destruct (split_bst t' _ (Go.item ndb) Hb1) as [Hbl Hbr].
    pose proof (λ x, split_items_sub _ (Go.item ndb) x Hb1) as Hsubi.
    destruct (Tree.split t' _ (Go.item ndb)) as [[Tl Tm] Tr].
    cbn [fst snd] in Hl, Hr, Hm, Hsz1, Hsz2, Hmid, Hbl, Hbr, Hsubi.
    destruct Tm as [|im qm lm rm].
    2:{ exfalso. destruct Hmid as [Hnode Hkey].
        apply node_of_items in Hnode.
        apply (Hk im (Go.item ndb)); [done|simpl; set_solver|].
        by apply (cmp_eq_sym cmp). }
    simpl in Hm. subst m. cbn [Go.ret].
    assert (tree_at (Go.heap σs) (Go.left ndb) lb Flb) as Hlb'.
    { eapply tree_at_frame; [exact Hlb|]. intros x Hx. apply Hfrs.
      clear -Hx Hlb2 H2L. set_solver. }
    assert (tree_at (Go.heap σs) (Go.right ndb) rb Frb) as Hrb'.
    { eapply tree_at_frame; [exact Hrb|]. intros x Hx. apply Hfrs.
      clear -Hx Hrb2 H2L. set_solver. }
    assert (Fl ⊆ N ∪ F1 ∧ Fr ⊆ N ∪ F1) as [HlN HrN]
      by (clear -Hsub; set_solver).
    destruct (union_children_keeps fuel (Go.item ndb) (Go.priority ndb)
                Tl lb Tr rb σs (N ∪ L) _ _ _ _ Fl Flb Fr Frb IH Hss
                Hl Hlb' Hr Hrb') as
      (σ' & p & F' & N' & Hrun' & Hp & HF' & HN' & Hs' & Hfr); try done.
    { clear -HlN HN Hlb2 H2L Hd. set_solver. }
    { clear -HlN HN Hrb2 H2L Hd. set_solver. }
    { clear -HrN HN Hlb2 H2L Hd. set_solver. }
    { clear -HrN HN Hrb2 H2L Hd. set_solver. }
    { clear -HlN HrN Hlb2 Hrb2 H1L H2L. set_solver. }
    { intros x y Hx Hy.
      apply Hk; [by apply (proj1 (Hsubi x))|simpl; set_solver]. }
    { intros x y Hx Hy.
      apply Hk; [by apply (proj2 (Hsubi x))|simpl; set_solver]. }
    { simpl in *; lia. }
    { simpl in *; lia. }
    unfold mbind, Go.M_bind, Go.bind in Hrun'.
    exists σ', p, F', (N' ∪ N). split; [exact Hrun'|]. split; [done|].
    split_and!.
    + clear -HF' HlN HrN Hlb2 Hrb2. set_solver.
    + clear -HN' HN. set_solver.
    + eapply sound_equal; [|exact Hs']. clear. set_solver.
    + intros x Hx. rewrite Hfr by (clear -Hx; set_solver). by apply Hfrs.
Qed.

End Keeps.
End Keeps.

(** ** Properties of the package *)

Module Properties.
Import Spec Stored TreeFacts ReadOnly Refine Cases Usage TreeMore Keeps.

Section Allocation.
Context {Item : Type} (nil : Item).
Implicit Types (σ : Go.state (Item:=Item)) (L F : gset Go.addr).

Lemma init_step_filled n σ :
  filled nil n σ → filled nil (S n) (Go.init_step nil σ).
Proof.
  intros (Hs & Hlen & Hz).
  split; [by apply init_step_sound|].
  unfold Go.init_step, mbind, Go.M_bind, Go.bind.
  destruct (alloc_spec σ ∅ (Go.mkNode nil 0 None None) Hs)
    as (a & σ1 & Halloc & _ & Hs1 & Hh1).
  rewrite Halloc.
  destruct (pool_Put_total σ1 (Some a)) as (σ2 & Hput & Hh2).
  rewrite Hput.
  destruct (pool_addrs_Put (Go.nodePool σ1) (Some a) σ1 σ2 eq_refl Hput)
    as (_ & _ & Hperm).
  assert (Go.nodePool σ1 = Go.nodePool σ) as Hp1.
  { unfold Go.alloc in Halloc. by inversion Halloc. }
  assert (a = Go.next σ) as Ha.
  { unfold Go.alloc in Halloc. by inversion Halloc. }
  rewrite Hp1 in Hperm. split.
  - by rewrite Hperm; simpl; rewrite Hlen.
  - intros b Hb. rewrite Hperm in Hb. rewrite Hh2, Hh1.
    apply elem_of_cons in Hb as [->|Hb]; [by rewrite lookup_insert_eq|].
    rewrite lookup_insert_ne; [by apply Hz|].
    intros <-. pose proof (sound_pool _ _ Hs _ Hb) as Hlt. rewrite Ha in Hlt. lia.
Qed.

Lemma iter_filled (n : N) :
  filled nil (N.to_nat n)
    (N.iter n (Go.init_step nil)
       (Go.mkState ∅ 1%positive (Go.mkPool None []))).
Proof.
  induction n as [|n IH] using N.peano_ind.
  - simpl. split; [|split].
    + split; simpl; unfold pool_addrs, entries; simpl.
      * by intros a ?%elem_of_nil.
      * constructor.
      * by intros a ?%elem_of_empty.
      * by intros a ?%elem_of_nil.
    + done.
    + by intros a ?%elem_of_nil.
  - rewrite N.iter_succ, N2Nat.inj_succ. by apply init_step_filled.
Qed.

(** [init] leaves a sound store: the pool holds 10000 nodes, no node
    twice and none in use, and each of them has the zero fields of
    [&node{}]. *)
Theorem init_pool :
  sound (Go.init nil) ∅ ∧
  length (pool_addrs (Go.nodePool (Go.init nil))) = N.to_nat 10000 ∧
  ∀ a, a ∈ pool_addrs (Go.nodePool (Go.init nil)) →
       Go.heap (Go.init nil) !! a = Some (Go.mkNode nil 0 None None).
Proof. exact (iter_filled 10000). Qed.

(** [newNode] never fails and never returns nil, whatever the pool
    holds, a nil pointer included: it returns a node with exactly the four
    fields given and leaves every other node as it was. *)
Theorem newNode_total σ i p l r :
  ∃ a σ', Go.newNode nil i p l r σ = Some (Some a, σ') ∧
    Go.heap σ' !! a = Some (Go.mkNode i p l r) ∧
    ∀ b, b ≠ a → Go.heap σ' !! b = Go.heap σ !! b.
Proof.
  unfold Go.newNode, Go.pool_Get, Go.alloc, Go.assign, mbind, Go.M_bind,
    Go.bind, Go.ret.
  destruct σ as [h nx [[[a|]|] sh]]; simpl.
  - eexists _, _. split; [done|]. simpl. split; [by rewrite lookup_insert_eq|].
    intros b Hb. by rewrite lookup_insert_ne.
  - eexists _, _. split; [done|]. simpl. split; [by rewrite lookup_insert_eq|].
    intros b Hb. by rewrite !lookup_insert_ne.
  - destruct sh as [|[a|] sh]; simpl.
    + eexists _, _. split; [done|]. simpl.
      split; [by rewrite lookup_insert_eq|].
      intros b Hb. by rewrite !lookup_insert_ne.
    + eexists _, _. split; [done|]. simpl.
      split; [by rewrite lookup_insert_eq|].
      intros b Hb. by rewrite lookup_insert_ne.
    + eexists _, _. split; [done|]. simpl.
      split; [by rewrite lookup_insert_eq|].
      intros b Hb. by rewrite !lookup_insert_ne.
Qed.

(** From a sound store [newNode] hands out a node that is not in use.
    Over two stored subtrees it builds the tree with the new root above
    them, changes no node in use, and leaves the store sound with the new
    node in use. *)
Theorem newNode_builds σ L i p l r Tl Tr Fl Fr :
  sound σ L →
  tree_at (Go.heap σ) l Tl Fl → tree_at (Go.heap σ) r Tr Fr →
  Fl ## Fr → Fl ∪ Fr ⊆ L →
  ∃ a σ', Go.newNode nil i p l r σ = Some (Some a, σ') ∧
    (a ∉ L) ∧
    tree_at (Go.heap σ') (Some a) (Tree.Node i p Tl Tr) ({[a]} ∪ Fl ∪ Fr) ∧
    (∀ b, b ∈ L → Go.heap σ' !! b = Go.heap σ !! b) ∧
    sound σ' ({[a]} ∪ L).
Proof.
  intros Hs Hl Hr Hd HL.
  destruct (newNode_spec nil σ L i p l r Hs) as (a & σ' & Hrun & Ha & Hs' & Hh).
  exists a, σ'. split; [done|]. split; [done|].
  assert (∀ b, b ∈ L → Go.heap σ' !! b = Go.heap σ !! b) as Hfr.
  { intros b Hb. rewrite Hh, lookup_insert_ne; [done|]. by intros <-. }
  split; [|by split].
  exists a, (Go.mkNode i p l r), Fl, Fr. simpl.
  split; [done|]. split; [by rewrite Hh, lookup_insert_eq|].
  split; [done|]. split; [done|]. split.
  { eapply tree_at_frame; [exact Hl|]. intros b Hb. apply Hfr.
    clear -Hb HL. set_solver. }
  split.
  { eapply tree_at_frame; [exact Hr|]. intros b Hb. apply Hfr.
    clear -Hb HL. set_solver. }
  split; [clear -Ha HL; set_solver|].
  split; [clear -Ha HL; set_solver|]. by split.
Qed.

(** [reuseWith] writes in place.  On a nil receiver it fails; on a
    node that is in neither of the two stored subtrees it makes that node
    the root of the tree above them and returns it, without taking or
    giving anything to the pool and without an allocation. *)
Theorem reuseWith_in_place σ a i p l r Tl Tr Fl Fr :
  tree_at (Go.heap σ) l Tl Fl → tree_at (Go.heap σ) r Tr Fr →
  (a ∉ Fl) → (a ∉ Fr) → Fl ## Fr →
  Go.reuseWith None i p l r σ = None ∧
  ∃ σ', Go.reuseWith (Some a) i p l r σ = Some (Some a, σ') ∧
    tree_at (Go.heap σ') (Some a) (Tree.Node i p Tl Tr) ({[a]} ∪ Fl ∪ Fr) ∧
    Go.nodePool σ' = Go.nodePool σ ∧ Go.next σ' = Go.next σ ∧
    ∀ b, b ≠ a → Go.heap σ' !! b = Go.heap σ !! b.
Proof.
  intros Hl Hr Hal Har Hd. split; [done|].
  eexists. split; [done|]. simpl.
  assert (∀ b, b ≠ a → <[a := Go.mkNode i p l r]> (Go.heap σ) !! b =
                       Go.heap σ !! b) as Hfr.
  { intros b Hb. by rewrite lookup_insert_ne. }
  split; [|done].
  exists a, (Go.mkNode i p l r), Fl, Fr. simpl.
  split; [done|]. split; [by rewrite lookup_insert_eq|].
  split; [done|]. split; [done|]. split.
  { eapply tree_at_frame; [exact Hl|]. intros b Hb. apply Hfr. by intros ->. }
  split.
  { eapply tree_at_frame; [exact Hr|]. intros b Hb. apply Hfr. by intros ->. }
  done.
Qed.

End Allocation.

Section Fuel.
Context {Item : Type} (nil : Item).
Implicit Types (σ : Go.state (Item:=Item)) (L F : gset Go.addr).

(** [Upsert] with any fuel above the size of the tree. *)
Lemma Upsert_at (t : Go.Treap (Item:=Item)) fuel σ L T F i p :
  sound σ L → tree_at (Go.heap σ) (Go.root t) T F → F ⊆ L →
  (S (Tree.size T) < fuel)%nat →
  ∃ σ' t2 F' L',
    Go.Upsert nil fuel t i p σ = Some (t2, σ') ∧
    Go.compare t2 = Go.compare t ∧
    tree_at (Go.heap σ') (Go.root t2)
      (Tree.root (Tree.Upsert (as_tree t T) i p)) F' ∧
    F' ⊆ L' ∧ sound σ' L' ∧ L ∖ F ⊆ L' ∧
    (∀ a, a ∈ L ∖ F → Go.heap σ' !! a = Go.heap σ !! a) ∧
    F' ## L ∖ F.
Proof.
  intros Hs Ht HF Hfuel.
  destruct (newNode_spec nil σ L i p None None Hs)
    as (a & σ1 & Hnew & Ha & Hs1 & Hh1).
  assert (tree_at (Go.heap σ1) (Go.root t) T F) as Ht1.
  { eapply tree_at_frame; [exact Ht|]. intros b Hb.
    rewrite Hh1, lookup_insert_ne; [done|]. clear -Hb HF Ha. set_solver. }
  assert (tree_at (Go.heap σ1) (Some a) (Tree.Node i p Tree.null Tree.null)
            {[a]}) as Hthat.
  { exists a, (Go.mkNode i p None None), ∅, ∅. simpl.
    split_and!; try done; [by rewrite Hh1, lookup_insert_eq|clear; set_solver]. }
  destruct (union_refines nil t (as_tree t T) eq_refl fuel
              T _ σ1 ({[a]} ∪ L) (Go.root t) (Some a) F {[a]} Hs1 Ht1 Hthat)
    as (σ' & r & F' & L' & Hrun & Hr & HFL & Hs' & Hnew' & Hkeep & Hfr).
  { clear -HF Ha. set_solver. }
  { clear -HF. set_solver. }
  { simpl. lia. }
  exists σ', (Go.mkTreap (Go.compare t) r), F', L'.
  unfold Go.Upsert, mbind, Go.M_bind, Go.bind. rewrite Hnew, Hrun.
  split_and!; try done.
  - clear -Hkeep Ha. set_solver.
  - intros b Hb. rewrite Hfr by (clear -Hb Ha; set_solver).
    rewrite Hh1, lookup_insert_ne; [done|]. clear -Hb Ha. set_solver.
  - clear -Hnew' Ha. set_solver.
Qed.

End Fuel.

Section Lookup.
Context {Item : Type} (nil : Item).
Implicit Types (σ : Go.state (Item:=Item)).

(** [Get] on a stored search tree, by the items of the tree. *)
Lemma Get_found (t : Go.Treap (Item:=Item)) `{!TotalOrder (Go.compare t)}
    σ T fuel k x :
  repr (Go.heap σ) (Go.root t) T → bst (Go.compare t) T → (Tree.size T < fuel)%nat →
  x ∈ items T → Go.compare t k x = 0 →
  Go.Get nil fuel t k σ = Some (x, σ).
Proof.
  intros Hr Hb Hf Hx Hk. unfold Go.Get.
  rewrite (get_loop_refines nil t (as_tree t T) σ fuel _ T k eq_refl Hr Hf).
  by rewrite (get_loop_found (as_tree t T) nil T k x).
Qed.

Lemma Get_absent (t : Go.Treap (Item:=Item)) `{!TotalOrder (Go.compare t)}
    σ T fuel k :
  repr (Go.heap σ) (Go.root t) T → (Tree.size T < fuel)%nat →
  ¬ has (Go.compare t) (items T) k →
  Go.Get nil fuel t k σ = Some (nil, σ).
Proof.
  intros Hr Hf Hk. unfold Go.Get.
  rewrite (get_loop_refines nil t (as_tree t T) σ fuel _ T k eq_refl Hr Hf).
  by rewrite (get_loop_absent (as_tree t T) nil T k).
Qed.

End Lookup.

Section Operations.
Context {Item : Type} (nil : Item).
Context (t : Go.Treap (Item:=Item)) `{!TotalOrder (Go.compare t)}.
Implicit Types (σ : Go.state (Item:=Item)) (L F : gset Go.addr).
#[local] Abbreviation cmp := (Go.compare t).

(** [split] on a sound store.  A stored treap is cut into two stored
    treaps: the left one has the items below the pivot, the right one the
    items above it, both in the order of the input.  The middle is nil when
    no item has the key of the pivot, and otherwise the node of the input
    that has it. *)
Theorem split_parts σ L n T F s :
  sound σ L → tree_at (Go.heap σ) n T F → F ⊆ L → treap cmp T →
  ∃ fuel σ' l m r Tl Tr,
    Go.split nil fuel t n s σ = Some ((l, m, r), σ') ∧
    repr (Go.heap σ') l Tl ∧ repr (Go.heap σ') r Tr ∧
    treap cmp Tl ∧ treap cmp Tr ∧
    items Tl = filter (λ x, cmp x s < 0) (items T) ∧
    items Tr = filter (λ x, 0 < cmp x s) (items T) ∧
    match m with
    | None => ¬ has cmp (items T) s
    | Some a => ∃ nd, Go.heap σ' !! a = Some nd ∧ a ∈ F ∧
                      cmp s (Go.item nd) = 0
    end.
Proof.
  intros Hs Ht HF [Hb Hh].
  destruct (split_refines nil t (as_tree t T) s L (S (Tree.size T)) T eq_refl
              σ n F Hs Ht HF) as
    (σ' & l & m & r & Fl & Fr & N & Hrun & Hl & Hr & Hm & _); [lia|].
  destruct (split_spec (as_tree t T) T s Hb) as (El & Er & Hmid).
  destruct (split_bst (as_tree t T) T s Hb) as [Hbl Hbr].
  assert (∃ q, prio_le T q) as [q Hq].
  { destruct T as [|i q ? ?]; [by exists 0|exists q; simpl; lia]. }
  destruct (split_heap (as_tree t T) T s q Hh Hq) as [[Hhl _] [Hhr _]].
  destruct (Tree.split (as_tree t T) T s) as [[Tl Tm] Tr]. simpl in *.
  exists (S (Tree.size T)), σ', l, m, r, Tl, Tr.
  split; [done|]. split; [by eapply tree_at_repr|].
  split; [by eapply tree_at_repr|].
  split; [done|]. split; [done|]. split; [done|]. split; [done|].
  destruct Tm as [|im qm lm rm]; simpl in Hm.
  - by subst m.
  - destruct Hm as (am & nd & -> & Hnd & <- & Hin & _).
    exists nd. by destruct Hmid.
Qed.


(** [join] on two stored trees that share no node.  The result holds
    the items of [this] followed by those of [that]; it is a treap when both
    are treaps and every item of [this] is below every item of [that].
    [join] takes nothing from the pool and writes no node that was in
    use. *)
Theorem join_appends σ L this that T1 T2 F1 F2 :
  sound σ L →
  tree_at (Go.heap σ) this T1 F1 → tree_at (Go.heap σ) that T2 F2 →
  F1 ## F2 → F1 ∪ F2 ⊆ L →
  ∃ fuel σ' p J,
    Go.join fuel this that σ = Some (p, σ') ∧
    repr (Go.heap σ') p J ∧
    items J = items T1 ++ items T2 ∧
    (treap cmp T1 → treap cmp T2 →
     (∀ x y, x ∈ items T1 → y ∈ items T2 → cmp x y < 0) → treap cmp J) ∧
    Go.nodePool σ' = Go.nodePool σ ∧
    (∀ a, a ∈ L → Go.heap σ' !! a = Go.heap σ !! a).
Proof.
  intros Hs H1 H2 Hd HL.
  destruct (join_refines L (S (Tree.size T1 + Tree.size T2)) T1 T2 σ this that
              F1 F2 Hs H1 H2 Hd HL) as
    (σ' & p & F' & N & Hrun & Hp & _ & _ & _ & Hpool & Hfr); [lia|].
  exists (S (Tree.size T1 + Tree.size T2)), σ', p, (Tree.join T1 T2).
  split; [done|]. split; [by eapply tree_at_repr|].
  split; [by apply join_items|]. split; [|done].
  intros [Hb1 Hh1] [Hb2 Hh2] Hlt. split.
  - by apply (join_bst (as_tree t T1)).
  - by apply join_heap.
Qed.

(** [union] on a sound store, for two stored treaps that share no
    node: the result is a stored treap, its keys are the keys of [this]
    together with those of [that], and for a key of [that] it holds the item
    of [that]. *)
Theorem union_unites σ L this that T1 T2 F1 F2 :
  sound σ L →
  tree_at (Go.heap σ) this T1 F1 → tree_at (Go.heap σ) that T2 F2 →
  F1 ## F2 → F1 ∪ F2 ⊆ L → treap cmp T1 → treap cmp T2 →
  ∃ fuel σ' p U,
    Go.union nil fuel t this that σ = Some (p, σ') ∧
    repr (Go.heap σ') p U ∧ treap cmp U ∧
    (∀ x, x ∈ items U ↔
          x ∈ items T2 ∨ (x ∈ items T1 ∧ ¬ has cmp (items T2) x)) ∧
    (∀ k, has cmp (items U) k ↔ has cmp (items T1) k ∨ has cmp (items T2) k).
Proof.
  intros Hs H1 H2 Hd HL [Hb1 Hh1] [Hb2 Hh2].
  destruct (union_refines nil t (as_tree t T1) eq_refl
              (S (Tree.size T1 + Tree.size T2)) T1 T2 σ L this that F1 F2
              Hs H1 H2 Hd HL) as (σ' & p & F' & L' & Hrun & Hp & _); [lia|].
  exists (S (Tree.size T1 + Tree.size T2)), σ', p,
    (Tree.union (as_tree t T1) T1 T2).
  split; [done|]. split; [by eapply tree_at_repr|].
  destruct (union_spec (as_tree t T1) T1 T2 Hb1 Hb2) as [Hb Hm].
  split; [split; [done|by apply union_heap]|]. split; [exact Hm|].
  intros k. unfold has. rewrite !Exists_exists. split.
  - intros (x & [Hx|[Hx _]]%Hm & Hk); eauto.
  - intros [(x & Hx & Hk)|(x & Hx & Hk)].
    + destruct (decide (has cmp (items T2) x)) as [Hh|Hn].
      * apply Exists_exists in Hh as (y & Hy & Hxy).
        exists y. split; [apply Hm; by left|].
        by apply (cmp_eq_trans _ k x y).
      * exists x. split; [apply Hm; by right|done].
    + exists x. split; [apply Hm; by left|done].
Qed.

End Operations.

Section Versions.
Context {Item : Type} (nil : Item).
Context (t : Go.Treap (Item:=Item)) `{!TotalOrder (Go.compare t)}.
Implicit Types (σ : Go.state (Item:=Item)) (L F : gset Go.addr).
#[local] Abbreviation cmp := (Go.compare t).

(** [Upsert] leaves the other trees alone.  A tree stored on nodes in use
    that shares no node with the version written to is stored as before
    after the call, shares no node with the new version, and is still
    covered by the soundness of the store. *)
Theorem Upsert_frame σ L T F i p other T3 F3 :
  sound σ L → tree_at (Go.heap σ) (Go.root t) T F → F ⊆ L →
  tree_at (Go.heap σ) other T3 F3 → F3 ⊆ L → F3 ## F →
  ∃ fuel σ' t2 T2 F2 L2,
    Go.Upsert nil fuel t i p σ = Some (t2, σ') ∧
    tree_at (Go.heap σ') (Go.root t2) T2 F2 ∧
    tree_at (Go.heap σ') other T3 F3 ∧
    F2 ## F3 ∧ F2 ∪ F3 ⊆ L2 ∧ sound σ' L2.
Proof.
  intros Hs Ht HF H3 HL3 Hd3.
  destruct (Upsert_at nil t (S (S (Tree.size T))) σ L T F i p Hs Ht HF)
    as (σ' & t2 & F' & L' & Hrun & _ & Ht2 & HF' & Hs' & Hkeep & Hfr & Hnew);
    [lia|].
  exists (S (S (Tree.size T))), σ', t2,
    (Tree.root (Tree.Upsert (as_tree t T) i p)), F', L'.
  split; [done|]. split; [done|]. split.
  { eapply tree_at_frame; [exact H3|]. intros a Ha. apply Hfr.
    clear -Ha HL3 Hd3. set_solver. }
  split; [clear -Hnew HL3 Hd3; set_solver|].
  split; [clear -HF' Hkeep HL3 Hd3; set_solver|done].
Qed.

(** What [Upsert] returns can be looked up.  In the new version [Get]
    finds the item just written under its key, and for every other key it
    answers what [Get] answered on the version written to. *)
Theorem Upsert_then_Get σ L T F i p :
  sound σ L → tree_at (Go.heap σ) (Go.root t) T F → F ⊆ L → treap cmp T →
  ∃ fuel σ' t2 fuel',
    Go.Upsert nil fuel t i p σ = Some (t2, σ') ∧
    Go.Get nil fuel' t2 i σ' = Some (i, σ') ∧
    ∀ k, cmp k i ≠ 0 →
      ∃ found, Go.Get nil fuel' t k σ = Some (found, σ) ∧
               Go.Get nil fuel' t2 k σ' = Some (found, σ').
Proof.
  intros Hs Ht HF [Hb Hh].
  destruct (Upsert_at nil t (S (S (Tree.size T))) σ L T F i p Hs Ht HF)
    as (σ' & t2 & F' & L' & Hrun & Hc & Ht2 & _); [lia|].
  set (T2 := Tree.root (Tree.Upsert (as_tree t T) i p)) in *.
  assert (bst cmp T2) as Hb2 by by apply (Upsert_bst (as_tree t T)).
  assert (∀ x, x ∈ items T2 ↔ x = i ∨ (x ∈ items T ∧ cmp x i ≠ 0)) as Hm.
  { intros x. by apply (Upsert_elem_of (as_tree t T)). }
  destruct t2 as [c2 r2]. simpl in Hc. subst c2.
  pose proof (tree_at_repr _ _ _ _ Ht) as Hr.
  pose proof (tree_at_repr _ _ _ _ Ht2) as Hr2.
  exists (S (S (Tree.size T))), σ', (Go.mkTreap cmp r2),
    (S (Tree.size T + Tree.size T2)).
  split; [done|]. split.
  { apply (Get_found nil (Go.mkTreap cmp r2) _ T2); try done; [simpl; lia|by apply Hm; left|].
    apply (cmp_refl cmp). }
  intros k Hk.
  destruct (decide (has cmp (items T) k)) as [Hhas|Hno].
  - apply Exists_exists in Hhas as (x & Hx & Hkx).
    exists x. split; [apply (Get_found nil t _ T); try done; lia|].
    apply (Get_found nil (Go.mkTreap cmp r2) _ T2); try done; [simpl; lia|].
    apply Hm. right. split; [done|]. intros Hxi.
    apply Hk. by apply (cmp_eq_trans cmp k x i).
  - exists nil. split; [apply (Get_absent nil t _ T); try done; lia|].
    apply (Get_absent nil (Go.mkTreap cmp r2) _ T2); try done; [simpl; lia|].
    intros (y & Hy & Hky)%Exists_exists.
    apply Hm in Hy as [->|[Hy _]]; [done|].
    apply Hno, Exists_exists. eauto.
Qed.


(** An item with a priority that is not below the root's goes to the
    root.  Its left subtree has the items below it and its right subtree
    the items above it. *)
Theorem Upsert_on_top σ L T F i p :
  sound σ L → tree_at (Go.heap σ) (Go.root t) T F → F ⊆ L → treap cmp T →
  prio_le T p →
  ∃ fuel σ' t2 Tl Tr,
    Go.Upsert nil fuel t i p σ = Some (t2, σ') ∧
    repr (Go.heap σ') (Go.root t2) (Tree.Node i p Tl Tr) ∧
    items Tl = filter (λ x, cmp x i < 0) (items T) ∧
    items Tr = filter (λ x, 0 < cmp x i) (items T).
Proof.
  intros Hs Ht HF [Hb Hh] Hp.
  destruct (Upsert_at nil t (S (S (Tree.size T))) σ L T F i p Hs Ht HF)
    as (σ' & t2 & F' & L' & Hrun & _ & Ht2 & _); [lia|].
  unfold Tree.Upsert, Tree.newNode in Ht2. cbn [Tree.root as_tree] in Ht2.
  rewrite (union_single_top (as_tree t T)) in Ht2 by done.
  destruct (split_spec (as_tree t T) T i Hb) as (El & Er & _).
  exists (S (S (Tree.size T))), σ', t2,
    (Tree.split (as_tree t T) T i).1.1, (Tree.split (as_tree t T) T i).2.
  split; [done|]. split; [by eapply tree_at_repr|]. done.
Qed.

(** The priority of a key after [Upsert] is the priority given, unless the
    key was there with a greater one, which it then keeps.  So a later
    [Upsert] can raise the priority of a key and cannot lower it. *)
Theorem Upsert_priority σ L T F i p :
  sound σ L → tree_at (Go.heap σ) (Go.root t) T F → F ⊆ L → treap cmp T →
  ∃ fuel σ' t2 T2,
    Go.Upsert nil fuel t i p σ = Some (t2, σ') ∧
    repr (Go.heap σ') (Go.root t2) T2 ∧
    priority_of cmp T2 i =
      Some (match priority_of cmp T i with
            | Some q => q `max` p
            | None => p
            end).
Proof.
  intros Hs Ht HF [Hb Hh].
  destruct (Upsert_at nil t (S (S (Tree.size T))) σ L T F i p Hs Ht HF)
    as (σ' & t2 & F' & L' & Hrun & _ & Ht2 & _); [lia|].
  exists (S (S (Tree.size T))), σ', t2,
    (Tree.root (Tree.Upsert (as_tree t T) i p)).
  split; [done|]. split; [by eapply tree_at_repr|].
  by apply (union_single_priority (as_tree t T)).
Qed.

(** [Delete] writes no node.  Right after the call every tree stored on
    nodes in use, the version deleted from among them, is stored as it
    was. *)
Theorem Delete_writes_no_node σ L T F k :
  sound σ L → tree_at (Go.heap σ) (Go.root t) T F → F ⊆ L →
  ∃ fuel σ' t2,
    Go.Delete nil fuel t k σ = Some (t2, σ') ∧
    ∀ other T3 F3,
      tree_at (Go.heap σ) other T3 F3 → F3 ⊆ L →
      tree_at (Go.heap σ') other T3 F3.
Proof.
  intros Hs Ht HF.
  destruct (Delete_refines nil t σ L T F k Hs Ht HF) as
    (σ' & t2 & F' & Hrun & _ & _ & Hfr & _).
  exists (S (Tree.size T + Tree.size T)), σ', t2. split; [done|].
  intros other T3 F3 H3 HL3.
  eapply tree_at_frame; [exact H3|]. intros a Ha. apply Hfr.
  clear -Ha HL3. set_solver.
Qed.

(** [Delete] of a key that is not there.  The version returned has the
    items of the old one, in the same order, and the store stays sound. *)
Theorem Delete_absent σ L T F k :
  sound σ L → tree_at (Go.heap σ) (Go.root t) T F → F ⊆ L → treap cmp T →
  ¬ has cmp (items T) k →
  ∃ fuel σ' t2 T2 F2 L2,
    Go.Delete nil fuel t k σ = Some (t2, σ') ∧
    tree_at (Go.heap σ') (Go.root t2) T2 F2 ∧ treap cmp T2 ∧
    items T2 = items T ∧
    sound σ' L2 ∧ F2 ⊆ L2.
Proof.
  intros Hs Ht HF [Hb Hh] Hno.
  destruct (Delete_refines nil t σ L T F k Hs Ht HF) as
    (σ' & t2 & F' & Hrun & Hc & Ht2 & _ & Hsound).
  assert (∀ x, x ∈ items T → cmp x k ≠ 0) as Hne.
  { intros x Hx Hxk. apply Hno, Exists_exists. exists x.
    split; [done|]. by apply (cmp_eq_sym cmp). }
  destruct Hsound as (L2 & Hs2 & HF2 & _).
  { destruct T as [|i q l r]; [done|]. intros Hki.
    apply (Hne i); [simpl; set_solver|]. by apply (cmp_eq_sym cmp). }
  exists (S (Tree.size T + Tree.size T)), σ', t2,
    (Tree.root (Tree.Delete (as_tree t T) k)), F', L2.
  split; [done|]. split; [done|]. split.
  { split; [by apply (Delete_bst (as_tree t T))|
            by apply (Delete_heap (as_tree t T))]. }
  split; [|done].
  rewrite (Delete_items (as_tree t T)) by done.
  apply filter_all, Forall_forall. exact Hne.
Qed.

(** [Delete] of the key at the root puts the root in the pool twice.  The
    pool then holds what it held and twice the old root, so no set of nodes
    in use makes the store sound any more. *)
Theorem Delete_root_key_pools_root_twice σ L i q l r F k :
  sound σ L →
  tree_at (Go.heap σ) (Go.root t) (Tree.Node i q l r) F → F ⊆ L →
  cmp k i = 0 →
  ∃ fuel σ' t2 a,
    Go.Delete nil fuel t k σ = Some (t2, σ') ∧
    Go.root t = Some a ∧
    pool_addrs (Go.nodePool σ') ≡ₚ a :: a :: pool_addrs (Go.nodePool σ) ∧
    ∀ L', ¬ sound σ' L'.
Proof.
  intros Hs Ht HF Hk.
  destruct Ht as (a & nd & Fl & Fr & Hroot & Ha & Hi & Hq & Hl & Hr & Hal &
                  Har & Hd & HFeq).
  assert (Fl ∪ Fr ⊆ L) as HlrL by (clear -HFeq HF; set_solver).
  pose (fuel := S (Tree.size l + Tree.size r)).
  destruct (join_refines L fuel l r σ (Go.left nd) (Go.right nd) Fl Fr
              Hs Hl Hr Hd HlrL) as
    (σj & x & F' & Nj & Hjoin & _ & _ & _ & _ & Hpj & _); [unfold fuel; lia|].
  destruct (pool_Put_total σj (Some a)) as (σ1 & Hput1 & Hh1).
  destruct (pool_Put_total σ1 (Some a)) as (σ2 & Hput2 & Hh2).
  destruct (pool_addrs_Put (Go.nodePool σj) (Some a) σj σ1 eq_refl Hput1)
    as (_ & _ & Hperm1).
  destruct (pool_addrs_Put (Go.nodePool σ1) (Some a) σ1 σ2 eq_refl Hput2)
    as (_ & _ & Hperm2).
  assert (pool_addrs (Go.nodePool σ2) ≡ₚ a :: a :: pool_addrs (Go.nodePool σ))
    as Hperm.
  { rewrite Hperm2, Hperm1. by rewrite Hpj. }
  exists fuel, σ2, (Go.mkTreap cmp x), a.
  split; [|split; [done|split; [done|]]].
  - unfold Go.Delete, mbind, Go.M_bind, Go.bind.
    unfold fuel at 1. cbn [Go.split]. rewrite Hroot.
    unfold mbind, Go.M_bind, Go.bind, Go.load. rewrite Ha, Hi.
    destruct (Z.eqb_spec (cmp k i) 0) as [_|]; [|done].
    unfold Go.ret. by rewrite Hjoin, Hput1, Hput2.
  - intros L' Hs'. pose proof (sound_once _ _ Hs') as Hnd.
    rewrite Hperm in Hnd. apply NoDup_cons in Hnd as [Hnd _].
    apply Hnd. by left.
Qed.

(** [Delete] takes the key out.  In the version returned [Get] finds
    nothing under the key deleted, and for every other key it answers what
    [Get] answered on the old version. *)
Theorem Delete_then_Get σ L T F k :
  sound σ L → tree_at (Go.heap σ) (Go.root t) T F → F ⊆ L → treap cmp T →
  ∃ fuel σ' t2 fuel',
    Go.Delete nil fuel t k σ = Some (t2, σ') ∧
    Go.Get nil fuel' t2 k σ' = Some (nil, σ') ∧
    ∀ k', cmp k' k ≠ 0 →
      ∃ found, Go.Get nil fuel' t k' σ = Some (found, σ) ∧
               Go.Get nil fuel' t2 k' σ' = Some (found, σ').
Proof.
  intros Hs Ht HF [Hb Hh].
  destruct (Delete_refines nil t σ L T F k Hs Ht HF) as
    (σ' & t2 & F' & Hrun & Hc & Ht2 & _).
  set (T2 := Tree.root (Tree.Delete (as_tree t T) k)) in *.
  assert (bst cmp T2) as Hb2 by by apply (Delete_bst (as_tree t T)).
  assert (items T2 = filter (λ x, cmp x k ≠ 0) (items T)) as Hitems
    by by apply (Delete_items (as_tree t T)).
  destruct t2 as [c2 r2]. simpl in Hc. subst c2.
  pose proof (tree_at_repr _ _ _ _ Ht) as Hr.
  pose proof (tree_at_repr _ _ _ _ Ht2) as Hr2.
  exists (S (Tree.size T + Tree.size T)), σ', (Go.mkTreap cmp r2),
    (S (Tree.size T + Tree.size T2)).
  split; [done|]. split.
  { apply (Get_absent nil (Go.mkTreap cmp r2) _ T2); try done; [simpl; lia|].
    intros (y & Hy & Hky)%Exists_exists. simpl in Hky.
    rewrite Hitems in Hy. apply list_elem_of_filter in Hy as [Hyk _].
    apply Hyk. by apply (cmp_eq_sym cmp). }
  intros k' Hk'.
  destruct (decide (has cmp (items T) k')) as [Hhas|Hno].
  - apply Exists_exists in Hhas as (x & Hx & Hkx).
    exists x. split; [apply (Get_found nil t _ T); try done; lia|].
    apply (Get_found nil (Go.mkTreap cmp r2) _ T2); try done; [simpl; lia|].
    rewrite Hitems. apply list_elem_of_filter. split; [|done].
    intros Hxk. apply Hk'. by apply (cmp_eq_trans cmp k' x k).
  - exists nil. split; [apply (Get_absent nil t _ T); try done; lia|].
    apply (Get_absent nil (Go.mkTreap cmp r2) _ T2); try done; [simpl; lia|].
    intros (y & Hy & Hky)%Exists_exists.
    rewrite Hitems in Hy. apply list_elem_of_filter in Hy as [_ Hy].
    apply Hno, Exists_exists. eauto.
Qed.

(** [Upsert] of a new key followed by [Delete] of that key gives back the
    items of the version started from, in the same order. *)
Theorem Upsert_then_Delete σ L T F i p :
  sound σ L → tree_at (Go.heap σ) (Go.root t) T F → F ⊆ L → treap cmp T →
  ¬ has cmp (items T) i →
  ∃ fuel1 σ1 t2 fuel2 σ2 t3 T3,
    Go.Upsert nil fuel1 t i p σ = Some (t2, σ1) ∧
    Go.Delete nil fuel2 t2 i σ1 = Some (t3, σ2) ∧
    repr (Go.heap σ2) (Go.root t3) T3 ∧ treap cmp T3 ∧
    items T3 = items T.
Proof.
  intros Hs Ht HF [Hb Hh] Hno.
  destruct (Upsert_at nil t (S (S (Tree.size T))) σ L T F i p Hs Ht HF)
    as (σ1 & t2 & F' & L' & Hrun & Hc & Ht2 & HF' & Hs1 & _); [lia|].
  set (T2 := Tree.root (Tree.Upsert (as_tree t T) i p)) in *.
  assert (bst cmp T2) as Hb2 by by apply (Upsert_bst (as_tree t T)).
  assert (heap_ordered T2) as Hh2 by by apply (Upsert_heap (as_tree t T)).
  assert (∀ x, x ∈ items T2 ↔ x = i ∨ (x ∈ items T ∧ cmp x i ≠ 0)) as Hm.
  { intros x. by apply (Upsert_elem_of (as_tree t T)). }
  destruct t2 as [c2 r2]. simpl in Hc. subst c2.
  destruct (Delete_refines nil (Go.mkTreap cmp r2) σ1 L' T2 F' i Hs1 Ht2 HF')
    as (σ2 & t3 & F3 & Hrun2 & _ & Ht3 & _).
  set (T3 := Tree.root (Tree.Delete (as_tree (Go.mkTreap cmp r2) T2) i)) in *.
  assert (bst cmp T3) as Hb3
    by by apply (Delete_bst (as_tree (Go.mkTreap cmp r2) T2)).
  exists (S (S (Tree.size T))), σ1, (Go.mkTreap cmp r2),
    (S (Tree.size T2 + Tree.size T2)), σ2, t3, T3.
  split; [done|]. split; [done|]. split; [by eapply tree_at_repr|].
  split.
  { split; [done|].
    by apply (Delete_heap (as_tree (Go.mkTreap cmp r2) T2)). }
  apply (sorted_ext (as_tree t T)).
  - by apply (bst_sorted (as_tree t T)).
  - by apply (bst_sorted (as_tree t T)).
  - intros x. unfold T3.
    rewrite (Delete_items (as_tree (Go.mkTreap cmp r2) T2)) by done.
    rewrite list_elem_of_filter. cbn [as_tree Tree.compare Tree.root].
    rewrite Hm. split.
    + intros [Hxi [->|[Hx _]]]; [|done].
      exfalso. apply Hxi. apply (cmp_refl cmp).
    + intros Hx.
      assert (cmp x i ≠ 0) as Hxi.
      { intros Hxi. apply Hno, Exists_exists. exists x.
        split; [done|]. by apply (cmp_eq_sym cmp). }
      split; [done|]. by right.
Qed.

End Versions.

Section Persistence.
Context {Item : Type} (nil : Item).
Context (t : Go.Treap (Item:=Item)) `{!TotalOrder (Go.compare t)}.
Implicit Types (σ : Go.state (Item:=Item)) (L F : gset Go.addr).
#[local] Abbreviation cmp := (Go.compare t).

(** [Upsert] of a key that is not there keeps the old version.  Nothing
    goes to the pool: every node in use holds what it held, the old version
    is stored as before and answers every [Get] as before, the new version
    is built from it and from nodes [N] that were not in use, and the store
    is sound with both versions in use. *)
Theorem Upsert_new_key_keeps_old_version σ L T F i p :
  sound σ L → tree_at (Go.heap σ) (Go.root t) T F → F ⊆ L → treap cmp T →
  ¬ has cmp (items T) i →
  ∃ fuel σ' t2 T2 F2 N,
    Go.Upsert nil fuel t i p σ = Some (t2, σ') ∧
    tree_at (Go.heap σ') (Go.root t2) T2 F2 ∧
    (∀ x, x ∈ items T2 ↔ x = i ∨ x ∈ items T) ∧
    tree_at (Go.heap σ') (Go.root t) T F ∧
    (∀ a, a ∈ L → Go.heap σ' !! a = Go.heap σ !! a) ∧
    (∀ k, ∃ fuel' found,
       Go.Get nil fuel' t k σ = Some (found, σ) ∧
       Go.Get nil fuel' t k σ' = Some (found, σ')) ∧
    F2 ⊆ N ∪ F ∧ N ## L ∧ sound σ' (N ∪ L).
Proof.
  intros Hs Ht HF [Hb Hh] Hno.
  assert (∀ x, x ∈ items T → cmp x i ≠ 0) as Hne.
  { intros x Hx Hxi. apply Hno, Exists_exists. exists x.
    split; [done|]. by apply (cmp_eq_sym cmp). }
  destruct (newNode_spec nil σ L i p None None Hs)
    as (a & σ1 & Hnew & Ha & Hs1 & Hh1).
  assert (∀ b, b ∈ L → Go.heap σ1 !! b = Go.heap σ !! b) as Hfr1.
  { intros b Hb'. rewrite Hh1, lookup_insert_ne; [done|]. by intros <-. }
  assert (tree_at (Go.heap σ1) (Go.root t) T F) as Ht1.
  { eapply tree_at_frame; [exact Ht|]. intros b Hb'. apply Hfr1.
    clear -Hb' HF. set_solver. }
  assert (tree_at (Go.heap σ1) (Some a) (Tree.Node i p Tree.null Tree.null)
            {[a]}) as Hthat.
  { exists a, (Go.mkNode i p None None), ∅, ∅. simpl.
    split_and!; try done; [by rewrite Hh1, lookup_insert_eq|clear; set_solver]. }
  destruct (union_keeps_all nil t (S (S (Tree.size T))) T
              (Tree.Node i p Tree.null Tree.null) σ1 ({[a]} ∪ L)
              (Go.root t) (Some a) F {[a]} Hs1 Ht1 Hthat)
    as (σ' & r & F' & N & Hrun & Hr & HF' & HN & Hs' & Hfr).
  { clear -HF Ha. set_solver. }
  { clear -HF. set_solver. }
  { done. }
  { simpl. split_and!; done. }
  { intros x y Hx [->|[]%elem_of_nil]%elem_of_cons. by apply Hne. }
  { simpl. lia. }
  assert (∀ b, b ∈ L → Go.heap σ' !! b = Go.heap σ !! b) as Hfr'.
  { intros b Hb'. rewrite Hfr by (clear -Hb'; set_solver). by apply Hfr1. }
  assert (tree_at (Go.heap σ') (Go.root t) T F) as Ht'.
  { eapply tree_at_frame; [exact Ht|]. intros b Hb'. apply Hfr'.
    clear -Hb' HF. set_solver. }
  exists (S (S (Tree.size T))), σ', (Go.mkTreap cmp r),
    (Tree.union (as_tree t Tree.null) T (Tree.Node i p Tree.null Tree.null)),
    F', ({[a]} ∪ N).
  split.
  { unfold Go.Upsert, mbind, Go.M_bind, Go.bind. by rewrite Hnew, Hrun. }
  split; [exact Hr|]. split.
  { intros x.
    destruct (union_spec (as_tree t Tree.null) T
                (Tree.Node i p Tree.null Tree.null) Hb) as [_ Hm];
      [simpl; split_and!; done|].
    rewrite Hm. simpl. rewrite list_elem_of_singleton.
    split; [tauto|]. intros [->|Hx]; [by left|]. right. split; [done|].
    intros [Hxi|[]%Exists_nil]%Exists_cons. by apply (Hne x). }
  split; [done|]. split; [done|]. split.
  { intros k. exists (S (Tree.size T)), (Tree.get_loop nil (as_tree t T) T k).
    unfold Go.Get. split.
    - apply get_loop_refines; [done|by eapply tree_at_repr|lia].
    - apply get_loop_refines; [done|by eapply tree_at_repr|lia]. }
  split; [clear -HF'; set_solver|].
  split; [clear -HN Ha; set_solver|].
  eapply sound_equal; [|exact Hs']. clear. set_solver.
Qed.

End Persistence.

Section Depth.
Context {Item : Type} (nil : Item).
Implicit Types (σ : Go.state (Item:=Item)).

Lemma get_loop_height t (t' : Tree.Treap) σ fuel n T k :
  Tree.compare t' = Go.compare t →
  repr (Go.heap σ) n T → (height T < fuel)%nat →
  Go.get_loop nil fuel t n k σ = Some (Tree.get_loop nil t' T k, σ).
Proof.
  intros Hc. revert fuel n.
  induction T as [|i q l IHl r IHr]; intros fuel n Hr Hf.
  - simpl in Hr. subst n. destruct fuel; [simpl in Hf; lia|]. done.
  - destruct Hr as (a & nd & -> & Ha & <- & <- & Hl & Hr).
    destruct fuel as [|fuel]; [simpl in Hf; lia|]. simpl in Hf.
    cbn [Go.get_loop]. unfold mbind, Go.M_bind, Go.bind, Go.load. rewrite Ha.
    cbn [Tree.get_loop]. rewrite Hc.
    destruct (_ <? 0); [apply IHl; [done|lia]|].
    destruct (0 <? _); [apply IHr; [done|lia]|]. done.
Qed.

Lemma min_loop_height σ fuel (nd : Go.node) l :
  repr (Go.heap σ) (Go.left nd) l → (height l < fuel)%nat →
  Go.min_loop fuel nd σ = Some (Tree.min_loop (Go.item nd) l, σ).
Proof.
  revert fuel nd. induction l as [|i q a IHa b _]; intros fuel nd Hl Hf.
  - simpl in Hl. destruct fuel; [simpl in Hf; lia|]. simpl. by rewrite Hl.
  - destruct Hl as (x & nd' & Hx & Hnd & <- & <- & Ha & Hb).
    destruct fuel as [|fuel]; [simpl in Hf; lia|]. simpl in Hf.
    cbn [Go.min_loop Tree.min_loop]. rewrite Hx.
    unfold mbind, Go.M_bind, Go.bind, Go.load. rewrite Hnd.
    apply IHa; [done|lia].
Qed.

Lemma max_loop_height σ fuel (nd : Go.node) r :
  repr (Go.heap σ) (Go.right nd) r → (height r < fuel)%nat →
  Go.max_loop fuel nd σ = Some (Tree.max_loop (Go.item nd) r, σ).
Proof.
  revert fuel nd. induction r as [|i q a _ b IHb]; intros fuel nd Hr Hf.
  - simpl in Hr. destruct fuel; [simpl in Hf; lia|]. simpl. by rewrite Hr.
  - destruct Hr as (x & nd' & Hx & Hnd & <- & <- & Ha & Hb).
    destruct fuel as [|fuel]; [simpl in Hf; lia|]. simpl in Hf.
    cbn [Go.max_loop Tree.max_loop]. rewrite Hx.
    unfold mbind, Go.M_bind, Go.bind, Go.load. rewrite Hnd.
    apply IHb; [done|lia].
Qed.

Lemma visitAscend_height {V} t (t' : Tree.Treap) σ fuel n T pivot
    (visitor : Item → V → bool * V) v :
  Tree.compare t' = Go.compare t →
  repr (Go.heap σ) n T → (height T < fuel)%nat →
  Go.visitAscend fuel t n pivot (Go.quiet visitor) v σ =
  Some (Tree.visitAscend t' T pivot visitor v, σ).
Proof.
  intros Hc. revert fuel n v.
  induction T as [|i q l IHl r IHr]; intros fuel n v Hr Hf.
  - simpl in Hr. subst n. destruct fuel; [simpl in Hf; lia|]. done.
  - destruct Hr as (a & nd & -> & Ha & <- & <- & Hl & Hr).
    destruct fuel as [|fuel]; [simpl in Hf; lia|]. simpl in Hf.
    cbn [Go.visitAscend Tree.visitAscend].
    unfold mbind, Go.M_bind, Go.bind, Go.load. rewrite Ha, Hc.
    destruct (_ <=? 0); [|apply IHr; [done|lia]].
    rewrite (IHl fuel _ v Hl) by lia.
    destruct (Tree.visitAscend t' l pivot visitor v) as [[] v1]; simpl; [|done].
    rewrite Ha. unfold Go.quiet at 1, Go.ret at 1.
    destruct (visitor (Go.item nd) v1) as [[] v2]; simpl; [|done].
    rewrite Ha. apply IHr; [done|lia].
Qed.

(** The queries go no deeper than the tree.  On a version stored as a tree
    of height [h], [Min], [Max], [Get] and [visitAscend] return with any
    fuel above [h], that is, after descending through at most [h] nodes;
    they return what the code computes over that tree and leave the store
    as it was. *)
Theorem queries_within_height {V} t σ T fuel :
  repr (Go.heap σ) (Go.root t) T → (height T < fuel)%nat →
  Go.Min nil fuel t σ = Some (Tree.Min nil (as_tree t T), σ) ∧
  Go.Max nil fuel t σ = Some (Tree.Max nil (as_tree t T), σ) ∧
  (∀ k, Go.Get nil fuel t k σ = Some (Tree.Get nil (as_tree t T) k, σ)) ∧
  ∀ pivot (visitor : Item → V → bool * V) v,
    Go.visitAscend fuel t (Go.root t) pivot (Go.quiet visitor) v σ =
    Some (Tree.visitAscend (as_tree t T) T pivot visitor v, σ).
Proof.
  intros Hr Hf. split_and!.
  - destruct T as [|i q l r]; simpl in Hr.
    + unfold Go.Min. by rewrite Hr.
    + destruct Hr as (a & nd & Hx & Hnd & <- & <- & Hl & Hr).
      unfold Go.Min, Tree.Min. rewrite Hx. cbn [Tree.root as_tree].
      unfold mbind, Go.M_bind, Go.bind, Go.load. rewrite Hnd.
      apply min_loop_height; [done|]. simpl in Hf. lia.
  - destruct T as [|i q l r]; simpl in Hr.
    + unfold Go.Max. by rewrite Hr.
    + destruct Hr as (a & nd & Hx & Hnd & <- & <- & Hl & Hr).
      unfold Go.Max, Tree.Max. rewrite Hx. cbn [Tree.root as_tree].
      unfold mbind, Go.M_bind, Go.bind, Go.load. rewrite Hnd.
      apply max_loop_height; [done|]. simpl in Hf. lia.
  - intros k. by apply get_loop_height.
  - intros pivot visitor v. by apply visitAscend_height.
Qed.

End Depth.

Section Writes.
Context {Item : Type} (nil : Item).
Context (c : Compare Item) `{!TotalOrder c}.
Implicit Types (σ : Go.state (Item:=Item)) (L F : gset Go.addr).

Lemma upserts_run fuel (l : list (Item * Z)) :
  ∀ (t : Go.Treap) σ L T F acc,
  Go.compare t = c →
  sound σ L → tree_at (Go.heap σ) (Go.root t) T F → F ⊆ L → treap c T →
  (∀ x, x ∈ items T ↔ x ∈ acc) →
  (S (Tree.size T + length l) < fuel)%nat →
  ∃ t' σ' T' F' L',
    upserts nil fuel t l σ = Some (t', σ') ∧
    Go.compare t' = c ∧
    tree_at (Go.heap σ') (Go.root t') T' F' ∧ treap c T' ∧
    (∀ x, x ∈ items T' ↔ x ∈ latest c l acc) ∧
    F' ⊆ L' ∧ sound σ' L'.
Proof.
  induction l as [|[i p] l IH]; intros t σ L T F acc Hc Hs Ht HF HT Hacc Hf.
  - exists t, σ, T, F, L. by split_and!.
  - destruct t as [c0 r0]. simpl in Hc. subst c0.
    destruct HT as [Hb Hh].
    destruct (Upsert_at nil (Go.mkTreap c r0) fuel σ L T F i p Hs Ht HF)
      as (σ1 & t2 & F1 & L1 & Hrun & Hc2 & Ht2 & HF1 & Hs1 & _);
      [simpl in Hf; lia|].
    set (T2 := Tree.root (Tree.Upsert (as_tree (Go.mkTreap c r0) T) i p)) in *.
    assert (bst c T2) as Hb2
      by by apply (Upsert_bst (as_tree (Go.mkTreap c r0) T)).
    assert (heap_ordered T2) as Hh2
      by by apply (Upsert_heap (as_tree (Go.mkTreap c r0) T)).
    assert (Tree.size T2 <= S (Tree.size T))%nat as Hsz
      by by apply (Upsert_size (as_tree (Go.mkTreap c r0) T)).
    destruct (IH t2 σ1 L1 T2 F1 (i :: filter (λ x, c x i ≠ 0) acc))
      as (t' & σ' & T' & F' & L' & Hrun' & ?); try done.
    + intros x. unfold T2.
      rewrite (Upsert_elem_of (as_tree (Go.mkTreap c r0) T)) by done.
      rewrite elem_of_cons, list_elem_of_filter. simpl.
      rewrite (Hacc x). tauto.
    + simpl in Hf. lia.
    + exists t', σ', T', F', L'. split; [|done].
      cbn [upserts]. unfold mbind, Go.M_bind, Go.bind. by rewrite Hrun.
Qed.

(** A caller that only upserts, from a fresh process.  Whatever the items
    and priorities, every call returns, and the last version is stored as a
    treap that holds, for each key written, the item written last; the
    store is sound at the end. *)
Theorem upserts_from_init (l : list (Item * Z)) :
  ∃ t' σ' T' F' L',
    upserts nil (length l + 2) (Go.NewTreap c) l (Go.init nil) =
      Some (t', σ') ∧
    tree_at (Go.heap σ') (Go.root t') T' F' ∧ treap c T' ∧
    (∀ x, x ∈ items T' ↔ x ∈ latest c l []) ∧
    F' ⊆ L' ∧ sound σ' L'.
Proof.
  destruct (upserts_run (length l + 2) l (Go.NewTreap c) (Go.init nil) ∅
              Tree.null ∅ []) as (t' & σ' & T' & F' & L' & Hrun & _ & H);
    try done.
  - apply init_sound.
  - simpl. lia.
  - by exists t', σ', T', F', L'.
Qed.

End Writes.
Section Examples.

(** The facts about [sample] that the examples start from. *)
Lemma sample_sound : sound sample in_use.
Proof.
  split; unfold pool_addrs, entries, in_use; simpl.
  - intros a ->%list_elem_of_singleton. set_solver.
  - apply NoDup_singleton.
  - intros a Ha. set_unfold. lia.
  - intros a ->%list_elem_of_singleton. lia.
Qed.

Lemma sample_v53 : tree_at (Go.heap sample) (Go.root v53) five_three nodes53.
Proof.
  exists 1%positive, (Go.mkNode (K 5) 9 (Some 2%positive) None),
    {[2%positive]}, ∅.
  split_and!; try done; [|set_solver..].
  exists 2%positive, (Go.mkNode (K 3) 4 None None), ∅, ∅.
  split_and!; try done; set_solver.
Qed.

Lemma sample_v8 : tree_at (Go.heap sample) (Go.root v8) eight nodes8.
Proof.
  exists 3%positive, (Go.mkNode (K 8) 2 None None), ∅, ∅.
  split_and!; try done; set_solver.
Qed.

Lemma sample_nil : tree_at (Go.heap sample) None Tree.null ∅.
Proof. done. Qed.

Lemma five_three_treap : treap kvCompare five_three.
Proof. split; simpl; repeat split; repeat constructor; done. Qed.

Lemma eight_treap : treap kvCompare eight.
Proof. split; simpl; repeat split; repeat constructor; done. Qed.

Lemma nodes53_in_use : nodes53 ⊆ in_use.
Proof. unfold nodes53, in_use. set_solver. Qed.

Lemma nodes8_in_use : nodes8 ⊆ in_use.
Proof. unfold nodes8, in_use. set_solver. Qed.

Lemma nodes_apart : nodes53 ## nodes8.
Proof. unfold nodes53, nodes8. set_solver. Qed.

Lemma nodes_all : nodes53 ∪ nodes8 ⊆ in_use.
Proof. unfold nodes53, nodes8, in_use. set_solver. Qed.

Lemma absent_four : ¬ has kvCompare (items five_three) (K 4).
Proof.
  intros [H|[H|[]%Exists_nil]%Exists_cons]%Exists_cons; vm_compute in H;
    discriminate H.
Qed.

Lemma newNode_builds_witness :
  sound sample in_use ∧
  tree_at (Go.heap sample) (Go.root v53) five_three nodes53 ∧
  tree_at (Go.heap sample) (Go.root v8) eight nodes8 ∧
  nodes53 ## nodes8 ∧
  nodes53 ∪ nodes8 ⊆ in_use ∧
  ∃ a σ', Go.newNode None (K 9) 1 (Go.root v53) (Go.root v8) sample =
      Some (Some a, σ') ∧
    (a ∉ in_use) ∧
    tree_at (Go.heap σ') (Some a) (Tree.Node (K 9) 1 five_three eight) ({[a]}
        ∪ nodes53 ∪ nodes8) ∧
    (∀ b, b ∈ in_use → Go.heap σ' !! b = Go.heap sample !! b) ∧
    sound σ' ({[a]} ∪ in_use).
Proof.
  assert (sound sample in_use) as H1 by (exact sample_sound).
  assert (tree_at (Go.heap sample) (Go.root v53) five_three nodes53) as H2 by
    (exact sample_v53).
  assert (tree_at (Go.heap sample) (Go.root v8) eight nodes8) as H3 by (exact
    sample_v8).
  assert (nodes53 ## nodes8) as H4 by (exact nodes_apart).
  assert (nodes53 ∪ nodes8 ⊆ in_use) as H5 by (exact nodes_all).
  split; [exact H1|].
  split; [exact H2|].
  split; [exact H3|].
  split; [exact H4|].
  split; [exact H5|].
  exact (newNode_builds None sample in_use (K 9) 1 (Go.root v53) (Go.root v8)
    five_three eight nodes53 nodes8 H1 H2 H3 H4 H5).
Defined.

Lemma reuseWith_in_place_witness :
  tree_at (Go.heap sample) (Go.root v53) five_three nodes53 ∧
  tree_at (Go.heap sample) None Tree.null (∅ : gset Go.addr) ∧
  (4%positive ∉ nodes53) ∧
  (4%positive ∉ (∅ : gset Go.addr)) ∧
  nodes53 ## (∅ : gset Go.addr) ∧
  Go.reuseWith None (K 9) 1 (Go.root v53) None sample = None ∧
  ∃ σ', Go.reuseWith (Some 4%positive) (K 9) 1 (Go.root v53) None sample =
      Some (Some 4%positive, σ') ∧
    tree_at (Go.heap σ') (Some 4%positive) (Tree.Node (K 9) 1 five_three
        Tree.null) ({[4%positive]} ∪ nodes53 ∪ (∅ : gset Go.addr)) ∧
    Go.nodePool σ' = Go.nodePool sample ∧ Go.next σ' = Go.next sample ∧
    ∀ b, b ≠ 4%positive → Go.heap σ' !! b = Go.heap sample !! b.
Proof.
  assert (tree_at (Go.heap sample) (Go.root v53) five_three nodes53) as H1 by
    (exact sample_v53).
  assert (tree_at (Go.heap sample) None Tree.null (∅ : gset Go.addr)) as H2
    by (exact sample_nil).
  assert ((4%positive ∉ nodes53)) as H3 by (unfold nodes53; set_solver).
  assert ((4%positive ∉ (∅ : gset Go.addr))) as H4 by (set_solver).
  assert (nodes53 ## (∅ : gset Go.addr)) as H5 by (set_solver).
  split; [exact H1|].
  split; [exact H2|].
  split; [exact H3|].
  split; [exact H4|].
  split; [exact H5|].
  exact (reuseWith_in_place sample 4%positive (K 9) 1 (Go.root v53) None
    five_three Tree.null nodes53 ∅ H1 H2 H3 H4 H5).
Defined.

Lemma split_parts_witness :
  TotalOrder kvCompare ∧
  sound sample in_use ∧
  tree_at (Go.heap sample) (Go.root v53) five_three nodes53 ∧
  nodes53 ⊆ in_use ∧
  treap kvCompare five_three ∧
  ∃ fuel σ' l m r Tl Tr,
    Go.split None fuel v53 (Go.root v53) (K 4) sample = Some ((l, m, r), σ') ∧
    repr (Go.heap σ') l Tl ∧ repr (Go.heap σ') r Tr ∧
    treap kvCompare Tl ∧ treap kvCompare Tr ∧
    items Tl = filter (λ x, kvCompare x (K 4) < 0) (items five_three) ∧
    items Tr = filter (λ x, 0 < kvCompare x (K 4)) (items five_three) ∧
    match m with
    | None => ¬ has kvCompare (items five_three) (K 4)
    | Some a => ∃ nd, Go.heap σ' !! a = Some nd ∧ a ∈ nodes53 ∧
                      kvCompare (K 4) (Go.item nd) = 0
    end.
Proof.
  assert (TotalOrder kvCompare) as Ho by (exact kvCompare_order).
  assert (sound sample in_use) as H1 by (exact sample_sound).
  assert (tree_at (Go.heap sample) (Go.root v53) five_three nodes53) as H2 by
    (exact sample_v53).
  assert (nodes53 ⊆ in_use) as H3 by (exact nodes53_in_use).
  assert (treap kvCompare five_three) as H4 by (exact five_three_treap).
  split; [exact Ho|].
  split; [exact H1|].
  split; [exact H2|].
  split; [exact H3|].
  split; [exact H4|].
  exact (split_parts None v53 (TotalOrder0:=kvCompare_order) sample in_use
    (Go.root v53) five_three nodes53 (K 4) H1 H2 H3 H4).
Defined.


Lemma join_appends_witness :
  TotalOrder kvCompare ∧
  sound sample in_use ∧
  tree_at (Go.heap sample) (Go.root v53) five_three nodes53 ∧
  tree_at (Go.heap sample) (Go.root v8) eight nodes8 ∧
  nodes53 ## nodes8 ∧
  nodes53 ∪ nodes8 ⊆ in_use ∧
  ∃ fuel σ' p J,
    Go.join fuel (Go.root v53) (Go.root v8) sample = Some (p, σ') ∧
    repr (Go.heap σ') p J ∧
    items J = items five_three ++ items eight ∧
    (treap kvCompare five_three → treap kvCompare eight →
     (∀ x y, x ∈ items five_three → y ∈ items eight → kvCompare x y < 0) →
         treap kvCompare J) ∧
    Go.nodePool σ' = Go.nodePool sample ∧
    (∀ a, a ∈ in_use → Go.heap σ' !! a = Go.heap sample !! a).
Proof.
  assert (TotalOrder kvCompare) as Ho by (exact kvCompare_order).
  assert (sound sample in_use) as H1 by (exact sample_sound).
  assert (tree_at (Go.heap sample) (Go.root v53) five_three nodes53) as H2 by
    (exact sample_v53).
  assert (tree_at (Go.heap sample) (Go.root v8) eight nodes8) as H3 by (exact
    sample_v8).
  assert (nodes53 ## nodes8) as H4 by (exact nodes_apart).
  assert (nodes53 ∪ nodes8 ⊆ in_use) as H5 by (exact nodes_all).
  split; [exact Ho|].
  split; [exact H1|].
  split; [exact H2|].
  split; [exact H3|].
  split; [exact H4|].
  split; [exact H5|].
  exact (join_appends v53 (TotalOrder0:=kvCompare_order) sample in_use
    (Go.root v53) (Go.root v8) five_three eight nodes53 nodes8 H1 H2 H3 H4
    H5).
Defined.

Lemma union_unites_witness :
  TotalOrder kvCompare ∧
  sound sample in_use ∧
  tree_at (Go.heap sample) (Go.root v53) five_three nodes53 ∧
  tree_at (Go.heap sample) (Go.root v8) eight nodes8 ∧
  nodes53 ## nodes8 ∧
  nodes53 ∪ nodes8 ⊆ in_use ∧
  treap kvCompare five_three ∧
  treap kvCompare eight ∧
  ∃ fuel σ' p U,
    Go.union None fuel v53 (Go.root v53) (Go.root v8) sample = Some (p, σ') ∧
    repr (Go.heap σ') p U ∧ treap kvCompare U ∧
    (∀ x, x ∈ items U ↔
          x ∈ items eight ∨ (x ∈ items five_three ∧ ¬ has kvCompare
              (items eight) x)) ∧
    (∀ k, has kvCompare (items U) k ↔ has kvCompare (items five_three) k ∨ has
        kvCompare (items eight) k).
Proof.
  assert (TotalOrder kvCompare) as Ho by (exact kvCompare_order).
  assert (sound sample in_use) as H1 by (exact sample_sound).
  assert (tree_at (Go.heap sample) (Go.root v53) five_three nodes53) as H2 by
    (exact sample_v53).
  assert (tree_at (Go.heap sample) (Go.root v8) eight nodes8) as H3 by (exact
    sample_v8).
  assert (nodes53 ## nodes8) as H4 by (exact nodes_apart).
  assert (nodes53 ∪ nodes8 ⊆ in_use) as H5 by (exact nodes_all).
  assert (treap kvCompare five_three) as H6 by (exact five_three_treap).
  assert (treap kvCompare eight) as H7 by (exact eight_treap).
  split; [exact Ho|].
  split; [exact H1|].
  split; [exact H2|].
  split; [exact H3|].
  split; [exact H4|].
  split; [exact H5|].
  split; [exact H6|].
  split; [exact H7|].
  exact (union_unites None v53 (TotalOrder0:=kvCompare_order) sample in_use
    (Go.root v53) (Go.root v8) five_three eight nodes53 nodes8 H1 H2 H3 H4 H5
    H6 H7).
Defined.

Lemma Upsert_sound_witness :
  TotalOrder kvCompare ∧
  sound sample in_use ∧
  tree_at (Go.heap sample) (Go.root v53) five_three nodes53 ∧
  nodes53 ⊆ in_use ∧
  treap kvCompare five_three ∧
  ∃ fuel σ' t2 T2 F2 L2,
    Go.Upsert None fuel v53 (K 4) 7 sample = Some (t2, σ') ∧
    Go.compare t2 = kvCompare ∧
    tree_at (Go.heap σ') (Go.root t2) T2 F2 ∧ treap kvCompare T2 ∧
    (∀ x, x ∈ items T2 ↔ x =
        (K 4) ∨ (x ∈ items five_three ∧ kvCompare x (K 4) ≠ 0)) ∧
    sound σ' L2 ∧ F2 ⊆ L2.
Proof.
  assert (TotalOrder kvCompare) as Ho by (exact kvCompare_order).
  assert (sound sample in_use) as H1 by (exact sample_sound).
  assert (tree_at (Go.heap sample) (Go.root v53) five_three nodes53) as H2 by
    (exact sample_v53).
  assert (nodes53 ⊆ in_use) as H3 by (exact nodes53_in_use).
  assert (treap kvCompare five_three) as H4 by (exact five_three_treap).
  split; [exact Ho|].
  split; [exact H1|].
  split; [exact H2|].
  split; [exact H3|].
  split; [exact H4|].
  exact (Sound.Upsert_sound None v53 (TotalOrder0:=kvCompare_order) sample
    in_use five_three nodes53 (K 4) 7 H1 H2 H3 H4).
Defined.

Lemma Upsert_frame_witness :
  sound sample in_use ∧
  tree_at (Go.heap sample) (Go.root v53) five_three nodes53 ∧
  nodes53 ⊆ in_use ∧
  tree_at (Go.heap sample) (Go.root v8) eight nodes8 ∧
  nodes8 ⊆ in_use ∧
  nodes8 ## nodes53 ∧
  ∃ fuel σ' t2 T2 F2 L2,
    Go.Upsert None fuel v53 (K 4) 7 sample = Some (t2, σ') ∧
    tree_at (Go.heap σ') (Go.root t2) T2 F2 ∧
    tree_at (Go.heap σ') (Go.root v8) eight nodes8 ∧
    F2 ## nodes8 ∧ F2 ∪ nodes8 ⊆ L2 ∧ sound σ' L2.
Proof.
  assert (sound sample in_use) as H1 by (exact sample_sound).
  assert (tree_at (Go.heap sample) (Go.root v53) five_three nodes53) as H2 by
    (exact sample_v53).
  assert (nodes53 ⊆ in_use) as H3 by (exact nodes53_in_use).
  assert (tree_at (Go.heap sample) (Go.root v8) eight nodes8) as H4 by (exact
    sample_v8).
  assert (nodes8 ⊆ in_use) as H5 by (exact nodes8_in_use).
  assert (nodes8 ## nodes53) as H6 by (symmetry; exact nodes_apart).
  split; [exact H1|].
  split; [exact H2|].
  split; [exact H3|].
  split; [exact H4|].
  split; [exact H5|].
  split; [exact H6|].
  exact (Upsert_frame None v53 sample in_use five_three nodes53 (K 4) 7
    (Go.root v8) eight nodes8 H1 H2 H3 H4 H5 H6).
Defined.

Lemma Upsert_then_Get_witness :
  TotalOrder kvCompare ∧
  sound sample in_use ∧
  tree_at (Go.heap sample) (Go.root v53) five_three nodes53 ∧
  nodes53 ⊆ in_use ∧
  treap kvCompare five_three ∧
  ∃ fuel σ' t2 fuel',
    Go.Upsert None fuel v53 (Some (3, 1)) 7 sample = Some (t2, σ') ∧
    Go.Get None fuel' t2 (Some (3, 1)) σ' = Some ((Some (3, 1)), σ') ∧
    ∀ k, kvCompare k (Some (3, 1)) ≠ 0 →
      ∃ found, Go.Get None fuel' v53 k sample = Some (found, sample) ∧
               Go.Get None fuel' t2 k σ' = Some (found, σ').
Proof.
  assert (TotalOrder kvCompare) as Ho by (exact kvCompare_order).
  assert (sound sample in_use) as H1 by (exact sample_sound).
  assert (tree_at (Go.heap sample) (Go.root v53) five_three nodes53) as H2 by
    (exact sample_v53).
  assert (nodes53 ⊆ in_use) as H3 by (exact nodes53_in_use).
  assert (treap kvCompare five_three) as H4 by (exact five_three_treap).
  split; [exact Ho|].
  split; [exact H1|].
  split; [exact H2|].
  split; [exact H3|].
  split; [exact H4|].
  exact (Upsert_then_Get None v53 (TotalOrder0:=kvCompare_order) sample
    in_use five_three nodes53 (Some (3, 1)) 7 H1 H2 H3 H4).
Defined.

Lemma Upsert_on_top_witness :
  TotalOrder kvCompare ∧
  sound sample in_use ∧
  tree_at (Go.heap sample) (Go.root v53) five_three nodes53 ∧
  nodes53 ⊆ in_use ∧
  treap kvCompare five_three ∧
  prio_le five_three 10 ∧
  ∃ fuel σ' t2 Tl Tr,
    Go.Upsert None fuel v53 (K 4) 10 sample = Some (t2, σ') ∧
    repr (Go.heap σ') (Go.root t2) (Tree.Node (K 4) 10 Tl Tr) ∧
    items Tl = filter (λ x, kvCompare x (K 4) < 0) (items five_three) ∧
    items Tr = filter (λ x, 0 < kvCompare x (K 4)) (items five_three).
Proof.
  assert (TotalOrder kvCompare) as Ho by (exact kvCompare_order).
  assert (sound sample in_use) as H1 by (exact sample_sound).
  assert (tree_at (Go.heap sample) (Go.root v53) five_three nodes53) as H2 by
    (exact sample_v53).
  assert (nodes53 ⊆ in_use) as H3 by (exact nodes53_in_use).
  assert (treap kvCompare five_three) as H4 by (exact five_three_treap).
  assert (prio_le five_three 10) as H5 by (simpl; lia).
  split; [exact Ho|].
  split; [exact H1|].
  split; [exact H2|].
  split; [exact H3|].
  split; [exact H4|].
  split; [exact H5|].
  exact (Upsert_on_top None v53 (TotalOrder0:=kvCompare_order) sample in_use
    five_three nodes53 (K 4) 10 H1 H2 H3 H4 H5).
Defined.

Lemma Upsert_priority_witness :
  TotalOrder kvCompare ∧
  sound sample in_use ∧
  tree_at (Go.heap sample) (Go.root v53) five_three nodes53 ∧
  nodes53 ⊆ in_use ∧
  treap kvCompare five_three ∧
  ∃ fuel σ' t2 T2,
    Go.Upsert None fuel v53 (K 3) 6 sample = Some (t2, σ') ∧
    repr (Go.heap σ') (Go.root t2) T2 ∧
    priority_of kvCompare T2 (K 3) =
      Some (match priority_of kvCompare five_three (K 3) with
            | Some q => q `max` 6
            | None => 6
            end).
Proof.
  assert (TotalOrder kvCompare) as Ho by (exact kvCompare_order).
  assert (sound sample in_use) as H1 by (exact sample_sound).
  assert (tree_at (Go.heap sample) (Go.root v53) five_three nodes53) as H2 by
    (exact sample_v53).
  assert (nodes53 ⊆ in_use) as H3 by (exact nodes53_in_use).
  assert (treap kvCompare five_three) as H4 by (exact five_three_treap).
  split; [exact Ho|].
  split; [exact H1|].
  split; [exact H2|].
  split; [exact H3|].
  split; [exact H4|].
  exact (Upsert_priority None v53 (TotalOrder0:=kvCompare_order) sample
    in_use five_three nodes53 (K 3) 6 H1 H2 H3 H4).
Defined.

Lemma Upsert_new_key_keeps_old_version_witness :
  TotalOrder kvCompare ∧
  sound sample in_use ∧
  tree_at (Go.heap sample) (Go.root v53) five_three nodes53 ∧
  nodes53 ⊆ in_use ∧
  treap kvCompare five_three ∧
  (¬ has kvCompare (items five_three) (K 4)) ∧
  ∃ fuel σ' t2 T2 F2 N,
    Go.Upsert None fuel v53 (K 4) 7 sample = Some (t2, σ') ∧
    tree_at (Go.heap σ') (Go.root t2) T2 F2 ∧
    (∀ x, x ∈ items T2 ↔ x = K 4 ∨ x ∈ items five_three) ∧
    tree_at (Go.heap σ') (Go.root v53) five_three nodes53 ∧
    (∀ a, a ∈ in_use → Go.heap σ' !! a = Go.heap sample !! a) ∧
    (∀ k, ∃ fuel' found,
       Go.Get None fuel' v53 k sample = Some (found, sample) ∧
       Go.Get None fuel' v53 k σ' = Some (found, σ')) ∧
    F2 ⊆ N ∪ nodes53 ∧ N ## in_use ∧ sound σ' (N ∪ in_use).
Proof.
  assert (TotalOrder kvCompare) as Ho by (exact kvCompare_order).
  assert (sound sample in_use) as H1 by (exact sample_sound).
  assert (tree_at (Go.heap sample) (Go.root v53) five_three nodes53) as H2 by
    (exact sample_v53).
  assert (nodes53 ⊆ in_use) as H3 by (exact nodes53_in_use).
  assert (treap kvCompare five_three) as H4 by (exact five_three_treap).
  assert (¬ has kvCompare (items five_three) (K 4)) as H5 by (exact
    absent_four).
  split; [exact Ho|].
  split; [exact H1|].
  split; [exact H2|].
  split; [exact H3|].
  split; [exact H4|].
  split; [exact H5|].
  exact (Upsert_new_key_keeps_old_version None v53
    (TotalOrder0:=kvCompare_order) sample in_use five_three nodes53 (K 4) 7
    H1 H2 H3 H4 H5).
Defined.

Lemma Delete_sound_witness :
  TotalOrder kvCompare ∧
  sound sample in_use ∧
  tree_at (Go.heap sample) (Go.root v53) five_three nodes53 ∧
  nodes53 ⊆ in_use ∧
  treap kvCompare five_three ∧
  ∃ fuel σ' t2 T2 F2,
    Go.Delete None fuel v53 (K 3) sample = Some (t2, σ') ∧
    Go.compare t2 = kvCompare ∧
    tree_at (Go.heap σ') (Go.root t2) T2 F2 ∧ treap kvCompare T2 ∧
    items T2 = filter (λ x, kvCompare x (K 3) ≠ 0) (items five_three) ∧
    (match five_three with
     | Tree.null => True
     | Tree.Node i _ _ _ => kvCompare (K 3) i ≠ 0
     end → ∃ L2, sound σ' L2 ∧ F2 ⊆ L2).
Proof.
  assert (TotalOrder kvCompare) as Ho by (exact kvCompare_order).
  assert (sound sample in_use) as H1 by (exact sample_sound).
  assert (tree_at (Go.heap sample) (Go.root v53) five_three nodes53) as H2 by
    (exact sample_v53).
  assert (nodes53 ⊆ in_use) as H3 by (exact nodes53_in_use).
  assert (treap kvCompare five_three) as H4 by (exact five_three_treap).
  split; [exact Ho|].
  split; [exact H1|].
  split; [exact H2|].
  split; [exact H3|].
  split; [exact H4|].
  exact (Sound.Delete_sound None v53 (TotalOrder0:=kvCompare_order) sample
    in_use five_three nodes53 (K 3) H1 H2 H3 H4).
Defined.

Lemma Delete_writes_no_node_witness :
  sound sample in_use ∧
  tree_at (Go.heap sample) (Go.root v53) five_three nodes53 ∧
  nodes53 ⊆ in_use ∧
  ∃ fuel σ' t2,
    Go.Delete None fuel v53 (K 3) sample = Some (t2, σ') ∧
    ∀ other T3 F3,
      tree_at (Go.heap sample) other T3 F3 → F3 ⊆ in_use →
      tree_at (Go.heap σ') other T3 F3.
Proof.
  assert (sound sample in_use) as H1 by (exact sample_sound).
  assert (tree_at (Go.heap sample) (Go.root v53) five_three nodes53) as H2 by
    (exact sample_v53).
  assert (nodes53 ⊆ in_use) as H3 by (exact nodes53_in_use).
  split; [exact H1|].
  split; [exact H2|].
  split; [exact H3|].
  exact (Delete_writes_no_node None v53 sample in_use five_three nodes53
    (K 3) H1 H2 H3).
Defined.

Lemma Delete_absent_witness :
  TotalOrder kvCompare ∧
  sound sample in_use ∧
  tree_at (Go.heap sample) (Go.root v53) five_three nodes53 ∧
  nodes53 ⊆ in_use ∧
  treap kvCompare five_three ∧
  (¬ has kvCompare (items five_three) (K 4)) ∧
  ∃ fuel σ' t2 T2 F2 L2,
    Go.Delete None fuel v53 (K 4) sample = Some (t2, σ') ∧
    tree_at (Go.heap σ') (Go.root t2) T2 F2 ∧ treap kvCompare T2 ∧
    items T2 = items five_three ∧
    sound σ' L2 ∧ F2 ⊆ L2.
Proof.
  assert (TotalOrder kvCompare) as Ho by (exact kvCompare_order).
  assert (sound sample in_use) as H1 by (exact sample_sound).
  assert (tree_at (Go.heap sample) (Go.root v53) five_three nodes53) as H2 by
    (exact sample_v53).
  assert (nodes53 ⊆ in_use) as H3 by (exact nodes53_in_use).
  assert (treap kvCompare five_three) as H4 by (exact five_three_treap).
  assert (¬ has kvCompare (items five_three) (K 4)) as H5 by (exact
    absent_four).
  split; [exact Ho|].
  split; [exact H1|].
  split; [exact H2|].
  split; [exact H3|].
  split; [exact H4|].
  split; [exact H5|].
  exact (Delete_absent None v53 (TotalOrder0:=kvCompare_order) sample in_use
    five_three nodes53 (K 4) H1 H2 H3 H4 H5).
Defined.

Lemma Delete_root_key_pools_root_twice_witness :
  sound sample in_use ∧
  tree_at (Go.heap sample) (Go.root v53) (Tree.Node (K 5) 9
    (Tree.Node (K 3) 4 Tree.null Tree.null) Tree.null) nodes53 ∧
  nodes53 ⊆ in_use ∧
  kvCompare (K 5) (K 5) = 0 ∧
  ∃ fuel σ' t2 a,
    Go.Delete None fuel v53 (K 5) sample = Some (t2, σ') ∧
    Go.root v53 = Some a ∧
    pool_addrs (Go.nodePool σ') ≡ₚ a :: a :: pool_addrs (Go.nodePool sample) ∧
    ∀ L', ¬ sound σ' L'.
Proof.
  assert (sound sample in_use) as H1 by (exact sample_sound).
  assert (tree_at (Go.heap sample) (Go.root v53)
    (Tree.Node (K 5) 9 (Tree.Node (K 3) 4 Tree.null Tree.null) Tree.null)
    nodes53) as H2 by (exact sample_v53).
  assert (nodes53 ⊆ in_use) as H3 by (exact nodes53_in_use).
  assert (kvCompare (K 5) (K 5) = 0) as H4 by (reflexivity).
  split; [exact H1|].
  split; [exact H2|].
  split; [exact H3|].
  split; [exact H4|].
  exact (Delete_root_key_pools_root_twice None v53 sample in_use (K 5) 9
    (Tree.Node (K 3) 4 Tree.null Tree.null) Tree.null nodes53 (K 5) H1 H2 H3
    H4).
Defined.

Lemma Delete_then_Get_witness :
  TotalOrder kvCompare ∧
  sound sample in_use ∧
  tree_at (Go.heap sample) (Go.root v53) five_three nodes53 ∧
  nodes53 ⊆ in_use ∧
  treap kvCompare five_three ∧
  ∃ fuel σ' t2 fuel',
    Go.Delete None fuel v53 (K 3) sample = Some (t2, σ') ∧
    Go.Get None fuel' t2 (K 3) σ' = Some (None, σ') ∧
    ∀ k', kvCompare k' (K 3) ≠ 0 →
      ∃ found, Go.Get None fuel' v53 k' sample = Some (found, sample) ∧
               Go.Get None fuel' t2 k' σ' = Some (found, σ').
Proof.
  assert (TotalOrder kvCompare) as Ho by (exact kvCompare_order).
  assert (sound sample in_use) as H1 by (exact sample_sound).
  assert (tree_at (Go.heap sample) (Go.root v53) five_three nodes53) as H2 by
    (exact sample_v53).
  assert (nodes53 ⊆ in_use) as H3 by (exact nodes53_in_use).
  assert (treap kvCompare five_three) as H4 by (exact five_three_treap).
  split; [exact Ho|].
  split; [exact H1|].
  split; [exact H2|].
  split; [exact H3|].
  split; [exact H4|].
  exact (Delete_then_Get None v53 (TotalOrder0:=kvCompare_order) sample
    in_use five_three nodes53 (K 3) H1 H2 H3 H4).
Defined.

Lemma Upsert_then_Delete_witness :
  TotalOrder kvCompare ∧
  sound sample in_use ∧
  tree_at (Go.heap sample) (Go.root v53) five_three nodes53 ∧
  nodes53 ⊆ in_use ∧
  treap kvCompare five_three ∧
  (¬ has kvCompare (items five_three) (K 4)) ∧
  ∃ fuel1 σ1 t2 fuel2 σ2 t3 T3,
    Go.Upsert None fuel1 v53 (K 4) 7 sample = Some (t2, σ1) ∧
    Go.Delete None fuel2 t2 (K 4) σ1 = Some (t3, σ2) ∧
    repr (Go.heap σ2) (Go.root t3) T3 ∧ treap kvCompare T3 ∧
    items T3 = items five_three.
Proof.
  assert (TotalOrder kvCompare) as Ho by (exact kvCompare_order).
  assert (sound sample in_use) as H1 by (exact sample_sound).
  assert (tree_at (Go.heap sample) (Go.root v53) five_three nodes53) as H2 by
    (exact sample_v53).
  assert (nodes53 ⊆ in_use) as H3 by (exact nodes53_in_use).
  assert (treap kvCompare five_three) as H4 by (exact five_three_treap).
  assert (¬ has kvCompare (items five_three) (K 4)) as H5 by (exact
    absent_four).
  split; [exact Ho|].
  split; [exact H1|].
  split; [exact H2|].
  split; [exact H3|].
  split; [exact H4|].
  split; [exact H5|].
  exact (Upsert_then_Delete None v53 (TotalOrder0:=kvCompare_order) sample
    in_use five_three nodes53 (K 4) 7 H1 H2 H3 H4 H5).
Defined.

Lemma queries_within_height_witness :
  repr (Go.heap sample) (Go.root v53) five_three ∧
  (height five_three < 3%nat)%nat ∧
  Go.Min None 3%nat v53 sample =
      Some (Tree.Min None (as_tree v53 five_three), sample) ∧
  Go.Max None 3%nat v53 sample =
      Some (Tree.Max None (as_tree v53 five_three), sample) ∧
  (∀ k, Go.Get None 3%nat v53 k sample =
      Some (Tree.Get None (as_tree v53 five_three) k, sample)) ∧
  ∀ pivot (visitor : kv → list kv → bool * list kv) v,
    Go.visitAscend 3%nat v53 (Go.root v53) pivot (Go.quiet visitor) v
        sample =
    Some (Tree.visitAscend (as_tree v53 five_three) five_three pivot visitor
        v, sample).
Proof.
  assert (repr (Go.heap sample) (Go.root v53) five_three) as H1 by (exact
    (tree_at_repr _ _ _ _ sample_v53)).
  assert ((height five_three < 3%nat)%nat) as H2 by (simpl; lia).
  split; [exact H1|].
  split; [exact H2|].
  exact (queries_within_height (V:=list kv) None v53 sample five_three 3 H1
    H2).
Defined.

Lemma upserts_from_init_witness :
  TotalOrder kvCompare ∧
  ∃ t' σ' T' F' L',
    upserts None (length writes + 2) (Go.NewTreap kvCompare) writes (Go.init
        None) =
      Some (t', σ') ∧
    tree_at (Go.heap σ') (Go.root t') T' F' ∧ treap kvCompare T' ∧
    (∀ x, x ∈ items T' ↔ x ∈ latest kvCompare writes []) ∧
    F' ⊆ L' ∧ sound σ' L'.
Proof.
  assert (TotalOrder kvCompare) as Ho by (exact kvCompare_order).
  split; [exact Ho|].
  exact (upserts_from_init None kvCompare (TotalOrder0:=kvCompare_order)
    writes).
Defined.

End Examples.
End Properties.
